(** * alpha/declcfg: the Meta codec and the JSON error formatter

    A shallow embedding of [alpha/declcfg/declcfg.go]:

    - [Meta.MarshalJSON], [Meta.UnmarshalJSON] and [extractUniqueMetaKeys],
      the case-insensitive decoder of generic catalog records;
    - [resolveUnmarshalErr] and [formatUnmarshallErrorString], which render
      a decode failure next to the indented document.

    The functions of [declcfg.go] are translated line by line.  What they
    import ([encoding/json], [golang.org/x/text/cases], [fmt]) is an
    interface, [GoLib]: every general theorem holds for any implementation
    of it.  A reference implementation, [goref], ports the byte scanner of
    [encoding/json] and a decoder and encoder for the JSON fragment
    described there; it runs the program on concrete documents. *)

From Stdlib Require Import ZArith String Ascii List Permutation Sorted.
From stdpp Require Import base option list gmap sets strings sorting pretty.

Set Warnings "-register-all".
Local Open Scope string_scope.
Local Open Scope Z_scope.

(** ** The Go runtime *)

(** A Go computation either returns or panics (a run-time error such as an
    index out of range). *)
Inductive outcome (A : Type) : Type :=
| Done (a : A)
| Panic.
Arguments Done {A} a.
Arguments Panic {A}.

#[global] Instance outcome_ret : MRet outcome := @Done.
#[global] Instance outcome_bind : MBind outcome := λ A B f m,
  match m with Done a => f a | Panic => Panic end.

(** Go's [string] and [[]byte] are sequences of 8-bit bytes; both are
    [string] here, whose characters are the 256 values of [ascii]. *)
Definition len (s : string) : Z := Z.of_nat (String.length s).

Fixpoint take_bytes (n : nat) (s : string) : string :=
  match n, s with
  | S n, String c s => String c (take_bytes n s)
  | _, _ => EmptyString
  end.

Fixpoint drop_bytes (n : nat) (s : string) : string :=
  match n, s with
  | S n, String _ s => drop_bytes n s
  | _, _ => s
  end.

(** [s[:n]] and [s[n:]]: both panic unless [0 <= n <= len(s)]. *)
Definition slice_to (s : string) (n : Z) : outcome string :=
  if (0 <=? n) && (n <=? len s) then Done (take_bytes (Z.to_nat n) s)
  else Panic.

Definition slice_from (s : string) (n : Z) : outcome string :=
  if (0 <=? n) && (n <=? len s) then Done (drop_bytes (Z.to_nat n) s)
  else Panic.

Definition LF : ascii := "010"%char.
Definition SP : ascii := " "%char.

(** The iteration order of [range] over a Go map is unspecified, and so is
    the order of [sets.Set.UnsortedList].  An execution is determined by a
    choice of order for each loop: [order] rearranges the entries, and a
    [fair] order visits each entry exactly once. *)
Definition order : Type := ∀ A : Type, list A → list A.
Definition fair (ρ : order) : Prop := ∀ (A : Type) (l : list A), ρ A l ≡ₚ l.

Definition in_order : order := λ A l, l.
Definition in_reverse : order := λ A l, reverse l.

(** ** Decoded JSON *)

(** The dynamic values [encoding/json] stores in an [interface{}]: [nil],
    [bool], [float64], [string], [[]interface{}] and
    [map[string]interface{}].  The program never looks inside a number, so
    the type of [float64] values is a parameter. *)
Inductive value (F : Type) : Type :=
| VNil
| VBool (b : bool)
| VFloat (f : F)
| VString (s : string)
| VSlice (l : list (value F))
| VMap (m : gmap string (value F)).
Arguments VNil {F}.
Arguments VBool {F} b.
Arguments VFloat {F} f.
Arguments VString {F} s.
Arguments VSlice {F} l.
Arguments VMap {F} m.

(** A Go variable of type [map[string]interface{}]: [None] is the nil map,
    which reads as an empty map but encodes as [null]. *)
Abbreviation gomap F := (option (gmap string (value F))) (only parsing).

Definition entries {F} (blobMap : gomap F) : gmap string (value F) :=
  default ∅ blobMap.

(** ** Errors *)

(** The dynamic types of [error] that reach this package. *)
Inductive error : Type :=
| SyntaxError (msg : string) (Offset : Z)
    (* *json.SyntaxError *)
| UnmarshalTypeError (Value Type_ Struct Field : string) (Offset : Z)
    (* *json.UnmarshalTypeError *)
| ErrorString (msg : string)
    (* what fmt.Errorf returns for a format without the verb w, and the
       errors of the encoder *)
| Aggregate (errs : list error).
    (* utilerrors.Aggregate *)

(** [utilerrors.NewAggregate]: nil for an empty list.  (It also drops nil
    entries; a [list error] has none.) *)
Definition NewAggregate (errlist : list error) : option error :=
  match errlist with
  | [] => None
  | _ => Some (Aggregate errlist)
  end.

Definition join (sep : string) (l : list string) : string :=
  match l with
  | [] => EmptyString
  | s :: l => foldl (λ acc t, acc +:+ sep +:+ t) s l
  end.

Fixpoint dedup_msgs (seen : gset string) (l : list string) : list string :=
  match l with
  | [] => []
  | msg :: l =>
      if decide (msg ∈ seen) then dedup_msgs seen l
      else msg :: dedup_msgs ({[msg]} ∪ seen) l
  end.

(** The messages of the errors [aggregate.visit] reaches, in order: an
    aggregate inside an aggregate is walked, not rendered. *)
Fixpoint visit_msgs (e : error) : list string :=
  match e with
  | SyntaxError msg _ => [msg]
  | UnmarshalTypeError Value Type_ Struct Field _ =>
      [if (negb (String.eqb Struct "") || negb (String.eqb Field ""))%bool
       then "json: cannot unmarshal " +:+ Value +:+ " into Go struct field "
            +:+ Struct +:+ "." +:+ Field +:+ " of type " +:+ Type_
       else "json: cannot unmarshal " +:+ Value +:+ " into Go value of type "
            +:+ Type_]
  | ErrorString msg => [msg]
  | Aggregate errs => concat (map visit_msgs errs)
  end.

(** The [Error()] method. *)
Fixpoint Error (e : error) : string :=
  match e with
  | Aggregate errs =>
      match errs with
      | [] => EmptyString
      | [e] => Error e
      | _ =>
          match dedup_msgs ∅ (visit_msgs e) with
          | [msg] => msg
          | msgs => "[" +:+ join ", " msgs +:+ "]"
          end
      end
  | _ => join "" (visit_msgs e)
  end.

(** [errors.As] with a target of type [*json.UnmarshalTypeError], resp.
    [*json.SyntaxError]: none of the other errors unwraps to one. *)
Definition as_UnmarshalTypeError (err : error) : option (string * Z) :=
  match err with
  | UnmarshalTypeError _ _ _ _ Offset => Some (Error err, Offset)
  | _ => None
  end.

Definition as_SyntaxError (err : error) : option (string * Z) :=
  match err with
  | SyntaxError msg Offset => Some (Error err, Offset)
  | _ => None
  end.

(** The byte offset carried by a failure of the decoder. *)
Definition error_offset (err : error) : option Z :=
  match err with
  | SyntaxError _ Offset => Some Offset
  | UnmarshalTypeError _ _ _ _ Offset => Some Offset
  | _ => None
  end.

(** ** The imported packages *)

(** The functions [declcfg.go] calls in [golang.org/x/text/cases],
    [encoding/json] and [fmt]. *)
Class GoLib (float64 : Type) : Type := {
  (** [cases.Fold().String]: Unicode case folding *)
  Fold_String : string → string;
  (** [json.Unmarshal(data, &m)] for [m] of type [map[string]interface{}]:
      the map afterwards, and the error *)
  json_Unmarshal : string → gomap float64 → gomap float64 * option error;
  (** [json.NewEncoder(&buf)], [SetEscapeHTML(escapeHTML)], [Encode(m)]:
      the bytes written to the empty buffer, or the error *)
  json_Encode : bool → gomap float64 → string + error;
  (** [json.Indent(&dst, src, prefix, indent)] for an empty [dst]: what
      [dst] holds afterwards, or the error *)
  json_Indent : string → string → string → string + error;
  (** [fmt]'s verb [q] on a string *)
  fmt_q : string → string;
  (** [fmt]'s verbs [t] and [v] on an [interface{}] *)
  fmt_t : value float64 → string;
  fmt_v : value float64 → string;
}.

(** [fmt]'s verb [v] on a [[]string] and verb [d] on an [int64]. *)
Definition fmt_v_strings (l : list string) : string :=
  "[" +:+ join " " l +:+ "]".

Definition fmt_d (n : Z) : string := pretty n.

(** [sets.Set[string]] is a [gset string]; [sets.List] returns its elements
    sorted (strings compare bytewise). *)
Definition sets_List (s : gset string) : list string :=
  merge_sort String.le (elements s).

(** ** declcfg.go *)

Record Meta : Type := mkMeta {
  Schema : string;
  Package : string;
  Name : string;
  Blob : string                (* json.RawMessage *)
}.

(** The pointers [&m.Schema], [&m.Package] and [&m.Name]. *)
Inductive field_ptr : Type := ptr_Schema | ptr_Package | ptr_Name.

#[global] Instance field_ptr_eq_dec : EqDecision field_ptr.
Proof. solve_decision. Defined.

(** The canonical name of the field behind a pointer. *)
Definition field_name (ptr : field_ptr) : string :=
  match ptr with
  | ptr_Schema => "schema"
  | ptr_Package => "package"
  | ptr_Name => "name"
  end.

(** [*ptr = v] *)
Definition store (ptr : field_ptr) (v : string) (m : Meta) : Meta :=
  match ptr with
  | ptr_Schema => mkMeta v (Package m) (Name m) (Blob m)
  | ptr_Package => mkMeta (Schema m) v (Name m) (Blob m)
  | ptr_Name => mkMeta (Schema m) (Package m) v (Blob m)
  end.

(** [*ptr] *)
Definition load (ptr : field_ptr) (m : Meta) : string :=
  match ptr with
  | ptr_Schema => Schema m
  | ptr_Package => Package m
  | ptr_Name => Name m
  end.

Definition set_Blob (b : string) (m : Meta) : Meta :=
  mkMeta (Schema m) (Package m) (Name m) b.

(** [func (m Meta) MarshalJSON() ([]byte, error)] *)
Definition MarshalJSON (m : Meta) : string * option error :=
  (Blob m, None).

(** The bytes of a string that the offset translation counts: all but
    the line feeds and the spaces. *)
Definition counted (c : ascii) : bool :=
  (negb (Ascii.eqb c LF) && negb (Ascii.eqb c SP))%bool.

Fixpoint visible (s : string) : string :=
  match s with
  | EmptyString => EmptyString
  | String c s => if counted c then String c (visible s) else visible s
  end.

Section declcfg.
Context {float64 : Type} `{!GoLib float64}.

(** The run-time's choice of iteration orders in this execution. *)
Variable range : order.

(** The original keys of [blobMap] that fold to [foldedKey], in the words
    of the specification: a fold-bucket. *)
Definition bucket (blobMap : gomap float64) (foldedKey : string) : gset string :=
  filter (λ key, Fold_String key = foldedKey) (dom (entries blobMap)).

(** The members of a list of keys that fold to [foldedKey]. *)
Definition bucket_of (l : list string) (foldedKey : string) : gset string :=
  list_to_set (filter (λ key, Fold_String key = foldedKey) l).

(** Lines 136-140, the body of the loop over [blobMap]. *)
Definition keySets_add (keySets : gmap string (gset string)) (key : string)
  : gmap string (gset string) :=
  let foldKey := Fold_String key in
  let keySets :=
    match keySets !! foldKey with
    | Some _ => keySets
    | None => <[foldKey := ∅]> keySets
    end in
  alter (λ keys, {[key]} ∪ keys) foldKey keySets.

(** Lines 133-141. *)
Definition make_keySets (blobMap : gomap float64) : gmap string (gset string) :=
  foldl (λ keySets kv, keySets_add keySets kv.1) ∅
        (range _ (map_to_list (entries blobMap))).

Definition dupErr (foldedKey : string) (keys : gset string) : error :=
  ErrorString ("duplicate keys for key " +:+ fmt_q foldedKey +:+ ": "
               +:+ fmt_v_strings (sets_List keys)).

(** Lines 143-148. *)
Definition make_dupErrs (keySets : gmap string (gset string)) : list error :=
  foldl (λ dupErrs kv,
           if decide (size kv.2 ≠ 1%nat) then (dupErrs ++ [dupErr kv.1 kv.2])%list
           else dupErrs)
        [] (range _ (map_to_list keySets)).

(** Lines 153-157. *)
Definition metaMap : gmap string field_ptr :=
  <[Fold_String "name" := ptr_Name]>
    (<[Fold_String "package" := ptr_Package]>
       (<[Fold_String "schema" := ptr_Schema]> ∅)).

Definition typeErr (key : string) (v : value float64) : error :=
  ErrorString ("expected value for key " +:+ fmt_q key
               +:+ " to be a string, got " +:+ fmt_t v +:+ ": " +:+ fmt_v v).

(** Lines 159-177: the loop over [metaMap], from the entries still to
    visit, and the final [return nil]. *)
Fixpoint assign_fields (blobMap : gomap float64)
    (keySets : gmap string (gset string))
    (todo : list (string * field_ptr)) (m : Meta)
  : outcome (Meta * option error) :=
  match todo with
  | [] => Done (m, None)
  | (foldedKey, ptr) :: todo =>
      match keySets !! foldedKey with
      | None => assign_fields blobMap keySets todo m           (* continue *)
      | Some keys =>
          match range _ (elements keys) with
          | [] => Panic                    (* UnsortedList()[0], empty list *)
          | key :: _ =>
              match entries blobMap !! key with
              | None => assign_fields blobMap keySets todo m   (* continue *)
              | Some (VString v) =>
                  assign_fields blobMap keySets todo (store ptr v m)
              | Some v => Done (m, Some (typeErr key v))
              end
          end
      end
  end.

(** What an iteration of that loop reads for the entry [foldedKey] of
    [metaMap]: the key [keySets[foldedKey].UnsortedList()[0]] and the value
    [blobMap[key]]. *)
Definition hit (blobMap : gomap float64) (keySets : gmap string (gset string))
    (foldedKey key : string) (v : value float64) : Prop :=
  ∃ keys, keySets !! foldedKey = Some keys
          ∧ head (range _ (elements keys)) = Some key
          ∧ entries blobMap !! key = Some v.

(** Every value found under a key that is alone in the bucket of a
    well-known name is a string. *)
Definition well_typed (blobMap : gomap float64) : Prop :=
  ∀ foldedKey ptr key v,
    metaMap !! foldedKey = Some ptr →
    bucket blobMap foldedKey = {[key]} →
    entries blobMap !! key = Some v → ∃ s, v = VString s.

(** No two keys of [blobMap] fold to the same key. *)
Definition unambiguous (blobMap : gomap float64) : Prop :=
  ∀ foldedKey, (size (bucket blobMap foldedKey) ≤ 1)%nat.

(** [func extractUniqueMetaKeys(blobMap map[string]any, m *Meta) error]:
    the Meta afterwards and the error returned. *)
Definition extractUniqueMetaKeys (blobMap : gomap float64) (m : Meta)
  : outcome (Meta * option error) :=
  let keySets := make_keySets blobMap in
  let dupErrs := make_dupErrs keySets in
  if decide (0 < length dupErrs)%nat then Done (m, NewAggregate dupErrs)
  else assign_fields blobMap keySets (range _ (map_to_list metaMap)) m.

(** [func (m *Meta) UnmarshalJSON(blob []byte) error] *)
Definition UnmarshalJSON (m : Meta) (blob : string)
  : outcome (Meta * option error) :=
  match json_Unmarshal blob (Some ∅) with
  | (_, Some err) => Done (m, Some err)
  | (blobMap, None) =>
      r ← extractUniqueMetaKeys blobMap m;
      match r with
      | (m, Some err) => Done (m, Some err)
      | (m, None) =>
          match json_Encode false blobMap with
          | inr err => Done (m, Some err)
          | inl buf => Done (set_Blob buf m, None)
          end
      end
  end.

(** Lines 204-209: the loop that moves [pOffset] through [pString].
    [rest] is [pString[pOffset:]], so [pString[pOffset]] is its first
    byte and is out of range when [rest] is empty. *)
Fixpoint translate_offset (rest : string) (offset pOffset origOffset : Z)
  : outcome Z :=
  if origOffset <? offset then
    match rest with
    | EmptyString => Panic
    | String c rest =>
        translate_offset rest offset (pOffset + 1)
          (if (negb (Ascii.eqb c LF) && negb (Ascii.eqb c SP))%bool
           then origOffset + 1 else origOffset)
    end
  else Done pOffset.

(** Lines 214-216: [sb.WriteByte(data[i])] for [i] below [offset].
    [rest] is [data[i:]]. *)
Fixpoint write_prefix (sb : string) (rest : string) (i offset : Z)
  : outcome string :=
  if i <? offset then
    match rest with
    | EmptyString => Panic
    | String c rest =>
        write_prefix (sb +:+ String c EmptyString) rest (i + 1) offset
    end
  else Done sb.

Definition header (errmsg : string) (offset : Z) : string :=
  errmsg +:+ " at offset " +:+ fmt_d offset +:+ " (indicated by <==)"
  +:+ String LF " ".

(** [func formatUnmarshallErrorString(data []byte, errmsg string, offset int64) string] *)
Definition formatUnmarshallErrorString (data errmsg : string) (offset : Z)
  : outcome string :=
  let sb := header errmsg offset in
  match json_Indent data "" "    " with
  | inl pString =>
      pOffset ← translate_offset pString offset 0 0;
      pre ← slice_to pString pOffset;
      suf ← slice_from pString pOffset;
      Done (sb +:+ pre +:+ " <== " +:+ suf)
  | inr _ =>
      sb ← write_prefix sb data 0 offset;
      suf ← slice_from data offset;
      Done (sb +:+ " <== " +:+ suf)
  end.

(** [func resolveUnmarshalErr(data []byte, err error) string] *)
Definition resolveUnmarshalErr (data : string) (err : error) : outcome string :=
  match as_UnmarshalTypeError err with
  | Some (msg, Offset) => formatUnmarshallErrorString data msg Offset
  | None =>
      match as_SyntaxError err with
      | Some (msg, Offset) => formatUnmarshallErrorString data msg Offset
      | None => Done (Error err)
      end
  end.
End declcfg.

(** ** A reference implementation of the imported packages

    [goref] implements [GoLib] with [float64 := Z].  It ports, function by
    function, the byte scanner of [encoding/json] ([scanner.go]), [Indent]
    ([indent.go]), the string codec of the decoder and the encoder, and it
    is exact on them.  Two parts cover a fragment only:

    - numbers: a [float64] that is an integer of magnitude at most 2^53 is
      its [Z]; the decoder reports any other literal (a fraction, an
      exponent, minus zero, a larger magnitude) as unsupported;
    - [cases.Fold] and [strconv.Quote] are exact on ASCII and leave the
      bytes from 0x80 on as they are.

    The general theorems below do not depend on it. *)

Definition byte_val (c : ascii) : Z := Z.of_N (N_of_ascii c).
Definition byte_of (z : Z) : ascii := ascii_of_N (Z.to_N (z mod 256)).
Definition DQ : ascii := "034"%char.
Definition BS : ascii := "\"%char.
Definition str (c : ascii) : string := String c EmptyString.

Definition hex_digit (z : Z) : ascii :=
  if z <? 10 then byte_of (48 + z) else byte_of (87 + z).

Definition is_byte (c d : ascii) : bool := Ascii.eqb c d.
Definition in_range (lo hi c : ascii) : bool :=
  (byte_val lo <=? byte_val c) && (byte_val c <=? byte_val hi).

Module cases.
(** Simple case folding of the ASCII letters. *)
Definition fold_byte (c : ascii) : ascii :=
  if in_range "A" "Z" c then byte_of (byte_val c + 32) else c.

Fixpoint Fold (s : string) : string :=
  match s with
  | EmptyString => EmptyString
  | String c s => String (fold_byte c) (Fold s)
  end.
End cases.

Module strconv.
(** [strconv.Quote] of one byte below 0x80, without the quotes. *)
Definition quote_ascii (quote c : ascii) : string :=
  if is_byte c quote || is_byte c BS then String BS (str c)
  else if in_range " " "~" c then str c
  else if is_byte c "007" then "\a"
  else if is_byte c "008" then "\b"
  else if is_byte c "012" then "\f"
  else if is_byte c "010" then "\n"
  else if is_byte c "013" then "\r"
  else if is_byte c "009" then "\t"
  else if is_byte c "011" then "\v"
  else "\x" +:+ str (hex_digit (byte_val c / 16))
            +:+ str (hex_digit (byte_val c mod 16)).

Fixpoint quote_body (s : string) : string :=
  match s with
  | EmptyString => EmptyString
  | String c s =>
      (if byte_val c <? 128 then quote_ascii DQ c else str c) +:+ quote_body s
  end.

Definition Quote (s : string) : string :=
  str DQ +:+ quote_body s +:+ str DQ.

(** [strconv.Quote(string(c))] without its quotes, for a byte [c]:
    [string(c)] is the UTF-8 encoding of the code point [c]. *)
Definition quote_rune_of_byte (c : ascii) : string :=
  let v := byte_val c in
  if v <? 128 then quote_ascii DQ c
  else if (161 <=? v) && negb (v =? 173)
  then String (byte_of (192 + v / 64)) (str (byte_of (128 + v mod 64)))
  else "\u00" +:+ str (hex_digit (v / 16)) +:+ str (hex_digit (v mod 16)).

(** Decimal digits of a natural number. *)
Definition Itoa (n : Z) : string := pretty n.
End strconv.

Module utf8.
Definition RuneError : Z := 65533.

Definition cont (c : ascii) : bool := in_range "128" "191" c.

(** [utf8.DecodeRune]: the rune and its width in bytes. *)
Definition DecodeRune (p : string) : Z * Z :=
  match p with
  | EmptyString => (RuneError, 0)
  | String p0 p =>
      let v0 := byte_val p0 in
      if v0 <? 128 then (v0, 1)
      else if in_range "194" "223" p0 then
        match p with
        | String p1 _ =>
            if cont p1 then ((v0 mod 32) * 64 + byte_val p1 mod 64, 2)
            else (RuneError, 1)
        | _ => (RuneError, 1)
        end
      else if in_range "224" "239" p0 then
        match p with
        | String p1 (String p2 _) =>
            let lo := if is_byte p0 "224" then 160 else 128 in
            let hi := if is_byte p0 "237" then 159 else 191 in
            if (lo <=? byte_val p1) && (byte_val p1 <=? hi) && cont p2
            then ((v0 mod 16) * 4096 + (byte_val p1 mod 64) * 64
                  + byte_val p2 mod 64, 3)
            else (RuneError, 1)
        | _ => (RuneError, 1)
        end
      else if in_range "240" "244" p0 then
        match p with
        | String p1 (String p2 (String p3 _)) =>
            let lo := if is_byte p0 "240" then 144 else 128 in
            let hi := if is_byte p0 "244" then 143 else 191 in
            if (lo <=? byte_val p1) && (byte_val p1 <=? hi) && cont p2 && cont p3
            then ((v0 mod 8) * 262144 + (byte_val p1 mod 64) * 4096
                  + (byte_val p2 mod 64) * 64 + byte_val p3 mod 64, 4)
            else (RuneError, 1)
        | _ => (RuneError, 1)
        end
      else (RuneError, 1)
  end.

(** [utf8.EncodeRune] (the bytes appended by [utf8.AppendRune]). *)
Definition EncodeRune (r : Z) : string :=
  if (0 <=? r) && (r <? 128) then str (byte_of r)
  else if (0 <=? r) && (r <? 2048) then
    String (byte_of (192 + r / 64)) (str (byte_of (128 + r mod 64)))
  else if (r <? 0) || (1114111 <? r) || ((55296 <=? r) && (r <=? 57343)) then
    String "239" (String "191" (str "189"))
  else if r <? 65536 then
    String (byte_of (224 + r / 4096))
      (String (byte_of (128 + (r / 64) mod 64)) (str (byte_of (128 + r mod 64))))
  else
    String (byte_of (240 + r / 262144))
      (String (byte_of (128 + (r / 4096) mod 64))
         (String (byte_of (128 + (r / 64) mod 64))
            (str (byte_of (128 + r mod 64))))).
End utf8.

(** [encoding/json/scanner.go]: the byte-at-a-time JSON syntax checker. *)
Module scanner.
Inductive opcode : Type :=
| scanContinue | scanBeginLiteral | scanBeginObject | scanObjectKey
| scanObjectValue | scanEndObject | scanBeginArray | scanArrayValue
| scanEndArray | scanSkipSpace | scanEnd | scanError.

Inductive parse_state : Type :=
| parseObjectKey | parseObjectValue | parseArrayValue.

(** The values of the field [step], one per state function. *)
Inductive state : Type :=
| StateBeginValueOrEmpty | StateBeginValue | StateBeginStringOrEmpty
| StateBeginString | StateEndValue | StateEndTop
| StateInString | StateInStringEsc | StateInStringEscU | StateInStringEscU1
| StateInStringEscU12 | StateInStringEscU123
| StateNeg | State1 | State0 | StateDot | StateDot0 | StateE | StateESign
| StateE0 | StateT | StateTr | StateTru | StateF | StateFa | StateFal
| StateFals | StateN | StateNu | StateNul | StateError.

(** [parseState] is a stack; its top, the last element in Go, is the head. *)
Record t : Type := mk {
  step : state;
  endTop : bool;
  parseState : list parse_state;
  err : option error;
  bytes : Z
}.

Definition opcode_eqb (a b : opcode) : bool :=
  match a, b with
  | scanContinue, scanContinue | scanBeginLiteral, scanBeginLiteral
  | scanBeginObject, scanBeginObject | scanObjectKey, scanObjectKey
  | scanObjectValue, scanObjectValue | scanEndObject, scanEndObject
  | scanBeginArray, scanBeginArray | scanArrayValue, scanArrayValue
  | scanEndArray, scanEndArray | scanSkipSpace, scanSkipSpace
  | scanEnd, scanEnd | scanError, scanError => true
  | _, _ => false
  end.

Definition maxNestingDepth : Z := 10000.

Definition set_step (st : state) (s : t) : t :=
  mk st (endTop s) (parseState s) (err s) (bytes s).
Definition set_parseState (ps : list parse_state) (s : t) : t :=
  mk (step s) (endTop s) ps (err s) (bytes s).
Definition set_top (p : parse_state) (s : t) : t :=
  set_parseState (p :: tail (parseState s)) s.
Definition incr_bytes (s : t) : t :=
  mk (step s) (endTop s) (parseState s) (err s) (bytes s + 1).

(** [newScanner] and [reset]. *)
Definition reset : t := mk StateBeginValue false [] None 0.

Definition quoteChar (c : ascii) : string :=
  if is_byte c "'" then "'\''"
  else if is_byte c DQ then String "'" (String DQ "'")
  else "'" +:+ strconv.quote_rune_of_byte c +:+ "'".

(** [s.error(c, context)] *)
Definition error_ (s : t) (c : ascii) (context : string) : t * opcode :=
  (mk StateError (endTop s) (parseState s)
      (Some (SyntaxError ("invalid character " +:+ quoteChar c +:+ " " +:+ context)
                         (bytes s)))
      (bytes s),
   scanError).

Definition pushParseState (s : t) (c : ascii) (newParseState : parse_state)
    (successState : opcode) : t * opcode :=
  let s := set_parseState (newParseState :: parseState s) s in
  if Z.of_nat (length (parseState s)) <=? maxNestingDepth then (s, successState)
  else error_ s c "exceeded max depth".

Definition popParseState (s : t) : t :=
  let ps := tail (parseState s) in
  match ps with
  | [] => mk StateEndTop true ps (err s) (bytes s)
  | _ => mk StateEndValue (endTop s) ps (err s) (bytes s)
  end.

Definition isSpace (c : ascii) : bool :=
  is_byte c " " || is_byte c "009" || is_byte c "013" || is_byte c "010".

Definition isDigit (c : ascii) : bool := in_range "0" "9" c.

Definition isHex (c : ascii) : bool :=
  in_range "0" "9" c || in_range "a" "f" c || in_range "A" "F" c.

Definition stateEndTop (s : t) (c : ascii) : t * opcode :=
  if negb (isSpace c) then ((error_ s c "after top-level value").1, scanEnd)
  else (s, scanEnd).

Definition stateEndValue (s : t) (c : ascii) : t * opcode :=
  match parseState s with
  | [] => stateEndTop (mk StateEndTop true [] (err s) (bytes s)) c
  | ps :: _ =>
      if isSpace c then (set_step StateEndValue s, scanSkipSpace)
      else
        match ps with
        | parseObjectKey =>
            if is_byte c ":" then
              (set_step StateBeginValue (set_top parseObjectValue s), scanObjectKey)
            else error_ s c "after object key"
        | parseObjectValue =>
            if is_byte c "," then
              (set_step StateBeginString (set_top parseObjectKey s), scanObjectValue)
            else if is_byte c "}" then (popParseState s, scanEndObject)
            else error_ s c "after object key:value pair"
        | parseArrayValue =>
            if is_byte c "," then (set_step StateBeginValue s, scanArrayValue)
            else if is_byte c "]" then (popParseState s, scanEndArray)
            else error_ s c "after array element"
        end
  end.

Definition stateBeginValue (s : t) (c : ascii) : t * opcode :=
  if isSpace c then (s, scanSkipSpace)
  else if is_byte c "{" then
    pushParseState (set_step StateBeginStringOrEmpty s) c parseObjectKey scanBeginObject
  else if is_byte c "[" then
    pushParseState (set_step StateBeginValueOrEmpty s) c parseArrayValue scanBeginArray
  else if is_byte c DQ then (set_step StateInString s, scanBeginLiteral)
  else if is_byte c "-" then (set_step StateNeg s, scanBeginLiteral)
  else if is_byte c "0" then (set_step State0 s, scanBeginLiteral)
  else if is_byte c "t" then (set_step StateT s, scanBeginLiteral)
  else if is_byte c "f" then (set_step StateF s, scanBeginLiteral)
  else if is_byte c "n" then (set_step StateN s, scanBeginLiteral)
  else if in_range "1" "9" c then (set_step State1 s, scanBeginLiteral)
  else error_ s c "looking for beginning of value".

Definition stateBeginValueOrEmpty (s : t) (c : ascii) : t * opcode :=
  if isSpace c then (s, scanSkipSpace)
  else if is_byte c "]" then stateEndValue s c
  else stateBeginValue s c.

Definition stateBeginString (s : t) (c : ascii) : t * opcode :=
  if isSpace c then (s, scanSkipSpace)
  else if is_byte c DQ then (set_step StateInString s, scanBeginLiteral)
  else error_ s c "looking for beginning of object key string".

Definition stateBeginStringOrEmpty (s : t) (c : ascii) : t * opcode :=
  if isSpace c then (s, scanSkipSpace)
  else if is_byte c "}" then stateEndValue (set_top parseObjectValue s) c
  else stateBeginString s c.

Definition stateInString (s : t) (c : ascii) : t * opcode :=
  if is_byte c DQ then (set_step StateEndValue s, scanContinue)
  else if is_byte c BS then (set_step StateInStringEsc s, scanContinue)
  else if byte_val c <? 32 then error_ s c "in string literal"
  else (s, scanContinue).

Definition stateInStringEsc (s : t) (c : ascii) : t * opcode :=
  if is_byte c "b" || is_byte c "f" || is_byte c "n" || is_byte c "r"
     || is_byte c "t" || is_byte c BS || is_byte c "/" || is_byte c DQ
  then (set_step StateInString s, scanContinue)
  else if is_byte c "u" then (set_step StateInStringEscU s, scanContinue)
  else error_ s c "in string escape code".

(** [stateInStringEscU], [..U1], [..U12] and [..U123] differ in the state
    that follows. *)
Definition stateInStringEscHex (next : state) (s : t) (c : ascii) : t * opcode :=
  if isHex c then (set_step next s, scanContinue)
  else error_ s c "in \u hexadecimal character escape".

Definition state0 (s : t) (c : ascii) : t * opcode :=
  if is_byte c "." then (set_step StateDot s, scanContinue)
  else if is_byte c "e" || is_byte c "E" then (set_step StateE s, scanContinue)
  else stateEndValue s c.

Definition state1 (s : t) (c : ascii) : t * opcode :=
  if isDigit c then (set_step State1 s, scanContinue)
  else state0 s c.

Definition stateNeg (s : t) (c : ascii) : t * opcode :=
  if is_byte c "0" then (set_step State0 s, scanContinue)
  else if in_range "1" "9" c then (set_step State1 s, scanContinue)
  else error_ s c "in numeric literal".

Definition stateDot (s : t) (c : ascii) : t * opcode :=
  if isDigit c then (set_step StateDot0 s, scanContinue)
  else error_ s c "after decimal point in numeric literal".

Definition stateDot0 (s : t) (c : ascii) : t * opcode :=
  if isDigit c then (s, scanContinue)
  else if is_byte c "e" || is_byte c "E" then (set_step StateE s, scanContinue)
  else stateEndValue s c.

Definition stateESign (s : t) (c : ascii) : t * opcode :=
  if isDigit c then (set_step StateE0 s, scanContinue)
  else error_ s c "in exponent of numeric literal".

Definition stateE (s : t) (c : ascii) : t * opcode :=
  if is_byte c "+" || is_byte c "-" then (set_step StateESign s, scanContinue)
  else stateESign s c.

Definition stateE0 (s : t) (c : ascii) : t * opcode :=
  if isDigit c then (s, scanContinue)
  else stateEndValue s c.

(** The states inside [true], [false] and [null]: one expected byte. *)
Definition stateLetter (want : ascii) (next : state) (context : string)
    (s : t) (c : ascii) : t * opcode :=
  if is_byte c want then (set_step next s, scanContinue)
  else error_ s c context.

(** [s.step(s, c)] *)
Definition step_fn (s : t) (c : ascii) : t * opcode :=
  match step s with
  | StateBeginValueOrEmpty => stateBeginValueOrEmpty s c
  | StateBeginValue => stateBeginValue s c
  | StateBeginStringOrEmpty => stateBeginStringOrEmpty s c
  | StateBeginString => stateBeginString s c
  | StateEndValue => stateEndValue s c
  | StateEndTop => stateEndTop s c
  | StateInString => stateInString s c
  | StateInStringEsc => stateInStringEsc s c
  | StateInStringEscU => stateInStringEscHex StateInStringEscU1 s c
  | StateInStringEscU1 => stateInStringEscHex StateInStringEscU12 s c
  | StateInStringEscU12 => stateInStringEscHex StateInStringEscU123 s c
  | StateInStringEscU123 => stateInStringEscHex StateInString s c
  | StateNeg => stateNeg s c
  | State1 => state1 s c
  | State0 => state0 s c
  | StateDot => stateDot s c
  | StateDot0 => stateDot0 s c
  | StateE => stateE s c
  | StateESign => stateESign s c
  | StateE0 => stateE0 s c
  | StateT => stateLetter "r" StateTr "in literal true (expecting 'r')" s c
  | StateTr => stateLetter "u" StateTru "in literal true (expecting 'u')" s c
  | StateTru => stateLetter "e" StateEndValue "in literal true (expecting 'e')" s c
  | StateF => stateLetter "a" StateFa "in literal false (expecting 'a')" s c
  | StateFa => stateLetter "l" StateFal "in literal false (expecting 'l')" s c
  | StateFal => stateLetter "s" StateFals "in literal false (expecting 's')" s c
  | StateFals => stateLetter "e" StateEndValue "in literal false (expecting 'e')" s c
  | StateN => stateLetter "u" StateNu "in literal null (expecting 'u')" s c
  | StateNu => stateLetter "l" StateNul "in literal null (expecting 'l')" s c
  | StateNul => stateLetter "l" StateEndValue "in literal null (expecting 'l')" s c
  | StateError => (s, scanError)
  end.

(** [s.eof()] *)
Definition eof (s : t) : t * opcode :=
  match err s with
  | Some _ => (s, scanError)
  | None =>
      if endTop s then (s, scanEnd)
      else
        let s := (step_fn s " ").1 in
        if endTop s then (s, scanEnd)
        else
          match err s with
          | Some _ => (s, scanError)
          | None =>
              (mk (step s) (endTop s) (parseState s)
                  (Some (SyntaxError "unexpected end of JSON input" (bytes s)))
                  (bytes s),
               scanError)
          end
  end.

(** [checkValid(data, scan)]: the loop over [data], then [eof]. *)
Fixpoint checkValid_loop (data : string) (scan : t) : option error :=
  match data with
  | EmptyString =>
      let '(scan, op) := eof scan in
      if opcode_eqb op scanError then err scan else None
  | String c data =>
      let '(scan, op) := step_fn (incr_bytes scan) c in
      if opcode_eqb op scanError then err scan
      else checkValid_loop data scan
  end.

Definition checkValid (data : string) : option error :=
  checkValid_loop data reset.

(** What the state functions maintain: a scanner in the state
    [stateError] holds an error. *)
Definition inv (s : t) : Prop := step s = StateError → is_Some (err s).
End scanner.

Module json.
Import scanner.

(** *** [indent.go] *)

Fixpoint repeat_string (n : nat) (s : string) : string :=
  match n with
  | O => EmptyString
  | S n => s +:+ repeat_string n s
  end.

(** [appendNewline(dst, prefix, indent, depth)] *)
Definition appendNewline (dst prefix indent : string) (depth : Z) : string :=
  dst +:+ str LF +:+ prefix +:+ repeat_string (Z.to_nat depth) indent.

(** The loop of [appendIndent] over the bytes [src] still to read: the
    scanner and [dst] when it ends, at the end of [src] or at [break]. *)
Fixpoint indent_loop (src : string) (scan : scanner.t) (needIndent : bool)
    (depth : Z) (dst prefix indent : string) : scanner.t * string :=
  match src with
  | EmptyString => (scan, dst)
  | String c src =>
      let '(scan, v) := step_fn (incr_bytes scan) c in
      if opcode_eqb v scanSkipSpace then
        indent_loop src scan needIndent depth dst prefix indent
      else if opcode_eqb v scanError then (scan, dst)
      else
        let '(needIndent, depth, dst) :=
          if needIndent && negb (opcode_eqb v scanEndObject)
             && negb (opcode_eqb v scanEndArray)
          then (false, depth + 1, appendNewline dst prefix indent (depth + 1))
          else (needIndent, depth, dst) in
        if opcode_eqb v scanContinue then
          indent_loop src scan needIndent depth (dst +:+ str c) prefix indent
        else if is_byte c "{" || is_byte c "[" then
          indent_loop src scan true depth (dst +:+ str c) prefix indent
        else if is_byte c "," then
          indent_loop src scan needIndent depth
            (appendNewline (dst +:+ str c) prefix indent depth) prefix indent
        else if is_byte c ":" then
          indent_loop src scan needIndent depth (dst +:+ str c +:+ " ")
            prefix indent
        else if is_byte c "}" || is_byte c "]" then
          if needIndent then
            indent_loop src scan false depth (dst +:+ str c) prefix indent
          else
            indent_loop src scan needIndent (depth - 1)
              (appendNewline dst prefix indent (depth - 1) +:+ str c)
              prefix indent
        else
          indent_loop src scan needIndent depth (dst +:+ str c) prefix indent
  end.

(** [json.Indent(&dst, src, prefix, indent)] for an empty [dst]. *)
Definition Indent (src prefix indent : string) : string + error :=
  let '(scan, dst) := indent_loop src reset false 0 EmptyString prefix indent in
  let '(scan, op) := eof scan in
  if opcode_eqb op scanError then
    match err scan with
    | Some e => inr e
    | None => inr (ErrorString EmptyString)     (* [eof] always sets [err] *)
    end
  else inl dst.

(** [json.Valid] *)
Definition Valid (data : string) : bool :=
  match checkValid data with None => true | Some _ => false end.
End json.

(** Literals for documents: in [lit s] a single quote of [s] stands for a
    double quote, and a backslash before [n], [t], a quote or a backslash
    for the line feed, the tab, the single quote and the backslash. *)
Fixpoint lit (s : string) : string :=
  match s with
  | EmptyString => EmptyString
  | String c s' =>
      if is_byte c BS then
        match s' with
        | String d s'' =>
            String (if is_byte d "n" then LF
                    else if is_byte d "t" then "009"%char else d)
                   (lit s'')
        | EmptyString => str c
        end
      else String (if is_byte c "'" then DQ else c) (lit s')
  end.

Module utf16.
Definition IsSurrogate (r : Z) : bool := (55296 <=? r) && (r <? 57344).

Definition DecodeRune (r1 r2 : Z) : Z :=
  if (55296 <=? r1) && (r1 <? 56320) && (56320 <=? r2) && (r2 <? 57344)
  then (r1 - 55296) * 1024 + (r2 - 56320) + 65536
  else utf8.RuneError.
End utf16.

(** [encoding/json/decode.go], for a target of type
    [map[string]interface{}]. *)
Module decode.
Import scanner.

Fixpoint skip_space (s : string) : string :=
  match s with
  | String c s' => if isSpace c then skip_space s' else s
  | EmptyString => s
  end.

Definition hex_val (c : ascii) : Z :=
  if in_range "0" "9" c then byte_val c - 48
  else if in_range "a" "f" c then byte_val c - 87
  else if in_range "A" "F" c then byte_val c - 55
  else -1.

(** [getu4(s)]: the code unit of a leading backslash-u escape, or [-1]. *)
Definition getu4 (s : string) : Z :=
  match s with
  | String b (String u (String h1 (String h2 (String h3 (String h4 _))))) =>
      if is_byte b BS && is_byte u "u" && isHex h1 && isHex h2 && isHex h3
         && isHex h4
      then ((hex_val h1 * 16 + hex_val h2) * 16 + hex_val h3) * 16 + hex_val h4
      else -1
  | _ => -1
  end.

Definition cons_bytes (p : string) (r : option (string * string))
  : option (string * string) :=
  match r with
  | Some (t, rest) => Some (p +:+ t, rest)
  | None => None
  end.

(** [unquoteBytes], reading from the byte after the opening quote: the
    decoded string and what follows the closing quote. *)
Fixpoint unquote (fuel : nat) (s : string) : option (string * string) :=
  match fuel with
  | O => None
  | S fuel =>
      match s with
      | EmptyString => None
      | String c s' =>
          if is_byte c DQ then Some (EmptyString, s')
          else if is_byte c BS then
            match s' with
            | EmptyString => None
            | String e s'' =>
                if is_byte e DQ || is_byte e BS || is_byte e "/" || is_byte e "'"
                then cons_bytes (str e) (unquote fuel s'')
                else if is_byte e "b" then cons_bytes (str "008") (unquote fuel s'')
                else if is_byte e "f" then cons_bytes (str "012") (unquote fuel s'')
                else if is_byte e "n" then cons_bytes (str "010") (unquote fuel s'')
                else if is_byte e "r" then cons_bytes (str "013") (unquote fuel s'')
                else if is_byte e "t" then cons_bytes (str "009") (unquote fuel s'')
                else if is_byte e "u" then
                  let rr := getu4 s in
                  if rr <? 0 then None
                  else
                    let s6 := drop_bytes 6 s in
                    if utf16.IsSurrogate rr then
                      let dec := utf16.DecodeRune rr (getu4 s6) in
                      if negb (dec =? utf8.RuneError) then
                        cons_bytes (utf8.EncodeRune dec)
                                   (unquote fuel (drop_bytes 6 s6))
                      else
                        cons_bytes (utf8.EncodeRune utf8.RuneError)
                                   (unquote fuel s6)
                    else cons_bytes (utf8.EncodeRune rr) (unquote fuel s6)
                else None
            end
          else if byte_val c <? 32 then None
          else if byte_val c <? 128 then cons_bytes (str c) (unquote fuel s')
          else
            let '(rr, size) := utf8.DecodeRune s in
            cons_bytes (utf8.EncodeRune rr)
                       (unquote fuel (drop_bytes (Z.to_nat size) s))
      end
  end.

(** The bytes of a number literal and what follows it. *)
Fixpoint number_extent (s : string) : string * string :=
  match s with
  | String c s' =>
      if isDigit c || is_byte c "-" || is_byte c "+" || is_byte c "."
         || is_byte c "e" || is_byte c "E"
      then let '(n, rest) := number_extent s' in (String c n, rest)
      else (EmptyString, s)
  | EmptyString => (EmptyString, s)
  end.

Fixpoint digits_val (acc : Z) (s : string) : option Z :=
  match s with
  | EmptyString => Some acc
  | String c s' =>
      if isDigit c then digits_val (acc * 10 + (byte_val c - 48)) s' else None
  end.

Definition unsupported (what : string) : error :=
  ErrorString ("goref: unsupported " +:+ what).

(** [convertNumber] on the fragment: the [float64] of an integer literal
    of magnitude at most 2^53, other than minus zero. *)
Definition convertNumber (s : string) : error + Z :=
  let '(neg, ds) :=
    match s with
    | String c s' => if is_byte c "-" then (true, s') else (false, s)
    | EmptyString => (false, s)
    end in
  match digits_val 0 ds with
  | Some n =>
      if (neg && (n =? 0)) || (9007199254740992 <? n)
      then inl (unsupported ("number " +:+ s))
      else inr (if neg then - n else n)
  | None => inl (unsupported ("number " +:+ s))
  end.

Definition expect (word : string) (s : string) : option string :=
  if String.prefix word s then Some (drop_bytes (String.length word) s) else None.

Definition invalid : error := ErrorString "goref: not reached on valid JSON".

(** [valueInterface], [arrayInterface] and [objectInterface]: the value at
    the head of [s] and what follows it.  [array_rest] and [object_rest]
    start after an opening bracket or a comma. *)
Fixpoint valueInterface (fuel : nat) (s : string)
  : error + (value Z * string) :=
  match fuel with
  | O => inl invalid
  | S fuel =>
      match skip_space s with
      | EmptyString => inl invalid
      | String c s' =>
          if is_byte c "{" then
            match skip_space s' with
            | String c' s'' =>
                if is_byte c' "}" then inr (VMap ∅, s'')
                else
                  match object_rest fuel ∅ s' with
                  | inr (m, rest) => inr (VMap m, rest)
                  | inl e => inl e
                  end
            | EmptyString => inl invalid
            end
          else if is_byte c "[" then
            match skip_space s' with
            | String c' s'' =>
                if is_byte c' "]" then inr (VSlice [], s'')
                else
                  match array_rest fuel [] s' with
                  | inr (l, rest) => inr (VSlice l, rest)
                  | inl e => inl e
                  end
            | EmptyString => inl invalid
            end
          else if is_byte c DQ then
            match unquote (S (String.length s')) s' with
            | Some (t, rest) => inr (VString t, rest)
            | None => inl invalid
            end
          else if is_byte c "n" then
            match expect "ull" s' with
            | Some rest => inr (VNil, rest)
            | None => inl invalid
            end
          else if is_byte c "t" then
            match expect "rue" s' with
            | Some rest => inr (VBool true, rest)
            | None => inl invalid
            end
          else if is_byte c "f" then
            match expect "alse" s' with
            | Some rest => inr (VBool false, rest)
            | None => inl invalid
            end
          else
            let '(n, rest) := number_extent (String c s') in
            match convertNumber n with
            | inr z => inr (VFloat z, rest)
            | inl e => inl e
            end
      end
  end
with array_rest (fuel : nat) (acc : list (value Z)) (s : string)
  : error + (list (value Z) * string) :=
  match fuel with
  | O => inl invalid
  | S fuel =>
      match valueInterface fuel s with
      | inl e => inl e
      | inr (v, rest) =>
          match skip_space rest with
          | String c rest' =>
              if is_byte c "," then array_rest fuel (acc ++ [v])%list rest'
              else if is_byte c "]" then inr ((acc ++ [v])%list, rest')
              else inl invalid
          | EmptyString => inl invalid
          end
      end
  end
with object_rest (fuel : nat) (m : gmap string (value Z)) (s : string)
  : error + (gmap string (value Z) * string) :=
  match fuel with
  | O => inl invalid
  | S fuel =>
      match skip_space s with
      | String c s' =>
          if is_byte c DQ then
            match unquote (S (String.length s')) s' with
            | None => inl invalid
            | Some (key, rest) =>
                match skip_space rest with
                | String c' rest' =>
                    if is_byte c' ":" then
                      match valueInterface fuel rest' with
                      | inl e => inl e
                      | inr (v, rest) =>
                          match skip_space rest with
                          | String c'' rest' =>
                              if is_byte c'' "," then
                                object_rest fuel (<[key := v]> m) rest'
                              else if is_byte c'' "}" then
                                inr (<[key := v]> m, rest')
                              else inl invalid
                          | EmptyString => inl invalid
                          end
                      end
                    else inl invalid
                | EmptyString => inl invalid
                end
            end
          else inl invalid
      | EmptyString => inl invalid
      end
  end.

Definition map_type : string := "map[string]interface {}".

(** [json.Unmarshal(data, &m)] for [m] of type [map[string]interface{}]:
    [checkValid], then [d.value].  An object is stored key by key into
    [m] (a map is made first if [m] is nil), [null] sets [m] to nil, and
    any other value is an [UnmarshalTypeError] that leaves [m] alone. *)
Definition Unmarshal (data : string) (m : gomap Z) : gomap Z * option error :=
  match checkValid data with
  | Some err => (m, Some err)
  | None =>
      let s := skip_space data in
      let off := len data - len s + 1 in      (* after [scanWhile(scanSkipSpace)] *)
      match s with
      | EmptyString => (m, Some invalid)
      | String c s' =>
          if is_byte c "{" then
            match skip_space s' with
            | String c' _ =>
                if is_byte c' "}" then (Some (entries m), None)
                else
                  match object_rest (S (String.length s')) (entries m) s' with
                  | inr (m', _) => (Some m', None)
                  | inl e => (m, Some e)
                  end
            | EmptyString => (m, Some invalid)
            end
          else if is_byte c "[" then
            (m, Some (UnmarshalTypeError "array" map_type "" "" off))
          else if is_byte c "n" then (None, None)
          else
            let rest :=
              if is_byte c DQ then
                match unquote (S (String.length s')) s' with
                | Some (_, rest) => rest
                | None => EmptyString
                end
              else if is_byte c "t" then drop_bytes 3 s'
              else if is_byte c "f" then drop_bytes 4 s'
              else (number_extent s).2 in
            let Value :=
              if is_byte c DQ then "string"
              else if is_byte c "t" || is_byte c "f" then "bool"
              else "number" in
            (m, Some (UnmarshalTypeError Value map_type "" "" (len data - len rest)))
      end
  end.
End decode.

(** Key-value pairs in increasing order of their keys, as the encoder and
    [fmt] visit the entries of a map. *)
Definition key_le {A} (x y : string * A) : Prop := String.le x.1 y.1.

#[global] Instance key_le_dec {A} (x y : string * A) : Decision (key_le x y) :=
  decide (String.le x.1 y.1).

Definition sorted_entries {A} (m : gmap string A) : list (string * A) :=
  merge_sort key_le (map_to_list m).

(** [encoding/json/encode.go] *)
Module encode.
(** [safeSet[b]] and [htmlSafeSet[b]], for [b] below 0x80. *)
Definition safeSet (b : ascii) : bool :=
  (32 <=? byte_val b) && negb (is_byte b DQ) && negb (is_byte b BS).

Definition htmlSafeSet (b : ascii) : bool :=
  safeSet b && negb (is_byte b "<") && negb (is_byte b ">")
  && negb (is_byte b "&").

(** The loop of [appendString] over the bytes still to read. *)
Fixpoint appendString_loop (fuel : nat) (src : string) (escapeHTML : bool)
  : string :=
  match fuel, src with
  | S fuel, String b src' =>
      if byte_val b <? 128 then
        (if htmlSafeSet b || (negb escapeHTML && safeSet b) then str b
         else if is_byte b BS || is_byte b DQ then String BS (str b)
         else if is_byte b "008" then "\b"
         else if is_byte b "012" then "\f"
         else if is_byte b "010" then "\n"
         else if is_byte b "013" then "\r"
         else if is_byte b "009" then "\t"
         else "\u00" +:+ str (hex_digit (byte_val b / 16))
                     +:+ str (hex_digit (byte_val b mod 16)))
        +:+ appendString_loop fuel src' escapeHTML
      else
        let '(c, size) := utf8.DecodeRune src in
        if (c =? utf8.RuneError) && (size =? 1) then
          "\ufffd" +:+ appendString_loop fuel src' escapeHTML
        else if (c =? 8232) || (c =? 8233) then
          "\u202" +:+ str (hex_digit (c mod 16))
          +:+ appendString_loop fuel (drop_bytes (Z.to_nat size) src) escapeHTML
        else
          take_bytes (Z.to_nat size) src
          +:+ appendString_loop fuel (drop_bytes (Z.to_nat size) src) escapeHTML
  | _, _ => EmptyString
  end.

Definition appendString (src : string) (escapeHTML : bool) : string :=
  str DQ +:+ appendString_loop (String.length src) src escapeHTML +:+ str DQ.

(** The encoders of the dynamic values; map entries in key order. *)
Fixpoint encode_value (escapeHTML : bool) (v : value Z) : string :=
  match v with
  | VNil => "null"
  | VBool b => if b then "true" else "false"
  | VFloat f => strconv.Itoa f
  | VString s => appendString s escapeHTML
  | VSlice l => "[" +:+ join "," (map (encode_value escapeHTML) l) +:+ "]"
  | VMap m =>
      "{" +:+ join ","
                (map (λ kv, appendString kv.1 escapeHTML +:+ ":" +:+ kv.2)
                     (sorted_entries (encode_value escapeHTML <$> m)))
      +:+ "}"
  end.

(** [enc.SetEscapeHTML(escapeHTML); enc.Encode(m)] into an empty buffer:
    the encoding and a line feed. *)
Definition Encode (escapeHTML : bool) (m : gomap Z) : string + error :=
  inl (match m with
       | None => "null"
       | Some m => encode_value escapeHTML (VMap m)
       end +:+ str LF).
End encode.

(** [fmt]: the verbs [v] and [t] on the dynamic values. *)
Module fmt.
Fixpoint strip_zeros (rev_digits : string) : string :=
  match rev_digits with
  | String c s => if is_byte c "0" then strip_zeros s else rev_digits
  | EmptyString => rev_digits
  end.

(** [strconv.FormatFloat(f, 'g', -1, 64)] with the exponent threshold of
    the verb [v], for an integer [f]. *)
Definition fmt_g (f : Z) : string :=
  let digits := pretty (Z.abs f) in
  let exp := (String.length digits - 1)%nat in
  if (exp <? 6)%nat then pretty f
  else
    let mant := String.rev (strip_zeros (String.rev digits)) in
    (if f <? 0 then "-" else EmptyString)
    +:+ take_bytes 1 mant
    +:+ (if (1 <? String.length mant)%nat then "." +:+ drop_bytes 1 mant
         else EmptyString)
    +:+ "e+" +:+ (if (exp <? 10)%nat then "0" else EmptyString) +:+ pretty exp.

Fixpoint print_v (v : value Z) : string :=
  match v with
  | VNil => "<nil>"
  | VBool b => if b then "true" else "false"
  | VFloat f => fmt_g f
  | VString s => s
  | VSlice l => "[" +:+ join " " (map print_v l) +:+ "]"
  | VMap m =>
      "map[" +:+ join " " (map (λ kv, kv.1 +:+ ":" +:+ kv.2)
                               (sorted_entries (print_v <$> m)))
      +:+ "]"
  end.

(** The verb [t] inside a slice or a map: a bad verb except on a [bool];
    a nil element prints as for [v]. *)
Fixpoint print_t_elem (v : value Z) : string :=
  match v with
  | VNil => "<nil>"
  | VBool b => if b then "true" else "false"
  | VFloat f => "%!t(float64=" +:+ fmt_g f +:+ ")"
  | VString s => "%!t(string=" +:+ s +:+ ")"
  | VSlice l => "[" +:+ join " " (map print_t_elem l) +:+ "]"
  | VMap m =>
      "map[" +:+ join " " (map (λ kv, "%!t(string=" +:+ kv.1 +:+ "):" +:+ kv.2)
                               (sorted_entries (print_t_elem <$> m)))
      +:+ "]"
  end.

Definition print_t (v : value Z) : string :=
  match v with
  | VNil => "%!t(<nil>)"
  | _ => print_t_elem v
  end.
End fmt.

#[global] Instance goref : GoLib Z := {|
  Fold_String := cases.Fold;
  json_Unmarshal := decode.Unmarshal;
  json_Encode := encode.Encode;
  json_Indent := json.Indent;
  fmt_q := strconv.Quote;
  fmt_t := fmt.print_t;
  fmt_v := fmt.print_v
|}.

Definition zero_Meta : Meta := mkMeta EmptyString EmptyString EmptyString EmptyString.

(** A document with none of the four white space bytes of JSON. *)
Fixpoint no_space (s : string) : bool :=
  match s with
  | EmptyString => true
  | String c s => negb (scanner.isSpace c) && no_space s
  end.

(** The kind of the top-level value of a valid JSON document, read off
    its first byte after the leading white space, as the decoder does. *)
Inductive kind : Type := KObject | KArray | KString | KNumber | KBool | KNull.

Definition kind_of (data : string) : option kind :=
  match decode.skip_space data with
  | EmptyString => None
  | String c _ =>
      Some (if is_byte c "{" then KObject
            else if is_byte c "[" then KArray
            else if is_byte c DQ then KString
            else if is_byte c "n" then KNull
            else if is_byte c "t" || is_byte c "f" then KBool
            else KNumber)
  end.

(** The field [Value] of the [UnmarshalTypeError] for a kind. *)
Definition kind_name (k : kind) : string :=
  match k with
  | KObject => "object"
  | KArray => "array"
  | KString => "string"
  | KNumber => "number"
  | KBool => "bool"
  | KNull => "null"
  end.

(** A document without tabs and carriage returns: its white space is
    spaces and line feeds. *)
Fixpoint no_tab_cr (s : string) : bool :=
  match s with
  | EmptyString => true
  | String c s => negb (is_byte c "009") && negb (is_byte c "013") && no_tab_cr s
  end.

(** ** The canonical form, on the reference library *)

(** The scanner after it has read [data], unless a step reports an
    error. *)
Fixpoint scan_run (data : string) (scan : scanner.t) : option scanner.t :=
  match data with
  | EmptyString => Some scan
  | String c data =>
      let '(scan, op) := scanner.step_fn (scanner.incr_bytes scan) c in
      if scanner.opcode_eqb op scanner.scanError then None
      else scan_run data scan
  end.

(** The Unicode scalar values, and the strings that are sequences of
    their UTF-8 encodings. *)
Definition valid_rune (r : Z) : Prop :=
  0 ≤ r ≤ 1114111 ∧ ¬ (55296 ≤ r ≤ 57343).

Inductive utf8_valid : string → Prop :=
| utf8_valid_nil : utf8_valid EmptyString
| utf8_valid_rune (r : Z) (s : string) :
    valid_rune r → utf8_valid s → utf8_valid (utf8.EncodeRune r +:+ s).

(** A scanner in the state [st] with the stack [ps], inside the top-level
    value and without an error. *)
Definition scanning (σ : scanner.t) (st : scanner.state)
    (ps : list scanner.parse_state) : Prop :=
  scanner.step σ = st ∧ scanner.parseState σ = ps
  ∧ scanner.err σ = None ∧ scanner.endTop σ = false.

(** The bytes [appendString] writes, without HTML escaping, for a byte
    below 0x80 and for a scalar value. *)
Definition esc_byte (b : ascii) : string :=
  if encode.safeSet b then str b
  else if is_byte b BS || is_byte b DQ then String BS (str b)
  else if is_byte b "008" then "\b"
  else if is_byte b "012" then "\f"
  else if is_byte b "010" then "\n"
  else if is_byte b "013" then "\r"
  else if is_byte b "009" then "\t"
  else "\u00" +:+ str (hex_digit (byte_val b / 16))
              +:+ str (hex_digit (byte_val b mod 16)).

Definition esc_rune (r : Z) : string :=
  if r <? 128 then esc_byte (byte_of r)
  else if (r =? 8232) || (r =? 8233) then "\u202" +:+ str (hex_digit (r mod 16))
  else utf8.EncodeRune r.

(** What follows a value inside an array or an object. *)
Definition delimited (rest : string) : Prop :=
  ∃ c rest', rest = String c rest'
             ∧ (c = ","%char ∨ c = "]"%char ∨ c = "}"%char).

(** A scanner that has read a value: a number ends at the byte that
    follows it. *)
Definition value_ended (σ : scanner.t) (ps : list scanner.parse_state) : Prop :=
  scanner.parseState σ = ps ∧ scanner.err σ = None ∧ scanner.endTop σ = false
  ∧ (scanner.step σ = scanner.StateEndValue ∨ scanner.step σ = scanner.State0
     ∨ scanner.step σ = scanner.State1).

(** The scanner reads the encoding of [v] as a value, under the stack
    [ps]; the decoder reads it as [v]. *)
Definition accepted (ps : list scanner.parse_state) (v : value Z) : Prop :=
  ∀ (X : string) (σ : scanner.t),
    scanning σ scanner.StateBeginValue ps →
    ∃ σ', scan_run (encode.encode_value false v +:+ X) σ = scan_run X σ'
          ∧ value_ended σ' ps.

Definition parses (v : value Z) : Prop :=
  ∀ (fuel : nat) (rest : string),
    (String.length (encode.encode_value false v) ≤ fuel)%nat →
    delimited rest →
    decode.valueInterface fuel (encode.encode_value false v +:+ rest)
    = inr (v, rest).

Definition good (ps : list scanner.parse_state) (v : value Z) : Prop :=
  accepted ps v ∧ parses v.

(** The stack of the scanner may grow by one entry. *)
Definition push_ok_prop (ps : list scanner.parse_state) : Prop :=
  Z.of_nat (S (length ps)) ≤ scanner.maxNestingDepth.

(** The encoding of a member of an object, from its key and the encoding
    of its value. *)
Definition member (kv : string * string) : string :=
  encode.appendString kv.1 false +:+ ":" +:+ kv.2.

(** A scanner that has read the digits of an integer literal. *)
Definition in_number (σ : scanner.t) (ps : list scanner.parse_state) : Prop :=
  scanner.parseState σ = ps ∧ scanner.err σ = None ∧ scanner.endTop σ = false
  ∧ (scanner.step σ = scanner.State0 ∨ scanner.step σ = scanner.State1).

(** * Verification *)

Set Default Proof Using "Type".

(** ** Bytes *)

Lemma append_cons (c : ascii) (s t : string) :
  String c s +:+ t = String c (s +:+ t).
Proof. done. Qed.

Lemma append_nil_l (s : string) : EmptyString +:+ s = s.
Proof. done. Qed.

Lemma take_drop_bytes (n : nat) (s : string) :
  take_bytes n s +:+ drop_bytes n s = s.
Proof.
  revert s. induction n as [|n IH]; intros [|c s]; simpl; try done.
  by rewrite append_cons, IH.
Qed.

Lemma length_take_bytes (n : nat) (s : string) :
  (n ≤ String.length s)%nat → String.length (take_bytes n s) = n.
Proof.
  revert s. induction n as [|n IH]; intros [|c s]; simpl; try done; try lia.
  intros Hn. rewrite IH; lia.
Qed.

Lemma append_assoc (s t u : string) : (s +:+ t) +:+ u = s +:+ (t +:+ u).
Proof.
  induction s as [|c s IH]; [done|]. rewrite !append_cons; simpl. by rewrite IH.
Qed.

Lemma append_nil_r (s : string) : s +:+ EmptyString = s.
Proof.
  induction s as [|c s IH]; [done|]. rewrite !append_cons; simpl. by rewrite IH.
Qed.

Lemma length_append (s t : string) :
  String.length (s +:+ t) = (String.length s + String.length t)%nat.
Proof.
  induction s as [|c s IH]; [done|]. rewrite !append_cons; simpl. by rewrite IH.
Qed.

(** ** Iteration orders *)

Lemma fair_in_order : fair in_order.
Proof. by intros A l. Qed.

Lemma fair_in_reverse : fair in_reverse.
Proof. intros A l. apply reverse_Permutation. Qed.

Section orders.
Context (ρ : order) (Hfair : fair ρ).

Lemma fair_elem_of {A} (l : list A) (x : A) : x ∈ ρ A l ↔ x ∈ l.
Proof using Hfair. by rewrite (Hfair A l). Qed.

Lemma fair_nil {A} : ρ A [] = [].
Proof using Hfair. apply Permutation_nil_r, Hfair. Qed.

Lemma fair_singleton {A} (x : A) : ρ A [x] = [x].
Proof using Hfair. apply Permutation_singleton_r, Hfair. Qed.

Lemma fair_NoDup_fst {A B} (l : list (A * B)) :
  NoDup l.*1 → NoDup (ρ _ l).*1.
Proof using Hfair. intros Hl. by rewrite (Hfair _ l). Qed.
End orders.

(** [sets.List] lists exactly the elements of the set, in increasing order. *)
Lemma sets_List_Permutation (s : gset string) : sets_List s ≡ₚ elements s.
Proof. apply merge_sort_Permutation. Qed.

Lemma elem_of_sets_List (s : gset string) (k : string) : k ∈ sets_List s ↔ k ∈ s.
Proof. by rewrite sets_List_Permutation, elem_of_elements. Qed.

Lemma NoDup_sets_List (s : gset string) : NoDup (sets_List s).
Proof. rewrite sets_List_Permutation. apply NoDup_elements. Qed.

Lemma Sorted_sets_List (s : gset string) : StronglySorted String.le (sets_List s).
Proof. apply (StronglySorted_merge_sort String.le). Qed.

(** ** The Meta record *)

Lemma load_store (p q : field_ptr) (v : string) (m : Meta) :
  load p (store q v m) = if decide (p = q) then v else load p m.
Proof. by destruct p, q. Qed.

Lemma Blob_store (p : field_ptr) (v : string) (m : Meta) :
  Blob (store p v m) = Blob m.
Proof. by destruct p. Qed.

Lemma Meta_eq (m m' : Meta) :
  (∀ p, load p m' = load p m) → Blob m' = Blob m → m' = m.
Proof.
  destruct m, m'; simpl. intros Hp ->.
  pose proof (Hp ptr_Schema). pose proof (Hp ptr_Package).
  pose proof (Hp ptr_Name). simpl in *. by subst.
Qed.

(** ** extractUniqueMetaKeys *)

Section extract.
Context {float64 : Type} `{!GoLib float64}.
Context (ρ : order) (Hfair : fair ρ).
Implicit Types (blobMap : gomap float64) (keySets : gmap string (gset string)).
Implicit Types (m : Meta) (key foldedKey : string).

(** *** The key sets *)

Lemma keySets_add_lookup keySets key foldedKey :
  keySets_add keySets key !! foldedKey =
  if decide (foldedKey = Fold_String key)
  then Some ({[key]} ∪ default ∅ (keySets !! foldedKey))
  else keySets !! foldedKey.
Proof.
  unfold keySets_add. case_decide as Hk.
  - subst. destruct (keySets !! Fold_String key) as [keys|] eqn:E.
    + by rewrite lookup_alter_eq, E.
    + by rewrite lookup_alter_eq, lookup_insert_eq.
  - destruct (keySets !! Fold_String key) as [keys|] eqn:E.
    + by rewrite lookup_alter_ne.
    + by rewrite lookup_alter_ne, lookup_insert_ne.
Qed.

Lemma bucket_of_snoc (l : list string) key foldedKey :
  bucket_of (l ++ [key]) foldedKey =
  bucket_of l foldedKey
  ∪ (if decide (foldedKey = Fold_String key) then {[key]} else ∅).
Proof.
  unfold bucket_of. rewrite filter_app, list_to_set_app_L, filter_cons, filter_nil.
  f_equal. repeat case_decide; try congruence.
  - by rewrite list_to_set_singleton_L.
  - done.
Qed.

Lemma foldl_keySets_add_lookup (l : list string) foldedKey :
  foldl keySets_add ∅ l !! foldedKey =
  if decide (bucket_of l foldedKey = ∅) then None
  else Some (bucket_of l foldedKey).
Proof.
  clear Hfair.
  induction l as [|key l IH] using rev_ind.
  - simpl. rewrite lookup_empty. rewrite decide_True; [done|].
    unfold bucket_of. by rewrite filter_nil.
  - rewrite foldl_snoc, keySets_add_lookup, IH, bucket_of_snoc.
    destruct (decide (foldedKey = Fold_String key)) as [->|Hne].
    + rewrite (decide_False (P := _ ∪ _ = ∅)) by set_solver.
      f_equal. destruct (decide (bucket_of l (Fold_String key) = ∅)) as [He|He];
        simpl; [rewrite He|]; set_solver.
    + by rewrite (right_id_L ∅ (∪)).
Qed.

Lemma bucket_of_range blobMap foldedKey :
  bucket_of (ρ _ (map_to_list (entries blobMap))).*1 foldedKey
  = bucket blobMap foldedKey.
Proof using Hfair.
  apply set_eq. intros key. unfold bucket_of, bucket.
  rewrite elem_of_list_to_set, list_elem_of_filter, elem_of_filter, elem_of_dom.
  rewrite list_elem_of_fmap. split.
  - intros [? [[k v] [-> Hkv]]]. split; [done|].
    apply (fair_elem_of ρ Hfair), elem_of_map_to_list in Hkv. by exists v.
  - intros [? [v Hv]]. split; [done|]. exists (key, v). split; [done|].
    by apply (fair_elem_of ρ Hfair), elem_of_map_to_list.
Qed.

(** After the first loop, [keySets] maps a folded key to its bucket, and
    has no entry for an empty bucket. *)
Lemma make_keySets_lookup blobMap foldedKey :
  make_keySets ρ blobMap !! foldedKey =
  if decide (bucket blobMap foldedKey = ∅) then None
  else Some (bucket blobMap foldedKey).
Proof using Hfair.
  unfold make_keySets.
  rewrite <- (foldl_fmap keySets_add ∅ _ fst), foldl_keySets_add_lookup.
  by rewrite bucket_of_range.
Qed.

Lemma make_keySets_Some blobMap foldedKey keys :
  make_keySets ρ blobMap !! foldedKey = Some keys ↔
  keys = bucket blobMap foldedKey ∧ keys ≠ ∅.
Proof using Hfair.
  rewrite make_keySets_lookup. case_decide as He; [|naive_solver].
  split; [done|]. intros [-> ?]. done.
Qed.

Lemma elem_of_bucket blobMap foldedKey key :
  key ∈ bucket blobMap foldedKey ↔
  key ∈ dom (entries blobMap) ∧ Fold_String key = foldedKey.
Proof. unfold bucket. rewrite elem_of_filter. naive_solver. Qed.

(** *** The duplicate-key errors *)

Lemma make_dupErrs_eq keySets :
  make_dupErrs ρ keySets =
  (λ kv, dupErr kv.1 kv.2)
    <$> filter (λ kv, size kv.2 ≠ 1%nat) (ρ _ (map_to_list keySets)).
Proof.
  unfold make_dupErrs. generalize (ρ _ (map_to_list keySets)). intros l.
  induction l as [|kv l IH] using rev_ind; [done|].
  rewrite foldl_snoc, filter_app, fmap_app, IH, filter_cons, filter_nil.
  case_decide; simpl; [done|by rewrite app_nil_r].
Qed.

Lemma size_bucket_ne_1 blobMap foldedKey :
  bucket blobMap foldedKey ≠ ∅ ∧ size (bucket blobMap foldedKey) ≠ 1%nat
  ↔ (2 ≤ size (bucket blobMap foldedKey))%nat.
Proof.
  rewrite <- (leibniz_equiv_iff (bucket _ _) ∅), <- size_non_empty_iff. lia.
Qed.

(** The errors collected by the second loop: one for each folded key
    whose bucket has two keys or more, each naming its whole bucket. *)
Lemma make_dupErrs_spec blobMap :
  ∃ foldedKeys : list string,
    NoDup foldedKeys
    ∧ (∀ foldedKey, foldedKey ∈ foldedKeys
                    ↔ (2 ≤ size (bucket blobMap foldedKey))%nat)
    ∧ make_dupErrs ρ (make_keySets ρ blobMap)
      = (λ foldedKey, dupErr foldedKey (bucket blobMap foldedKey)) <$> foldedKeys.
Proof using Hfair.
  set (keySets := make_keySets ρ blobMap).
  set (l := filter (λ kv : string * gset string, size kv.2 ≠ 1%nat)
                   (ρ _ (map_to_list keySets))).
  assert (Hl : ∀ foldedKey keys, (foldedKey, keys) ∈ l ↔
             keys = bucket blobMap foldedKey
             ∧ (2 ≤ size (bucket blobMap foldedKey))%nat).
  { intros foldedKey keys. unfold l.
    rewrite list_elem_of_filter, (fair_elem_of ρ Hfair), elem_of_map_to_list.
    unfold keySets. rewrite make_keySets_Some, <- size_bucket_ne_1. simpl.
    split; [intros (? & -> & ?)|intros (-> & ? & ?)]; done. }
  exists l.*1. split_and!.
  - eapply sublist_NoDup; [|apply fmap_sublist, sublist_filter].
    apply (fair_NoDup_fst ρ Hfair), NoDup_fst_map_to_list.
  - intros foldedKey. rewrite list_elem_of_fmap. split.
    + intros ([fk keys] & -> & Hin). by apply Hl in Hin as [_ ?].
    + intros Hsz. exists (foldedKey, bucket blobMap foldedKey).
      split; [done|]. by apply Hl.
  - rewrite make_dupErrs_eq. fold keySets. fold l.
    rewrite <- list_fmap_compose. apply list_fmap_ext.
    intros i [fk keys] Hi%list_elem_of_lookup_2. simpl.
    by apply Hl in Hi as [-> _].
Qed.

(** *** The loop over [metaMap] *)

Lemma assign_fields_spec blobMap keySets :
  (∀ foldedKey keys, keySets !! foldedKey = Some keys → keys ≠ ∅) →
  ∀ todo m, ∃ m' oe,
    assign_fields ρ blobMap keySets todo m = Done (m', oe)
    ∧ Blob m' = Blob m
    ∧ (∀ ptr, load ptr m' = load ptr m
              ∨ ∃ foldedKey key,
                  (foldedKey, ptr) ∈ todo
                  ∧ hit ρ blobMap keySets foldedKey key (VString (load ptr m')))
    ∧ match oe with
      | None =>
          ∀ foldedKey ptr key v,
            (foldedKey, ptr) ∈ todo → hit ρ blobMap keySets foldedKey key v →
            ∃ s, v = VString s ∧ (NoDup todo.*2 → load ptr m' = s)
      | Some e =>
          ∃ foldedKey ptr key v,
            (foldedKey, ptr) ∈ todo ∧ hit ρ blobMap keySets foldedKey key v
            ∧ (∀ s, v ≠ VString s) ∧ e = typeErr key v
      end.
Proof using Hfair.
  intros Hne todo. induction todo as [|[foldedKey ptr] todo IH]; intros m.
  { exists m, None. split_and!; [done|done|by left|].
    intros ???? []%elem_of_nil. }
  simpl. destruct (keySets !! foldedKey) as [keys|] eqn:Hks.
  2:{ destruct (IH m) as (m' & oe & -> & HB & Hf & Hoe).
      exists m', oe. split_and!; [done|done| |].
      - intros p. destruct (Hf p) as [?|(fk & key & ? & ?)]; [by left|].
        right. exists fk, key. split; [by right|done].
      - destruct oe as [e|].
        + destruct Hoe as (fk & p & key & v & ? & ? & ? & ?).
          exists fk, p, key, v. split_and!; try done. by right.
        + intros fk p key v [[= -> ->]|Hin]%elem_of_cons Hhit.
          * destruct Hhit as (? & ? & _). congruence.
          * destruct (Hoe fk p key v Hin Hhit) as (s & -> & Hs).
            exists s. split; [done|]. intros Hnd. apply Hs.
            by apply NoDup_cons in Hnd as [_ ?]. }
  destruct (ρ _ (elements keys)) as [|key ?] eqn:Hel.
  { exfalso. apply (Hne _ _ Hks). apply leibniz_equiv, elements_empty_iff.
    apply Permutation_nil_r. rewrite <- (Hfair _ (elements keys)). by rewrite Hel. }
  assert (Hhead : ∀ key' v', hit ρ blobMap keySets foldedKey key' v'
                             ↔ key' = key ∧ entries blobMap !! key = Some v').
  { intros key' v'. unfold hit. split.
    - intros (keys' & Hks' & Hh & ?). rewrite Hks in Hks'.
      injection Hks' as <-. rewrite Hel in Hh. by injection Hh as <-.
    - intros [-> ?]. exists keys. by rewrite Hel. }
  destruct (entries blobMap !! key) as [v|] eqn:Hv.
  2:{ destruct (IH m) as (m' & oe & -> & HB & Hf & Hoe).
      exists m', oe. split_and!; [done|done| |].
      - intros p. destruct (Hf p) as [?|(fk & key0 & ? & ?)]; [by left|].
        right. exists fk, key0. split; [by right|done].
      - destruct oe as [e|].
        + destruct Hoe as (fk & p & key0 & v & ? & ? & ? & ?).
          exists fk, p, key0, v. split_and!; try done. by right.
        + intros fk p key0 v [[= -> ->]|Hin]%elem_of_cons Hhit.
          * apply Hhead in Hhit as [_ ?]. congruence.
          * destruct (Hoe fk p key0 v Hin Hhit) as (s & -> & Hs).
            exists s. split; [done|]. intros Hnd. apply Hs.
            by apply NoDup_cons in Hnd as [_ ?]. }
  assert ((∃ s, v = VString s) ∨ (∀ s, v ≠ VString s)) as [[s ->]|Hns]
    by (destruct v; eauto).
  - destruct (IH (store ptr s m)) as (m' & oe & -> & HB & Hf & Hoe).
    exists m', oe. split_and!; [done|by rewrite HB, Blob_store| |].
    + intros p. destruct (Hf p) as [Hp|(fk & key0 & ? & ?)].
      * rewrite load_store in Hp. case_decide as Hpp; [subst p|by left].
        right. exists foldedKey, key. split; [by left|].
        apply Hhead. by rewrite Hp.
      * right. exists fk, key0. split; [by right|done].
    + destruct oe as [e|].
      * destruct Hoe as (fk & p & key0 & v & ? & ? & ? & ?).
        exists fk, p, key0, v. split_and!; try done. by right.
      * intros fk p key0 v [[= -> ->]|Hin]%elem_of_cons Hhit.
        -- apply Hhead in Hhit as [-> [= <-]]. exists s. split; [done|].
           intros [Hnotin _]%NoDup_cons.
           destruct (Hf ptr) as [Hp|(fk & key0 & Hin & _)].
           ++ by rewrite Hp, load_store, decide_True.
           ++ exfalso. apply Hnotin. apply list_elem_of_fmap.
              by exists (fk, ptr).
        -- destruct (Hoe fk p key0 v Hin Hhit) as (s' & -> & Hs).
           exists s'. split; [done|]. intros Hnd. apply Hs.
           by apply NoDup_cons in Hnd as [_ ?].
  - exists m, (Some (typeErr key v)).
    assert (assign_fields ρ blobMap keySets ((foldedKey, ptr) :: todo) m
            = Done (m, Some (typeErr key v))) as Heq.
    { simpl. rewrite Hks, Hel, Hv. destruct v; try done. by destruct (Hns s). }
    simpl in Heq. rewrite Hks, Hel, Hv in Heq.
    split_and!; [done|done|by left|].
    exists foldedKey, ptr, key, v. split_and!; [by left|by apply Hhead|done|done].
Qed.

(** *** The table of well-known fields *)

Lemma metaMap_lookup foldedKey ptr :
  metaMap !! foldedKey = Some ptr → foldedKey = Fold_String (field_name ptr).
Proof.
  unfold metaMap. rewrite !lookup_insert_Some, lookup_empty.
  intros [[<- <-]|[_ [[<- <-]|[_ [[<- <-]|[_ ?]]]]]]; done.
Qed.

Lemma metaMap_is_Some ptr : is_Some (metaMap !! Fold_String (field_name ptr)).
Proof.
  unfold metaMap. rewrite !lookup_insert_is_Some.
  destruct ptr; simpl;
    destruct (decide (Fold_String "name" = Fold_String "schema"));
    destruct (decide (Fold_String "name" = Fold_String "package"));
    destruct (decide (Fold_String "package" = Fold_String "schema"));
    naive_solver.
Qed.

Lemma NoDup_metaMap_ptrs : NoDup (ρ _ (map_to_list metaMap)).*2.
Proof using Hfair.
  rewrite (Hfair _ (map_to_list metaMap)).
  apply NoDup_fmap_2_strong; [|apply NoDup_map_to_list].
  intros [fk1 p1] [fk2 p2] H1%elem_of_map_to_list H2%elem_of_map_to_list.
  simpl. intros <-. f_equal.
  by rewrite (metaMap_lookup _ _ H1), (metaMap_lookup _ _ H2).
Qed.

Lemma elem_of_range_metaMap foldedKey ptr :
  (foldedKey, ptr) ∈ ρ _ (map_to_list metaMap) ↔ metaMap !! foldedKey = Some ptr.
Proof using Hfair. by rewrite (fair_elem_of ρ Hfair), elem_of_map_to_list. Qed.

(** *** Buckets and what the loop reads *)

Lemma size_ge_2_iff (X : gset string) :
  (2 ≤ size X)%nat ↔ ∃ x y, x ≠ y ∧ x ∈ X ∧ y ∈ X.
Proof.
  clear Hfair.
  split.
  - unfold size, set_size. simpl. intros Hsz.
    pose proof (NoDup_elements X) as Hnd.
    destruct (elements X) as [|x [|y l]] eqn:E; simpl in Hsz; try lia.
    exists x, y. rewrite <- !elem_of_elements, E.
    apply NoDup_cons in Hnd as [Hx _]. set_solver.
  - intros (x & y & Hne & Hx & Hy).
    assert (size ({[x]} ∪ {[y]} : gset string) = 2%nat) as <-.
    { rewrite size_union by set_solver. by rewrite !size_singleton. }
    apply subseteq_size. set_solver.
Qed.

Lemma bucket_singleton blobMap foldedKey key :
  unambiguous blobMap → key ∈ bucket blobMap foldedKey →
  bucket blobMap foldedKey = {[key]}.
Proof.
  clear Hfair.
  intros Hu Hkey. apply set_eq. intros key'. rewrite elem_of_singleton.
  split; [|by intros ->]. intros Hkey'.
  destruct (decide (key' = key)) as [|Hne]; [done|].
  pose proof (Hu foldedKey) as Hsz.
  assert (2 ≤ size (bucket blobMap foldedKey))%nat; [|lia].
  apply size_ge_2_iff. by exists key', key.
Qed.

Lemma hit_bucket blobMap foldedKey key v :
  hit ρ blobMap (make_keySets ρ blobMap) foldedKey key v →
  key ∈ bucket blobMap foldedKey ∧ entries blobMap !! key = Some v.
Proof using Hfair.
  intros (keys & [-> _]%make_keySets_Some & Hhead & Hv). split; [|done].
  apply head_Some_elem_of in Hhead.
  by apply (fair_elem_of ρ Hfair), elem_of_elements in Hhead.
Qed.

Lemma hit_singleton blobMap foldedKey key v :
  bucket blobMap foldedKey = {[key]} → entries blobMap !! key = Some v →
  hit ρ blobMap (make_keySets ρ blobMap) foldedKey key v.
Proof using Hfair.
  intros Hb Hv. exists {[key]}. split_and!; [|by rewrite elements_singleton, (fair_singleton ρ Hfair)|done].
  apply make_keySets_Some. rewrite Hb. split; [done|]. set_solver.
Qed.

Lemma hit_unambiguous blobMap foldedKey key v :
  unambiguous blobMap →
  hit ρ blobMap (make_keySets ρ blobMap) foldedKey key v
  ↔ bucket blobMap foldedKey = {[key]} ∧ entries blobMap !! key = Some v.
Proof using Hfair.
  intros Hu. split.
  - intros [??]%hit_bucket. split; [by apply bucket_singleton|done].
  - intros [??]. by apply hit_singleton.
Qed.

(** *** extractUniqueMetaKeys *)

Lemma unambiguous_or_not blobMap :
  unambiguous blobMap ∨ ∃ foldedKey, (2 ≤ size (bucket blobMap foldedKey))%nat.
Proof using Hfair.
  destruct (make_dupErrs_spec blobMap) as ([|fk fks] & _ & Hin & _).
  - left. intros fk. destruct (decide (size (bucket blobMap fk) ≤ 1)%nat); [done|].
    exfalso. apply (elem_of_nil fk), Hin. lia.
  - right. exists fk. apply Hin. by left.
Qed.

(** With an ambiguous folded key, the function returns the aggregate of
    the duplicate-key errors and leaves the Meta alone. *)
Lemma extract_ambiguous blobMap m :
  (∃ foldedKey, (2 ≤ size (bucket blobMap foldedKey))%nat) →
  ∃ foldedKeys : list string,
    extractUniqueMetaKeys ρ blobMap m
    = Done (m, Some (Aggregate
                       ((λ foldedKey, dupErr foldedKey (bucket blobMap foldedKey))
                          <$> foldedKeys)))
    ∧ foldedKeys ≠ [] ∧ NoDup foldedKeys
    ∧ (∀ foldedKey, foldedKey ∈ foldedKeys
                    ↔ (2 ≤ size (bucket blobMap foldedKey))%nat).
Proof using Hfair.
  intros [fk Hfk].
  destruct (make_dupErrs_spec blobMap) as (fks & Hnd & Hin & Heq).
  exists fks. unfold extractUniqueMetaKeys. rewrite Heq.
  apply Hin in Hfk. destruct fks as [|fk' fks]; [by apply elem_of_nil in Hfk|].
  split_and!; try done.
Qed.

Lemma extract_unambiguous blobMap m :
  unambiguous blobMap →
  extractUniqueMetaKeys ρ blobMap m
  = assign_fields ρ blobMap (make_keySets ρ blobMap) (ρ _ (map_to_list metaMap)) m.
Proof using Hfair.
  intros Hu. destruct (make_dupErrs_spec blobMap) as (fks & _ & Hin & Heq).
  unfold extractUniqueMetaKeys. rewrite Heq.
  destruct fks as [|fk fks]; [done|].
  pose proof (proj1 (Hin fk) ltac:(by left)). pose proof (Hu fk). lia.
Qed.

(** The function never panics, it never touches the Blob, and a field it
    has changed holds the string found under a key of its bucket.  It
    returns nil exactly on the unambiguous and well-typed maps, and then
    every matched field holds the value of its key. *)
Lemma extract_spec blobMap m :
  ∃ m' oe,
    extractUniqueMetaKeys ρ blobMap m = Done (m', oe)
    ∧ Blob m' = Blob m
    ∧ (∀ ptr, load ptr m' = load ptr m
              ∨ ∃ key, metaMap !! Fold_String key = Some ptr
                       ∧ entries blobMap !! key = Some (VString (load ptr m')))
    ∧ match oe with
      | None =>
          unambiguous blobMap ∧ well_typed blobMap
          ∧ ∀ ptr key v, metaMap !! Fold_String key = Some ptr →
                         entries blobMap !! key = Some v →
                         v = VString (load ptr m')
      | Some e =>
          (m' = m ∧ ∃ foldedKey, (2 ≤ size (bucket blobMap foldedKey))%nat)
          ∨ (unambiguous blobMap
             ∧ ∃ ptr key v, metaMap !! Fold_String key = Some ptr
                            ∧ entries blobMap !! key = Some v
                            ∧ (∀ s, v ≠ VString s) ∧ e = typeErr key v)
      end.
Proof using Hfair.
  destruct (unambiguous_or_not blobMap) as [Hu|Hamb].
  2:{ destruct (extract_ambiguous blobMap m Hamb) as (fks & -> & _).
      eexists m, (Some _). split_and!; [done|done|by left|by left]. }
  rewrite (extract_unambiguous _ _ Hu).
  destruct (assign_fields_spec blobMap (make_keySets ρ blobMap)
              ltac:(by intros ?? [_ ?]%make_keySets_Some)
              (ρ _ (map_to_list metaMap)) m)
    as (m' & oe & -> & HB & Hf & Hoe).
  exists m', oe. split_and!; [done|done| |].
  - intros ptr. destruct (Hf ptr) as [?|(fk & key & Hin & Hhit)]; [by left|].
    right. exists key. apply elem_of_range_metaMap in Hin.
    apply hit_bucket in Hhit as [[_ <-]%elem_of_bucket ?]. done.
  - destruct oe as [e|].
    + right. split; [done|].
      destruct Hoe as (fk & ptr & key & v & Hin & Hhit & Hns & ->).
      apply elem_of_range_metaMap in Hin.
      apply hit_bucket in Hhit as [[_ <-]%elem_of_bucket ?].
      by exists ptr, key, v.
    + split_and!; [done| |].
      * intros fk ptr key v Hfk Hb Hv.
        destruct (Hoe fk ptr key v) as (s & -> & _); [|by apply hit_singleton|by exists s].
        by apply elem_of_range_metaMap.
      * intros ptr key v Hfk Hv.
        destruct (Hoe (Fold_String key) ptr key v) as (s & -> & Hs).
        -- by apply elem_of_range_metaMap.
        -- apply hit_singleton; [|done]. apply bucket_singleton; [done|].
           apply elem_of_bucket. split; [|done]. by apply elem_of_dom_2 in Hv.
        -- by rewrite (Hs NoDup_metaMap_ptrs).
Qed.

(** On an unambiguous and well-typed map the function returns nil. *)
Lemma extract_ok blobMap m :
  unambiguous blobMap → well_typed blobMap →
  ∃ m', extractUniqueMetaKeys ρ blobMap m = Done (m', None).
Proof using Hfair.
  intros Hu Hwt. destruct (extract_spec blobMap m) as (m' & [e|] & Heq & _ & _ & Hoe);
    [|by exists m'].
  exfalso. destruct Hoe as [[_ [fk Hfk]]|[_ (ptr & key & v & Hfk & Hv & Hns & _)]].
  - pose proof (Hu fk). lia.
  - destruct (Hwt (Fold_String key) ptr key v) as [s ->]; [done| |done|by destruct (Hns s)].
    apply bucket_singleton; [done|]. apply elem_of_bucket.
    split; [|done]. by apply elem_of_dom_2 in Hv.
Qed.
End extract.

(** ** Meta.UnmarshalJSON *)

Section decode.
Context {float64 : Type} `{!GoLib float64}.
Context (ρ : order) (Hfair : fair ρ).
Implicit Types (blobMap : gomap float64) (m : Meta) (blob key : string).

Lemma UnmarshalJSON_parse_error m blob blobMap err :
  json_Unmarshal blob (Some ∅) = (blobMap, Some err) →
  UnmarshalJSON ρ m blob = Done (m, Some err).
Proof. unfold UnmarshalJSON. by intros ->. Qed.

Lemma UnmarshalJSON_parsed m blob blobMap m1 oe :
  json_Unmarshal blob (Some ∅) = (blobMap, None) →
  extractUniqueMetaKeys ρ blobMap m = Done (m1, oe) →
  UnmarshalJSON ρ m blob =
  match oe with
  | Some err => Done (m1, Some err)
  | None =>
      match json_Encode false blobMap with
      | inr err => Done (m1, Some err)
      | inl buf => Done (set_Blob buf m1, None)
      end
  end.
Proof. unfold UnmarshalJSON. intros -> ->. by destruct oe. Qed.

Lemma load_set_Blob ptr buf m : load ptr (set_Blob buf m) = load ptr m.
Proof. by destruct ptr. Qed.

Lemma unambiguous_iff blobMap :
  unambiguous blobMap ↔
  ∀ key1 key2, key1 ∈ dom (entries blobMap) → key2 ∈ dom (entries blobMap) →
               Fold_String key1 = Fold_String key2 → key1 = key2.
Proof.
  clear Hfair.
  split.
  - intros Hu key1 key2 H1 H2 Heq.
    assert (key1 ∈ bucket blobMap (Fold_String key2)) as Hb1
      by by apply elem_of_bucket.
    assert (key2 ∈ bucket blobMap (Fold_String key2)) as Hb2
      by by apply elem_of_bucket.
    rewrite (bucket_singleton _ _ _ Hu Hb2) in Hb1. set_solver.
  - intros Hinj fk.
    destruct (decide (size (bucket blobMap fk) ≤ 1)%nat) as [|Hsz]; [done|].
    assert (2 ≤ size (bucket blobMap fk))%nat as Hge by lia.
    apply size_ge_2_iff in Hge as (x & y & Hne & [??]%elem_of_bucket & [??]%elem_of_bucket).
    destruct Hne. apply Hinj; congruence.
Qed.


(** C4.  When no two keys of the decoded object fold to the same key and
    the key that folds to a well-known name maps to a value that is not a
    string, decode fails with the type-mismatch error of such a key: the
    message quotes the original key and renders its value. *)
Theorem non_string_field_rejected m blob blobMap :
  json_Unmarshal blob (Some ∅) = (blobMap, None) →
  (∀ key1 key2, key1 ∈ dom (entries blobMap) → key2 ∈ dom (entries blobMap) →
                Fold_String key1 = Fold_String key2 → key1 = key2) →
  (∃ name key v, name ∈ ["schema"; "package"; "name"]
                 ∧ Fold_String key = Fold_String name
                 ∧ entries blobMap !! key = Some v ∧ ∀ s, v ≠ VString s) →
  ∃ m' name key v,
    UnmarshalJSON ρ m blob
    = Done (m', Some (ErrorString
         ("expected value for key " +:+ fmt_q key +:+ " to be a string, got "
          +:+ fmt_t v +:+ ": " +:+ fmt_v v)))
    ∧ name ∈ ["schema"; "package"; "name"]
    ∧ Fold_String key = Fold_String name
    ∧ entries blobMap !! key = Some v ∧ ∀ s, v ≠ VString s.
Proof using Hfair.
  intros Hparse Hu%unambiguous_iff (name & key & v & Hname & Hfold & Hv & Hns).
  destruct (extract_spec ρ Hfair blobMap m) as (m' & oe & Hex & _ & _ & Hoe).
  rewrite (UnmarshalJSON_parsed _ _ _ _ _ Hparse Hex).
  destruct oe as [e|].
  - destruct Hoe as [[_ [fk Hfk]]|[_ (ptr & key' & v' & Hfk & Hv' & Hns' & ->)]].
    { pose proof (Hu fk). lia. }
    exists m', (field_name ptr), key', v'. split_and!; try done.
    + destruct ptr; set_solver.
    + by apply metaMap_lookup.
  - exfalso. destruct Hoe as (_ & _ & Hall).
    assert (∃ ptr, name = field_name ptr) as [ptr ->].
    { apply elem_of_cons in Hname as [->|Hname]; [by exists ptr_Schema|].
      apply elem_of_cons in Hname as [->|Hname]; [by exists ptr_Package|].
      apply list_elem_of_singleton in Hname as ->. by exists ptr_Name. }
    destruct (metaMap_is_Some ptr) as [ptr' Hptr'].
    rewrite <- Hfold in Hptr'.
    by destruct (Hns _ (Hall ptr' key v Hptr' Hv)).
Qed.


(** C9, as amended.  Decode never panics.  When it fails, the Blob is
    left as it was, and every identity field is either left as it was or
    holds the string found under a key of the decoded object that folds
    to the name of a well-known field; after a parse error or a
    duplicate-key ambiguity the whole Meta is left as it was. *)
Theorem failed_decode_effect m blob :
  ∃ m' oe,
    UnmarshalJSON ρ m blob = Done (m', oe)
    ∧ ∀ err, oe = Some err →
        Blob m' = Blob m
        ∧ (∀ ptr,
             load ptr m' = load ptr m
             ∨ ∃ key, metaMap !! Fold_String key = Some ptr
                      ∧ entries (json_Unmarshal blob (Some ∅)).1 !! key
                        = Some (VString (load ptr m')))
        ∧ ((json_Unmarshal blob (Some ∅)).2 ≠ None
           ∨ (∃ key1 key2, key1 ≠ key2
                ∧ key1 ∈ dom (entries (json_Unmarshal blob (Some ∅)).1)
                ∧ key2 ∈ dom (entries (json_Unmarshal blob (Some ∅)).1)
                ∧ Fold_String key1 = Fold_String key2)
           → m' = m).
Proof using Hfair.
  destruct (json_Unmarshal blob (Some ∅)) as [blobMap [uerr|]] eqn:Hparse.
  { exists m, (Some uerr). rewrite (UnmarshalJSON_parse_error _ _ _ _ Hparse).
    split; [done|]. intros _ _. split_and!; [done|by left|done]. }
  destruct (extract_spec ρ Hfair blobMap m) as (m1 & oe & Hex & HB & Hf & Hoe).
  rewrite (UnmarshalJSON_parsed _ _ _ _ _ Hparse Hex). simpl.
  assert (Hamb : (∃ key1 key2, key1 ≠ key2 ∧ key1 ∈ dom (entries blobMap)
                    ∧ key2 ∈ dom (entries blobMap)
                    ∧ Fold_String key1 = Fold_String key2) →
                 ¬ unambiguous blobMap).
  { intros (key1 & key2 & Hne & H1 & H2 & Heq) Hu. apply Hne.
    by apply (proj1 (unambiguous_iff blobMap) Hu). }
  destruct oe as [e|].
  - exists m1, (Some e). split; [done|]. intros _ _. split_and!; [done|done|].
    intros [?|Hdup]; [done|].
    destruct Hoe as [[-> _]|[Hu _]]; [done|]. by destruct (Hamb Hdup).
  - destruct Hoe as (Hu & _ & _).
    destruct (json_Encode false blobMap) as [buf|e] eqn:Henc.
    + exists (set_Blob buf m1), None. split; [done|]. intros err [=].
    + exists m1, (Some e). split; [done|]. intros _ _. split_and!; [done|done|].
      intros [?|Hdup]; [done|]. by destruct (Hamb Hdup).
Qed.
End decode.

(** C7.  Encode returns the stored Blob, unchanged, and a nil error. *)
Theorem MarshalJSON_returns_Blob (m : Meta) : MarshalJSON m = (Blob m, None).
Proof. reflexivity. Qed.

(** ** formatUnmarshallErrorString *)

Lemma len_nonneg (s : string) : 0 ≤ len s.
Proof. unfold len. lia. Qed.

Lemma len_cons (c : ascii) (s : string) : len (String c s) = len s + 1.
Proof. unfold len. simpl. lia. Qed.

Lemma len_append (s t : string) : len (s +:+ t) = len s + len t.
Proof. unfold len. rewrite length_append. lia. Qed.

Lemma len_take_bytes (n : nat) (s : string) :
  Z.of_nat n ≤ len s → len (take_bytes n s) = Z.of_nat n.
Proof. unfold len. intros Hn. rewrite length_take_bytes; lia. Qed.

Lemma visible_append (s t : string) : visible (s +:+ t) = visible s +:+ visible t.
Proof.
  induction s as [|c s IH]; [done|]. rewrite append_cons. simpl.
  destruct (counted c); [|done]. by rewrite append_cons, IH.
Qed.

Lemma len_visible_le (s : string) : len (visible s) ≤ len s.
Proof.
  induction s as [|c s IH]; simpl; [done|].
  destruct (counted c); rewrite ?len_cons; lia.
Qed.

(** The loop only looks at the distance from [origOffset] to [offset]. *)
Lemma translate_offset_shift (rest : string) (offset pOffset origOffset : Z) :
  translate_offset rest offset pOffset origOffset =
  n ← translate_offset rest (offset - origOffset) 0 0; Done (pOffset + n).
Proof.
  revert offset pOffset origOffset.
  induction rest as [|c rest IH]; intros offset pOffset origOffset; simpl.
  - destruct (origOffset <? offset) eqn:E1, (0 <? offset - origOffset) eqn:E2;
      try done; try lia. simpl. f_equal. lia.
  - destruct (origOffset <? offset) eqn:E1, (0 <? offset - origOffset) eqn:E2;
      try lia; [|simpl; f_equal; lia].
    rewrite IH, (IH _ 1). fold (counted c).
    replace (offset - origOffset - (if counted c then 0 + 1 else 0))
      with (offset - (if counted c then origOffset + 1 else origOffset))
      by (destruct (counted c); lia).
    destruct (translate_offset rest _ 0 0); simpl; [f_equal; lia|done].
Qed.

Lemma translate_offset_Done (pString : string) (offset : Z) :
  offset ≤ len (visible pString) →
  ∃ n : nat,
    translate_offset pString offset 0 0 = Done (Z.of_nat n)
    ∧ Z.of_nat n ≤ len pString
    ∧ visible (take_bytes n pString)
      = take_bytes (Z.to_nat offset) (visible pString).
Proof.
  revert offset. induction pString as [|c rest IH]; intros offset Hle; simpl in *.
  - change (len "") with 0 in Hle. destruct (0 <? offset) eqn:E; [lia|].
    exists 0%nat. split_and!; try done. by destruct (Z.to_nat offset).
  - destruct (0 <? offset) eqn:E.
    2:{ exists 0%nat. split_and!; [done|rewrite len_cons; pose proof (len_nonneg rest); lia|].
        replace (Z.to_nat offset) with 0%nat by lia. simpl. by destruct (counted c). }
    rewrite translate_offset_shift. fold (counted c).
    destruct (counted c) eqn:Hc.
    + rewrite len_cons in Hle.
      destruct (IH (offset - (0 + 1))) as (n & -> & Hn & Hvis); [lia|].
      exists (S n). simpl. rewrite Hc, len_cons. split_and!; [f_equal; lia|lia|].
      replace (Z.to_nat offset) with (S (Z.to_nat (offset - (0 + 1)))) by lia.
      simpl. by rewrite Hvis.
    + destruct (IH (offset - 0)) as (n & -> & Hn & Hvis); [lia|].
      exists (S n). simpl. rewrite Hc, len_cons. split_and!; [f_equal; lia|lia|].
      by replace (offset - 0) with offset in Hvis by lia.
Qed.

Lemma translate_offset_Panic (pString : string) (offset : Z) :
  len (visible pString) < offset → translate_offset pString offset 0 0 = Panic.
Proof.
  revert offset. induction pString as [|c rest IH]; intros offset Hlt; simpl in *.
  - change (len "") with 0 in Hlt. by destruct (0 <? offset) eqn:E; [|lia].
  - pose proof (len_nonneg (visible rest)).
    fold (counted c). destruct (counted c) eqn:Hc.
    + rewrite len_cons in Hlt. destruct (0 <? offset) eqn:E; [|lia].
      rewrite translate_offset_shift, IH by lia. done.
    + destruct (0 <? offset) eqn:E; [|lia].
      rewrite translate_offset_shift, IH by lia. done.
Qed.

Lemma write_prefix_spec (sb rest : string) (i offset : Z) :
  write_prefix sb rest i offset =
  if offset - i <=? len rest
  then Done (sb +:+ take_bytes (Z.to_nat (offset - i)) rest)
  else Panic.
Proof.
  revert sb i. induction rest as [|c rest IH]; intros sb i; simpl.
  - change (len "") with 0.
    destruct (i <? offset) eqn:E1, (offset - i <=? 0) eqn:E2; try lia; [done|].
    destruct (Z.to_nat (offset - i)); by rewrite append_nil_r.
  - rewrite len_cons, IH. pose proof (len_nonneg rest).
    destruct (i <? offset) eqn:E1.
    + replace (offset - (i + 1)) with (offset - i - 1) by lia.
      destruct (offset - i - 1 <=? len rest) eqn:E2,
               (offset - i <=? len rest + 1) eqn:E3; try lia; [|done].
      replace (Z.to_nat (offset - i)) with (S (Z.to_nat (offset - i - 1))) by lia.
      simpl. by rewrite append_assoc.
    + destruct (offset - i <=? len rest + 1) eqn:E3; [|lia].
      replace (Z.to_nat (offset - i)) with 0%nat by lia.
      simpl. by rewrite append_nil_r.
Qed.

Section format.
Context {float64 : Type} `{!GoLib float64}.

(** The formatter on a document that [json.Indent] accepts. *)
Lemma format_indented (data errmsg pString : string) (offset : Z) :
  json_Indent data "" "    " = inl pString →
  formatUnmarshallErrorString data errmsg offset =
  pOffset ← translate_offset pString offset 0 0;
  pre ← slice_to pString pOffset;
  suf ← slice_from pString pOffset;
  Done (header errmsg offset +:+ pre +:+ " <== " +:+ suf).
Proof. unfold formatUnmarshallErrorString. by intros ->. Qed.

(** The formatter on a document that [json.Indent] rejects: it returns
    for the offsets from 0 to the length of the document, and panics for
    the others. *)
Lemma format_fallback (data errmsg : string) (offset : Z) (e : error) :
  json_Indent data "" "    " = inr e →
  formatUnmarshallErrorString data errmsg offset =
  if (0 <=? offset) && (offset <=? len data)
  then Done (header errmsg offset +:+ take_bytes (Z.to_nat offset) data
             +:+ " <== " +:+ drop_bytes (Z.to_nat offset) data)
  else Panic.
Proof.
  unfold formatUnmarshallErrorString. intros ->.
  rewrite write_prefix_spec, Z.sub_0_r. unfold slice_from.
  destruct (offset <=? len data) eqn:E1, (0 <=? offset) eqn:E2; simpl; try done.
  by rewrite append_assoc.
Qed.

End format.

(** ** On the reference implementation *)

(** C10, as amended.  On a valid JSON document whose top-level value is
    an array, a string, a number or a boolean, decode fails with the type
    error of [json.Unmarshal] and leaves the Meta as it was.  On the
    document [null] decode succeeds: it leaves the identity fields as they
    were and sets the Blob to [null] and a line feed. *)
Theorem non_object_documents (ρ : order) (m : Meta) (blob : string) (k : kind) :
  fair ρ →
  json.Valid blob = true →
  kind_of blob = Some k →
  match k with
  | KObject => True
  | KNull =>
      UnmarshalJSON (GoLib0 := goref) ρ m blob
      = Done (set_Blob (lit "null\n") m, None)
  | _ =>
      ∃ Offset,
        UnmarshalJSON (GoLib0 := goref) ρ m blob
        = Done (m, Some (UnmarshalTypeError (kind_name k)
                           "map[string]interface {}" "" "" Offset))
  end.
Proof.
  intros Hfair Hvalid Hkind. unfold json.Valid in Hvalid.
  destruct (scanner.checkValid blob) as [|] eqn:Hcheck; [done|].
  unfold kind_of in Hkind.
  destruct (decode.skip_space blob) as [|c rest] eqn:Hskip; [done|].
  assert (@json_Unmarshal Z goref blob (Some ∅)
          = decode.Unmarshal blob (Some ∅)) as Hlib by done.
  unfold decode.Unmarshal in Hlib. rewrite Hcheck, Hskip in Hlib.
  destruct (is_byte c "{") eqn:E1; [by injection Hkind as <-|].
  destruct (is_byte c "[") eqn:E2.
  { injection Hkind as <-. eexists.
    by apply (UnmarshalJSON_parse_error (GoLib0 := goref)) with (blobMap := Some ∅). }
  destruct (is_byte c DQ) eqn:E3.
  { injection Hkind as <-. simpl in Hlib.
    destruct (is_byte c "n") eqn:E4.
    { apply Ascii.eqb_eq in E3, E4. unfold DQ in E3. congruence. }
    eexists. by apply (UnmarshalJSON_parse_error (GoLib0 := goref)) with (blobMap := Some ∅). }
  destruct (is_byte c "n") eqn:E4.
  { injection Hkind as <-.
    destruct (extract_spec (GoLib0 := goref) ρ Hfair None m)
      as (m' & oe & Hex & HB & Hf & Hoe).
    assert (m' = m) as ->.
    { apply Meta_eq; [|done]. intros ptr.
      by destruct (Hf ptr) as [?|(key & _ & Hkey)]. }
    rewrite (UnmarshalJSON_parsed (GoLib0 := goref) _ _ _ _ _ _ Hlib Hex).
    destruct oe as [e|]; [|done]. exfalso.
    destruct Hoe as [[_ [fk Hfk]]|[_ (ptr & key & v & _ & Hv & _)]]; [|done].
    assert (bucket (GoLib0 := goref) None fk = ∅) as Hb.
    { apply set_eq. intros x. rewrite elem_of_bucket. set_solver. }
    rewrite Hb, size_empty in Hfk. lia. }
  destruct (is_byte c "t" || is_byte c "f") eqn:E5.
  - injection Hkind as <-. simpl in Hlib.
    eexists. by apply (UnmarshalJSON_parse_error (GoLib0 := goref)) with (blobMap := Some ∅).
  - injection Hkind as <-. simpl in Hlib.
    eexists. by apply (UnmarshalJSON_parse_error (GoLib0 := goref)) with (blobMap := Some ∅).
Qed.

(** ** Concrete documents *)

(** C10, counterexample.  The document [null] is valid JSON and not an
    object, yet decode succeeds on it and sets the Blob. *)
Lemma null_is_accepted :
  json.Valid (lit "null") = true
  ∧ kind_of (lit "null") = Some KNull
  ∧ UnmarshalJSON (GoLib0 := goref) in_order zero_Meta (lit "null")
    = Done (mkMeta "" "" "" (lit "null\n"), None)
  ∧ ¬ ∃ err, UnmarshalJSON (GoLib0 := goref) in_order zero_Meta (lit "null")
             = Done (zero_Meta, Some err).
Proof.
  split_and!; try by vm_compute.
  intros [err Herr]. vm_compute in Herr. discriminate.
Qed.

Lemma non_object_documents_witness :
  fair in_order
  ∧ json.Valid (lit " [1,2]") = true
  ∧ kind_of (lit " [1,2]") = Some KArray
  ∧ ∃ Offset,
      UnmarshalJSON (GoLib0 := goref) in_order zero_Meta (lit " [1,2]")
      = Done (zero_Meta, Some (UnmarshalTypeError "array"
                                 "map[string]interface {}" "" "" Offset)).
Proof.
  split_and!; [apply fair_in_order|by vm_compute|by vm_compute|].
  apply (non_object_documents in_order zero_Meta (lit " [1,2]") KArray);
    [apply fair_in_order|by vm_compute|by vm_compute].
Defined.

(** C9, counterexample.  The object has a string under [schema] and a
    number under [name].  In the execution that visits [schema] first,
    decode fails on [name] after it has stored the Schema. *)
Lemma failed_decode_keeps_Schema :
  UnmarshalJSON (GoLib0 := goref) in_order zero_Meta
                (lit "{'name':5,'schema':'olm.bundle'}")
  = Done (mkMeta "olm.bundle" "" "" "",
          Some (ErrorString
                  (lit "expected value for key 'name' to be a string, got %!t(float64=5): 5")))
  ∧ mkMeta "olm.bundle" "" "" "" ≠ zero_Meta.
Proof. split; [by vm_compute|done]. Qed.

Lemma failed_decode_effect_witness :
  fair in_order
  ∧ ∃ m' oe,
      UnmarshalJSON (GoLib0 := goref) in_order zero_Meta
                    (lit "{'name':5,'schema':'olm.bundle'}") = Done (m', oe)
      ∧ ∀ err, oe = Some err → Blob m' = Blob zero_Meta.
Proof.
  split; [apply fair_in_order|].
  destruct (failed_decode_effect (GoLib0 := goref) in_order fair_in_order zero_Meta
              (lit "{'name':5,'schema':'olm.bundle'}")) as (m' & oe & Heq & Herr).
  exists m', oe. split; [exact Heq|].
  intros err Hoe. exact (proj1 (Herr err Hoe)).
Defined.


(** C4, on an object whose [name] is a number. *)
Lemma non_string_field_rejected_witness :
  fair in_order
  ∧ ∃ m' name key v,
      UnmarshalJSON (GoLib0 := goref) in_order zero_Meta (lit "{'Name':5}")
      = Done (m', Some (ErrorString
           ("expected value for key " +:+ strconv.Quote key
            +:+ " to be a string, got " +:+ fmt.print_t v +:+ ": "
            +:+ fmt.print_v v)))
      ∧ name ∈ ["schema"; "package"; "name"]
      ∧ cases.Fold key = cases.Fold name.
Proof.
  split; [apply fair_in_order|].
  destruct (non_string_field_rejected (GoLib0 := goref) in_order fair_in_order zero_Meta
              (lit "{'Name':5}") (Some (<["Name" := VFloat 5]> ∅)))
    as (m' & name & key & v & Heq & Hname & Hfold & _).
  - by vm_compute.
  - intros key1 key2 H1%elem_of_dom H2%elem_of_dom _. simpl in H1, H2.
    apply lookup_insert_is_Some in H1 as [<-|[_ H1]];
      [|by rewrite lookup_empty in H1; destruct H1].
    apply lookup_insert_is_Some in H2 as [<-|[_ H2]];
      [done|by rewrite lookup_empty in H2; destruct H2].
  - exists "name", "Name", (VFloat 5).
    split_and!; [set_solver|by vm_compute|by vm_compute|done].
  - exists m', name, key, v. split_and!; [exact Heq|exact Hname|exact Hfold].
Defined.


(** C2, the failing input.  The document is valid and compact, and one of
    its strings holds spaces.  Offset 17 is the end of that string in the
    document.  The walk counts neither these spaces nor the injected
    ones, so it stops three bytes of the document later, inside the next
    key, and the marker is shown there. *)
Theorem offset_translation_misplaced :
  json.Valid (lit "{'name':'a b c d','schema':1}") = true
  ∧ take_bytes 17 (lit "{'name':'a b c d','schema':1}") = lit "{'name':'a b c d'"
  ∧ json.Indent (lit "{'name':'a b c d','schema':1}") "" "    "
    = inl (lit "{\n    'name': 'a b c d',\n    'schema': 1\n}")
  ∧ translate_offset (lit "{\n    'name': 'a b c d',\n    'schema': 1\n}") 17 0 0
    = Done 31
  ∧ take_bytes 31 (lit "{\n    'name': 'a b c d',\n    'schema': 1\n}")
    = lit "{\n    'name': 'a b c d',\n    's"
  ∧ formatUnmarshallErrorString (GoLib0 := goref)
      (lit "{'name':'a b c d','schema':1}") "boom" 17
    = Done (lit "boom at offset 17 (indicated by <==)\n {\n    'name': 'a b c d',\n    's <== chema': 1\n}").
Proof. split_and!; by vm_compute. Qed.

(** C3, the failing input.  The same document with the offset of a type
    error on its last value, 28 of 29 bytes: the indented document has only
    26 bytes other than spaces and line feeds, the walk runs past its end,
    and the formatter panics. *)
Theorem formatter_panics :
  json.Valid (lit "{'name':'a b c d','schema':1}") = true
  ∧ 0 ≤ 28 ≤ len (lit "{'name':'a b c d','schema':1}")
  ∧ json.Indent (lit "{'name':'a b c d','schema':1}") "" "    "
    = inl (lit "{\n    'name': 'a b c d',\n    'schema': 1\n}")
  ∧ len (visible (lit "{\n    'name': 'a b c d',\n    'schema': 1\n}")) = 26
  ∧ formatUnmarshallErrorString (GoLib0 := goref)
      (lit "{'name':'a b c d','schema':1}")
      "json: cannot unmarshal number into Go struct field Package.schema of type string"
      28
    = Panic.
Proof. split_and!; try by vm_compute. Qed.

(** C8, the failing inputs.  The same document, with two decode failures
    that carry an offset.  For the type error on the value of [schema],
    offset 28, [resolveUnmarshalErr] panics: there is no output.  For a
    type error on the value of [name], offset 17, the output has the
    format, but the indented document is split after 31 bytes, inside the
    key [schema], while the 17 bytes of the document before the offset
    end where the first 23 bytes of the indented document end, after the
    string of [name]. *)
Theorem diagnostic_split_diverges :
  json_Indent (GoLib := goref) (lit "{'name':'a b c d','schema':1}") "" "    "
  = inl (lit "{\n    'name': 'a b c d',\n    'schema': 1\n}")
  ∧ resolveUnmarshalErr (GoLib0 := goref) (lit "{'name':'a b c d','schema':1}")
      (UnmarshalTypeError "number" "string" "Package" "schema" 28)
    = Panic
  ∧ resolveUnmarshalErr (GoLib0 := goref) (lit "{'name':'a b c d','schema':1}")
      (UnmarshalTypeError "string" "int" "T" "name" 17)
    = Done (lit "json: cannot unmarshal string into Go struct field T.name of type int at offset 17 (indicated by <==)\n {\n    'name': 'a b c d',\n    's <== chema': 1\n}")
  ∧ take_bytes 17 (lit "{'name':'a b c d','schema':1}") = lit "{'name':'a b c d'"
  ∧ take_bytes 23 (lit "{\n    'name': 'a b c d',\n    'schema': 1\n}")
    = lit "{\n    'name': 'a b c d'"
  ∧ take_bytes 31 (lit "{\n    'name': 'a b c d',\n    'schema': 1\n}")
    = lit "{\n    'name': 'a b c d',\n    's".
Proof. split_and!; by vm_compute. Qed.

(** ** The offset translation on documents without white space *)

Module scanner_facts.
Import scanner.

Ltac unfold_states :=
  unfold step_fn, stateBeginValueOrEmpty, stateBeginStringOrEmpty,
    stateBeginString, stateBeginValue, stateInString, stateInStringEsc,
    stateInStringEscHex, stateNeg, state1, state0, stateDot, stateDot0,
    stateE, stateESign, stateE0, stateLetter, stateEndValue, stateEndTop,
    pushParseState, popParseState, error_, set_step, set_top, set_parseState.

Lemma step_fn_skip_space (s : scanner.t) (c : ascii) :
  (step_fn s c).2 = scanSkipSpace → isSpace c = true.
Proof.
  unfold_states.
  destruct (step s); simpl; try done; repeat (case_match; simpl; try done).
Qed.

Lemma step_fn_inv (s : scanner.t) (c : ascii) :
  inv s →
  inv (step_fn s c).1
  ∧ ((step_fn s c).2 = scanError → is_Some (err (step_fn s c).1))
  ∧ (is_Some (err s) → is_Some (err (step_fn s c).1)).
Proof.
  unfold inv. unfold_states.
  destruct s as [st et ps e b]; simpl. intros Hinv.
  destruct st; simpl in *; repeat (case_match; simpl in *; try done);
    split_and!; try done; eauto.
Qed.

Lemma inv_reset : inv reset.
Proof. done. Qed.

Lemma inv_incr_bytes (s : scanner.t) : inv s → inv (incr_bytes s).
Proof. by destruct s. Qed.
End scanner_facts.

Section indent_facts.
Import scanner scanner_facts.

Lemma visible_repeat_spaces (n : nat) :
  visible (json.repeat_string n "    ") = EmptyString.
Proof.
  induction n as [|n IH]; [done|].
  change (json.repeat_string (S n) "    ")
    with ("    " +:+ json.repeat_string n "    ").
  by rewrite visible_append, IH.
Qed.

Lemma visible_appendNewline (dst : string) (depth : Z) :
  visible (json.appendNewline dst "" "    " depth) = visible dst.
Proof.
  unfold json.appendNewline.
  rewrite !visible_append, visible_repeat_spaces. simpl.
  by rewrite !append_nil_r.
Qed.

Lemma counted_not_space (c : ascii) : isSpace c = false → counted c = true.
Proof.
  unfold isSpace, counted, is_byte, LF, SP.
  destruct (Ascii.eqb c " "), (Ascii.eqb c "010"); simpl; try done.
  by rewrite orb_true_r.
Qed.

Lemma visible_snoc (dst : string) (c : ascii) :
  counted c = true → visible (dst +:+ str c) = visible dst +:+ str c.
Proof. intros Hc. rewrite visible_append. simpl. by rewrite Hc. Qed.

Lemma append_str_cons (s t : string) (c : ascii) :
  (s +:+ str c) +:+ t = s +:+ String c t.
Proof. by rewrite append_assoc. Qed.

(** On a source without white space the loop copies every byte, and what
    it adds is spaces and line feeds; a failed scanner stays failed. *)
Lemma indent_loop_visible (src : string) :
  ∀ (scan : scanner.t) (needIndent : bool) (depth : Z) (dst : string),
    inv scan → no_space src = true →
    (is_Some (err scan)
     → is_Some (err (json.indent_loop src scan needIndent depth dst "" "    ").1))
    ∧ (err (json.indent_loop src scan needIndent depth dst "" "    ").1 = None
       → visible (json.indent_loop src scan needIndent depth dst "" "    ").2
         = visible dst +:+ src).
Proof.
  induction src as [|c src IH]; intros scan needIndent depth dst Hinv Hsp.
  { simpl. split; [done|]. intros _. by rewrite append_nil_r. }
  simpl in Hsp. apply andb_true_iff in Hsp as [Hc%negb_true_iff Hsp].
  pose proof (counted_not_space c Hc) as Hcount.
  pose proof (step_fn_skip_space (incr_bytes scan) c) as Hskip.
  destruct (step_fn_inv (incr_bytes scan) c (inv_incr_bytes _ Hinv))
    as (Hinv' & Herr & Hkeep).
  simpl. destruct (step_fn (incr_bytes scan) c) as [scan' v] eqn:Hstep.
  simpl in *.
  assert (is_Some (err scan) → is_Some (err scan')) as Hkeep'
    by (intros ?; apply Hkeep; by destruct scan).
  destruct (opcode_eqb v scanSkipSpace) eqn:E1.
  { destruct v; try done. rewrite Hskip in Hc; done. }
  destruct (opcode_eqb v scanError) eqn:E2.
  { destruct v; try done. simpl. split; [auto|].
    intros Hnone. destruct (Herr eq_refl) as [e He]. congruence. }
  assert (∀ ni d dst',
    visible dst' = visible dst +:+ str c →
    (is_Some (err scan)
     → is_Some (err (json.indent_loop src scan' ni d dst' "" "    ").1))
    ∧ (err (json.indent_loop src scan' ni d dst' "" "    ").1 = None
       → visible (json.indent_loop src scan' ni d dst' "" "    ").2
         = visible dst +:+ String c src)) as Hnext.
  { intros ni d dst' Hvis. destruct (IH scan' ni d dst' Hinv' Hsp) as [H1 H2].
    split; [auto|]. intros Hnone. by rewrite (H2 Hnone), Hvis, append_str_cons. }
  repeat case_match; simplify_eq; apply Hnext;
    rewrite ?visible_append, ?visible_appendNewline, ?visible_snoc,
            ?visible_appendNewline; simpl; rewrite ?Hcount, ?append_nil_r; try done.

Qed.

Lemma Indent_visible (data pString : string) :
  no_space data = true →
  json.Indent data "" "    " = inl pString →
  visible pString = data.
Proof.
  unfold json.Indent. intros Hsp.
  destruct (indent_loop_visible data reset false 0 EmptyString inv_reset Hsp)
    as [_ Hvis].
  destruct (json.indent_loop data reset false 0 "" "" "    ") as [scan dst].
  simpl in Hvis. unfold eof.
  destruct (err scan) as [e|] eqn:Herr; simpl; [by rewrite Herr|].
  intros Hind. specialize (Hvis eq_refl). rewrite append_nil_l in Hvis.
  repeat case_match; simplify_eq; done.
Qed.
End indent_facts.

(** On a document without white space that [json.Indent] accepts, the
    translation is exact for every offset from 0 to the length of the
    document: the indented text before the marker, without its spaces and
    line feeds, is the document before the offset, and the formatter
    returns. *)
Theorem translation_exact_without_white_space
    (data errmsg pString : string) (offset : Z) :
  no_space data = true →
  json.Indent data "" "    " = inl pString →
  0 ≤ offset ≤ len data →
  ∃ pOffset : nat,
    translate_offset pString offset 0 0 = Done (Z.of_nat pOffset)
    ∧ visible (take_bytes pOffset pString) = take_bytes (Z.to_nat offset) data
    ∧ formatUnmarshallErrorString (GoLib0 := goref) data errmsg offset
      = Done (header errmsg offset +:+ take_bytes pOffset pString
              +:+ " <== " +:+ drop_bytes pOffset pString).
Proof.
  intros Hsp Hind Hoff. pose proof (Indent_visible _ _ Hsp Hind) as Hvis.
  destruct (translate_offset_Done pString offset) as (n & Htr & Hn & Hpre).
  { rewrite Hvis. lia. }
  exists n. rewrite Hvis in Hpre. split_and!; [done|done|].
  rewrite (format_indented (GoLib0 := goref) data errmsg pString offset Hind), Htr.
  simpl. unfold slice_to, slice_from.
  replace ((0 <=? Z.of_nat n) && (Z.of_nat n <=? len pString)) with true
    by (symmetry; apply andb_true_iff; split; lia).
  simpl. by rewrite Nat2Z.id.
Qed.

Lemma translation_exact_without_white_space_witness :
  no_space (lit "{'name':'abcd','schema':1}") = true
  ∧ json.Indent (lit "{'name':'abcd','schema':1}") "" "    "
    = inl (lit "{\n    'name': 'abcd',\n    'schema': 1\n}")
  ∧ 0 ≤ 25 ≤ len (lit "{'name':'abcd','schema':1}")
  ∧ ∃ pOffset : nat,
      translate_offset (lit "{\n    'name': 'abcd',\n    'schema': 1\n}") 25 0 0
      = Done (Z.of_nat pOffset)
      ∧ visible (take_bytes pOffset (lit "{\n    'name': 'abcd',\n    'schema': 1\n}"))
        = take_bytes (Z.to_nat 25) (lit "{'name':'abcd','schema':1}").
Proof.
  split; [by vm_compute|]. split; [by vm_compute|]. split; [by vm_compute|].
  destruct (translation_exact_without_white_space
              (lit "{'name':'abcd','schema':1}") "boom"
              (lit "{\n    'name': 'abcd',\n    'schema': 1\n}") 25)
    as (n & Htr & Hvis & _); [by vm_compute|by vm_compute|by vm_compute|].
  exists n. split; [exact Htr|exact Hvis].
Defined.

(** ** The formatter returns or panics *)

Section format_total.
Context {float64 : Type} `{!GoLib float64}.

(** On a document that [json.Indent] accepts, the formatter panics
    exactly when the offset exceeds the number of bytes of the indented
    document other than spaces and line feeds. *)
Theorem format_indented_panics_iff (data errmsg pString : string) (offset : Z) :
  json_Indent data "" "    " = inl pString →
  formatUnmarshallErrorString data errmsg offset = Panic
  ↔ len (visible pString) < offset.
Proof.
  intros Hind. rewrite (format_indented _ _ _ _ Hind). split.
  - intros Hpanic. destruct (decide (len (visible pString) < offset)) as [|Hle]; [done|].
    destruct (translate_offset_Done pString offset) as (n & Htr & Hn & _); [lia|].
    rewrite Htr in Hpanic. simpl in Hpanic. unfold slice_to, slice_from in Hpanic.
    replace ((0 <=? Z.of_nat n) && (Z.of_nat n <=? len pString)) with true in Hpanic
      by (symmetry; apply andb_true_iff; split; lia).
    done.
  - intros Hlt. by rewrite translate_offset_Panic.
Qed.

(** Whenever the formatter returns, its output is not empty and holds
    the marker. *)
Theorem format_holds_marker (data errmsg : string) (offset : Z) (out : string) :
  formatUnmarshallErrorString data errmsg offset = Done out →
  out ≠ EmptyString ∧ ∃ before after, out = before +:+ " <== " +:+ after.
Proof.
  intros Hfmt.
  assert (∃ before after, out = before +:+ " <== " +:+ after)
    as (before & after & ->).
  { destruct (json_Indent data "" "    ") as [pString|e] eqn:Hind.
    - rewrite (format_indented _ _ _ _ Hind) in Hfmt.
      destruct (translate_offset pString offset 0 0) as [pOffset|]; [|done].
      simpl in Hfmt.
      destruct (slice_to pString pOffset) as [pre|]; [|done]. simpl in Hfmt.
      destruct (slice_from pString pOffset) as [suf|]; [|done]. simpl in Hfmt.
      injection Hfmt as <-. exists (header errmsg offset +:+ pre), suf.
      by rewrite append_assoc.
    - rewrite (format_fallback _ _ _ _ Hind) in Hfmt.
      destruct ((0 <=? offset) && (offset <=? len data)); [|done].
      injection Hfmt as <-. eexists (header errmsg offset +:+ _), _.
      by rewrite append_assoc. }
  split; [|by eexists _, _].
  intros Hempty. apply (f_equal String.length) in Hempty.
  rewrite !length_append in Hempty. simpl in Hempty. lia.
Qed.
End format_total.

(** ** Iteration order and the result of decode *)

(** A successful decode does not depend on the iteration order of the
    maps: every fair order gives the same Meta. *)
Theorem decode_order_independent {float64 : Type} `{!GoLib float64}
    (ρ1 ρ2 : order) (m m1 : Meta) (blob : string) :
  fair ρ1 → fair ρ2 →
  UnmarshalJSON ρ1 m blob = Done (m1, None) →
  UnmarshalJSON ρ2 m blob = Done (m1, None).
Proof.
  intros Hfair1 Hfair2 Hdec.
  destruct (json_Unmarshal blob (Some ∅)) as [blobMap [uerr|]] eqn:Hparse.
  { by rewrite (UnmarshalJSON_parse_error _ _ _ _ _ Hparse) in Hdec. }
  destruct (extract_spec ρ1 Hfair1 blobMap m) as (m1' & oe1 & Hex1 & HB1 & Hf1 & Hoe1).
  destruct (extract_spec ρ2 Hfair2 blobMap m) as (m2' & oe2 & Hex2 & HB2 & Hf2 & Hoe2).
  rewrite (UnmarshalJSON_parsed _ _ _ _ _ _ Hparse Hex1) in Hdec.
  rewrite (UnmarshalJSON_parsed _ _ _ _ _ _ Hparse Hex2).
  destruct oe1 as [e1|]; [done|]. destruct Hoe1 as (Hu & Hwt & Hall1).
  destruct (extract_ok ρ2 Hfair2 blobMap m Hu Hwt) as [m2'' Hex2'].
  rewrite Hex2 in Hex2'. injection Hex2' as -> ->. destruct Hoe2 as (_ & _ & Hall2).
  assert (m2'' = m1') as ->; [|done].
  apply Meta_eq; [|congruence]. intros ptr.
  destruct (Hf1 ptr) as [H1|(key & Hkey & Hv)].
  - destruct (Hf2 ptr) as [H2|(key & Hkey & Hv)]; [congruence|].
    pose proof (Hall1 ptr key _ Hkey Hv). congruence.
  - pose proof (Hall2 ptr key _ Hkey Hv). congruence.
Qed.

Lemma decode_order_independent_witness :
  fair in_order ∧ fair in_reverse
  ∧ UnmarshalJSON (GoLib0 := goref) in_reverse zero_Meta
      (lit "{'schema':'olm.bundle','name':'etcdoperator.v0.9.2','package':'etcd'}")
    = Done (mkMeta "olm.bundle" "etcd" "etcdoperator.v0.9.2"
              (lit "{'name':'etcdoperator.v0.9.2','package':'etcd','schema':'olm.bundle'}\n"),
            None).
Proof.
  split; [apply fair_in_order|]. split; [apply fair_in_reverse|].
  apply (decode_order_independent (GoLib0 := goref) in_order in_reverse
           zero_Meta _ _ fair_in_order fair_in_reverse).
  vm_compute. reflexivity.
Defined.

Lemma format_indented_panics_iff_witness :
  json_Indent (GoLib := goref) (lit "{'a b':1}") "" "    "
  = inl (lit "{\n    'a b': 1\n}")
  ∧ len (visible (lit "{\n    'a b': 1\n}")) < 9
  ∧ formatUnmarshallErrorString (GoLib0 := goref) (lit "{'a b':1}") "boom" 9 = Panic.
Proof.
  split; [by vm_compute|]. split; [by vm_compute|].
  apply (format_indented_panics_iff (GoLib0 := goref) (lit "{'a b':1}") "boom"
           (lit "{\n    'a b': 1\n}") 9); by vm_compute.
Defined.

Lemma format_holds_marker_witness :
  formatUnmarshallErrorString (GoLib0 := goref) (lit "{'a':}") "boom" 5
  = Done (lit "boom at offset 5 (indicated by <==)\n {'a': <== }")
  ∧ lit "boom at offset 5 (indicated by <==)\n {'a': <== }" ≠ EmptyString.
Proof.
  split; [by vm_compute|].
  apply (format_holds_marker (GoLib0 := goref) (lit "{'a':}") "boom" 5).
  by vm_compute.
Defined.

(** ** When decode succeeds *)

Section decode_more.
Context {float64 : Type} `{!GoLib float64}.
Implicit Types (blobMap : gomap float64) (m : Meta) (blob key : string).

Lemma well_known_name (name : string) :
  name ∈ ["schema"; "package"; "name"] ↔ ∃ ptr, name = field_name ptr.
Proof.
  split.
  - intros Hname.
    apply elem_of_cons in Hname as [->|Hname]; [by exists ptr_Schema|].
    apply elem_of_cons in Hname as [->|Hname]; [by exists ptr_Package|].
    apply list_elem_of_singleton in Hname as ->. by exists ptr_Name.
  - intros [[] ->]; set_solver.
Qed.

Lemma well_typed_iff blobMap :
  unambiguous blobMap →
  well_typed blobMap ↔
  ∀ name key v, name ∈ ["schema"; "package"; "name"] →
                Fold_String key = Fold_String name →
                entries blobMap !! key = Some v → ∃ s, v = VString s.
Proof.
  intros Hu. split.
  - intros Hwt name key v [ptr ->]%well_known_name Hfold Hv.
    destruct (metaMap_is_Some ptr) as [ptr' Hptr'].
    apply (Hwt _ ptr' key v Hptr'); [|done].
    apply bucket_singleton; [done|]. apply elem_of_bucket.
    split; [by apply elem_of_dom_2 in Hv|done].
  - intros Hall fk ptr key v Hptr Hb Hv.
    apply (Hall (field_name ptr) key v); [by apply well_known_name; exists ptr| |done].
    rewrite <- (metaMap_lookup _ _ Hptr).
    assert (key ∈ bucket blobMap fk) as [_ ?]%elem_of_bucket by (rewrite Hb; set_solver).
    done.
Qed.

(** Decode succeeds exactly when [json.Unmarshal] accepts the document,
    no two keys of the object fold alike, every key that folds to a
    well-known name holds a string, and the encoder accepts the object. *)
Theorem decode_succeeds_iff (ρ : order) m blob :
  fair ρ →
  (∃ m', UnmarshalJSON ρ m blob = Done (m', None))
  ↔ ∃ blobMap buf,
      json_Unmarshal blob (Some ∅) = (blobMap, None)
      ∧ (∀ key1 key2, key1 ∈ dom (entries blobMap) → key2 ∈ dom (entries blobMap) →
                      Fold_String key1 = Fold_String key2 → key1 = key2)
      ∧ (∀ name key v, name ∈ ["schema"; "package"; "name"] →
                       Fold_String key = Fold_String name →
                       entries blobMap !! key = Some v → ∃ s, v = VString s)
      ∧ json_Encode false blobMap = inl buf.
Proof.
  intros Hfair. split.
  - intros [m' Hdec].
    destruct (json_Unmarshal blob (Some ∅)) as [blobMap [uerr|]] eqn:Hparse.
    { by rewrite (UnmarshalJSON_parse_error _ _ _ _ _ Hparse) in Hdec. }
    destruct (extract_spec ρ Hfair blobMap m) as (m1 & oe & Hex & _ & _ & Hoe).
    rewrite (UnmarshalJSON_parsed _ _ _ _ _ _ Hparse Hex) in Hdec.
    destruct oe as [e|]; [done|]. destruct Hoe as (Hu & Hwt & _).
    destruct (json_Encode false blobMap) as [buf|e] eqn:Henc; [|done].
    exists blobMap, buf. split_and!; [done| | |done].
    + by apply unambiguous_iff.
    + by apply well_typed_iff.
  - intros (blobMap & buf & Hparse & Hu%unambiguous_iff & Hwt & Henc).
    apply (well_typed_iff _ Hu) in Hwt.
    destruct (extract_ok ρ Hfair blobMap m Hu Hwt) as [m1 Hex].
    exists (set_Blob buf m1).
    by rewrite (UnmarshalJSON_parsed _ _ _ _ _ _ Hparse Hex), Henc.
Qed.

(** Decoding the same document again into the Meta it produced changes
    nothing, whatever the iteration orders of the two runs. *)
Theorem decode_idempotent_on_receiver (ρ1 ρ2 : order) m m' blob :
  fair ρ1 → fair ρ2 →
  UnmarshalJSON ρ1 m blob = Done (m', None) →
  UnmarshalJSON ρ2 m' blob = Done (m', None).
Proof.
  intros Hfair1 Hfair2 Hdec.
  destruct (json_Unmarshal blob (Some ∅)) as [blobMap [uerr|]] eqn:Hparse.
  { by rewrite (UnmarshalJSON_parse_error _ _ _ _ _ Hparse) in Hdec. }
  destruct (extract_spec ρ1 Hfair1 blobMap m) as (m1 & oe1 & Hex1 & HB1 & Hf1 & Hoe1).
  rewrite (UnmarshalJSON_parsed _ _ _ _ _ _ Hparse Hex1) in Hdec.
  destruct oe1 as [e1|]; [done|]. destruct Hoe1 as (Hu & Hwt & Hall1).
  destruct (json_Encode false blobMap) as [buf|e] eqn:Henc; [|done].
  injection Hdec as <-.
  destruct (extract_spec ρ2 Hfair2 blobMap (set_Blob buf m1))
    as (m2 & oe2 & Hex2 & HB2 & Hf2 & Hoe2).
  rewrite (UnmarshalJSON_parsed _ _ _ _ _ _ Hparse Hex2), Henc.
  destruct oe2 as [e2|].
  { exfalso. destruct (extract_ok ρ2 Hfair2 blobMap (set_Blob buf m1) Hu Hwt) as [? Hok].
    congruence. }
  f_equal. f_equal. apply Meta_eq; [|done]. intros ptr. rewrite !load_set_Blob.
  destruct (Hf2 ptr) as [H2|(key & Hkey & Hv)].
  - by rewrite H2, load_set_Blob.
  - pose proof (Hall1 ptr key _ Hkey Hv) as Heq. by injection Heq as ->.
Qed.

(** The duplicate-key errors that decode reports do not depend on the
    iteration order, nor on the receiver: two runs on the same document
    report the same errors, in a possibly different order. *)
Theorem duplicate_errors_order (ρ1 ρ2 : order) (m1 m1' m2 : Meta) blob
    (errs1 : list error) :
  fair ρ1 → fair ρ2 →
  UnmarshalJSON ρ1 m1 blob = Done (m1', Some (Aggregate errs1)) →
  ∃ m2' errs2,
    UnmarshalJSON ρ2 m2 blob = Done (m2', Some (Aggregate errs2))
    ∧ errs1 ≡ₚ errs2.
Proof.
  intros Hfair1 Hfair2 Hdec.
  destruct (json_Unmarshal blob (Some ∅)) as [blobMap [uerr|]] eqn:Hparse.
  { rewrite (UnmarshalJSON_parse_error _ _ _ _ _ Hparse) in Hdec.
    injection Hdec as <- ->. exists m2, errs1.
    by rewrite (UnmarshalJSON_parse_error _ _ _ _ _ Hparse). }
  destruct (unambiguous_or_not ρ1 Hfair1 blobMap) as [Hu|Hamb].
  - destruct (extract_spec ρ1 Hfair1 blobMap m1) as (n1 & oe1 & Hex1 & _ & _ & Hoe1).
    destruct (extract_spec ρ2 Hfair2 blobMap m2) as (n2 & oe2 & Hex2 & _ & _ & Hoe2).
    rewrite (UnmarshalJSON_parsed _ _ _ _ _ _ Hparse Hex1) in Hdec.
    rewrite (UnmarshalJSON_parsed _ _ _ _ _ _ Hparse Hex2).
    destruct oe1 as [e1|].
    { injection Hdec as <- ->.
      destruct Hoe1 as [[_ [fk Hfk]]|[_ (? & ? & ? & _ & _ & _ & ?)]]; [|done].
      pose proof (Hu fk). lia. }
    destruct Hoe1 as (_ & Hwt & _).
    destruct (extract_ok ρ2 Hfair2 blobMap m2 Hu Hwt) as [n2' Hok].
    rewrite Hex2 in Hok. injection Hok as -> ->.
    destruct (json_Encode false blobMap) as [buf|e]; [done|].
    injection Hdec as <- ->. by eexists _, errs1.
  - destruct (extract_ambiguous ρ1 Hfair1 blobMap m1 Hamb) as (fks1 & Hex1 & _ & Hnd1 & Hin1).
    destruct (extract_ambiguous ρ2 Hfair2 blobMap m2 Hamb) as (fks2 & Hex2 & _ & Hnd2 & Hin2).
    rewrite (UnmarshalJSON_parsed _ _ _ _ _ _ Hparse Hex1) in Hdec.
    rewrite (UnmarshalJSON_parsed _ _ _ _ _ _ Hparse Hex2).
    injection Hdec as <- <-. eexists _, _. split; [done|].
    apply fmap_Permutation, NoDup_Permutation; [done|done|].
    intros fk. by rewrite Hin1, Hin2.
Qed.

(** When exactly one folded key is shared by two keys or more, the
    message of the error is the duplicate-key message of that folded
    key, with its original keys in increasing order, under every
    iteration order. *)
Theorem single_duplicate_message (ρ : order) m blob blobMap (foldedKey : string) :
  fair ρ →
  json_Unmarshal blob (Some ∅) = (blobMap, None) →
  (∀ fk, (∃ key1 key2, key1 ≠ key2
             ∧ key1 ∈ dom (entries blobMap) ∧ Fold_String key1 = fk
             ∧ key2 ∈ dom (entries blobMap) ∧ Fold_String key2 = fk)
         ↔ fk = foldedKey) →
  ∃ err keys,
    UnmarshalJSON ρ m blob = Done (m, Some err)
    ∧ Error err = "duplicate keys for key " +:+ fmt_q foldedKey +:+ ": ["
                  +:+ join " " keys +:+ "]"
    ∧ StronglySorted String.le keys ∧ NoDup keys
    ∧ ∀ key, key ∈ keys
             ↔ key ∈ dom (entries blobMap) ∧ Fold_String key = foldedKey.
Proof.
  intros Hfair Hparse Hone.
  assert (∀ fk, (2 ≤ size (bucket blobMap fk))%nat ↔ fk = foldedKey) as Hone'.
  { intros fk. rewrite <- Hone, (size_ge_2_iff (bucket blobMap fk)).
    setoid_rewrite elem_of_bucket. naive_solver. }
  destruct (extract_ambiguous ρ Hfair blobMap m) as (fks & Hex & Hnil & Hnd & Hin).
  { exists foldedKey. by apply Hone'. }
  assert (fks = [foldedKey]) as ->.
  { apply Permutation_singleton_r, NoDup_Permutation;
      [done|apply NoDup_singleton|].
    intros fk. by rewrite Hin, Hone', list_elem_of_singleton. }
  rewrite (UnmarshalJSON_parsed _ _ _ _ _ _ Hparse Hex).
  eexists _, (sets_List (bucket blobMap foldedKey)). split_and!; [done| | | |].
  - simpl. unfold fmt_v_strings. do 2 f_equal.
  - apply Sorted_sets_List.
  - apply NoDup_sets_List.
  - intros key. by rewrite elem_of_sets_List, elem_of_bucket.
Qed.

(** After the first loop, whatever its order, [keySets] is the partition
    of the keys of [blobMap] by folded key: every set is not empty and
    holds exactly the keys that fold to its own key.  So
    [UnsortedList()[0]] is in range and [blobMap[key]] is present in the
    last loop. *)
Theorem keySets_partition (ρ : order) blobMap (foldedKey : string)
    (keys : gset string) :
  fair ρ →
  make_keySets ρ blobMap !! foldedKey = Some keys
  ↔ keys ≠ ∅
    ∧ ∀ key, key ∈ keys ↔ is_Some (entries blobMap !! key)
                           ∧ Fold_String key = foldedKey.
Proof.
  intros Hfair. rewrite (make_keySets_Some ρ Hfair). split.
  - intros [-> Hne]. split; [done|]. intros key.
    by rewrite elem_of_bucket, elem_of_dom.
  - intros [Hne Hkeys]. split; [|done]. apply set_eq. intros key.
    by rewrite Hkeys, elem_of_bucket, elem_of_dom.
Qed.

(** An error of the key checks carries no offset: [resolveUnmarshalErr]
    returns its message as it is, for any document, and cannot panic. *)
Theorem key_check_errors_resolved_verbatim (ρ : order) blobMap m m'
    (err : error) (data : string) :
  fair ρ →
  extractUniqueMetaKeys ρ blobMap m = Done (m', Some err) →
  resolveUnmarshalErr data err = Done (Error err).
Proof.
  intros Hfair Hex.
  destruct (unambiguous_or_not ρ Hfair blobMap) as [Hu|Hamb].
  - destruct (extract_spec ρ Hfair blobMap m) as (m1 & oe & Hex' & _ & _ & Hoe).
    rewrite Hex in Hex'. injection Hex' as <- <-.
    destruct Hoe as [[_ [fk Hfk]]|[_ (? & ? & ? & _ & _ & _ & ->)]]; [|done].
    pose proof (Hu fk). lia.
  - destruct (extract_ambiguous ρ Hfair blobMap m Hamb) as (fks & Hex' & _).
    rewrite Hex in Hex'. by injection Hex' as <- ->.
Qed.
End decode_more.

(** ** Where the marker is placed *)

Lemma take_bytes_append (s t : string) :
  take_bytes (String.length s) (s +:+ t) = s.
Proof. induction s as [|c s IH]; simpl; [by destruct t|]. by rewrite IH. Qed.

Lemma drop_bytes_append (s t : string) :
  drop_bytes (String.length s) (s +:+ t) = t.
Proof. induction s as [|c s IH]; simpl; [by destruct t|]. by rewrite IH. Qed.

(** The walk stops right after the byte that brings the count of bytes
    other than spaces and line feeds to [offset]; it does not start when
    [offset] is not positive. *)
Lemma translate_offset_stop (pString : string) (offset p : Z) :
  translate_offset pString offset 0 0 = Done p →
  (offset ≤ 0 ∧ p = 0)
  ∨ (0 < offset
     ∧ ∃ pre c suf, pString = pre +:+ String c suf ∧ counted c = true
                    ∧ p = len pre + 1 ∧ len (visible pre) = offset - 1).
Proof.
  revert offset p. induction pString as [|c rest IH]; intros offset p; simpl.
  - destruct (0 <? offset) eqn:E; [done|]. intros [= <-]. left. lia.
  - destruct (0 <? offset) eqn:E; [|intros [= <-]; left; lia].
    rewrite translate_offset_shift. fold (counted c).
    destruct (translate_offset rest _ 0 0) as [n|] eqn:Htr; [|done].
    simpl. intros [= <-]. right. split; [lia|].
    apply IH in Htr as [[Hle ->]|[Hlt (pre & c' & suf & -> & Hc' & -> & Hvis)]].
    + destruct (counted c) eqn:Hc; [|lia].
      exists EmptyString, c, rest.
      split_and!; try done; simpl; change (len "") with 0; lia.
    + exists (String c pre), c', suf. rewrite len_cons. simpl.
      split_and!; [done|done|lia|].
      destruct (counted c); rewrite ?len_cons; lia.
Qed.

Section marker.
Context {float64 : Type} `{!GoLib float64}.

Lemma format_indented_Panic (data errmsg pString : string) (offset : Z) :
  json_Indent data "" "    " = inl pString →
  formatUnmarshallErrorString data errmsg offset = Panic
  ↔ len (visible pString) < offset.
Proof.
  intros Hind. rewrite (format_indented _ _ _ _ Hind). split.
  - intros Hpanic. destruct (decide (len (visible pString) < offset)) as [|Hle]; [done|].
    destruct (translate_offset_Done pString offset) as (n & Htr & Hn & _); [lia|].
    rewrite Htr in Hpanic. simpl in Hpanic. unfold slice_to, slice_from in Hpanic.
    replace ((0 <=? Z.of_nat n) && (Z.of_nat n <=? len pString)) with true in Hpanic
      by (symmetry; apply andb_true_iff; split; lia).
    done.
  - intros Hlt. by rewrite translate_offset_Panic.
Qed.

(** When [json.Indent] rejects the document, the formatter writes the
    header, the raw bytes before the offset, the marker and the raw bytes
    from the offset on, for the offsets from 0 to the length of the
    document; it panics for every other offset. *)
Theorem raw_document_returns_or_panics (data errmsg : string) (offset : Z)
    (e : error) :
  json_Indent data "" "    " = inr e →
  formatUnmarshallErrorString data errmsg offset =
  if (0 <=? offset) && (offset <=? len data)
  then Done (header errmsg offset +:+ take_bytes (Z.to_nat offset) data
             +:+ " <== " +:+ drop_bytes (Z.to_nat offset) data)
  else Panic.
Proof.
  unfold formatUnmarshallErrorString. intros ->.
  rewrite write_prefix_spec, Z.sub_0_r. unfold slice_from.
  destruct (offset <=? len data) eqn:Hhi, (0 <=? offset) eqn:Hlo; simpl; try done.
  by rewrite append_assoc.
Qed.

(** When [json.Indent] accepts the document and the formatter returns,
    the text before the marker is the shortest prefix of the indented
    document that holds [offset] bytes other than spaces and line feeds:
    it is empty when [offset] is not positive, and it ends with such a
    byte otherwise. *)
Theorem marker_after_counted_byte (data errmsg pString : string) (offset : Z)
    (out : string) :
  json_Indent data "" "    " = inl pString →
  formatUnmarshallErrorString data errmsg offset = Done out →
  ∃ pre suf,
    out = header errmsg offset +:+ pre +:+ " <== " +:+ suf
    ∧ pre +:+ suf = pString
    ∧ len (visible pre) = Z.max 0 offset
    ∧ (pre = EmptyString
       ∨ ∃ pre' c, pre = pre' +:+ String c EmptyString ∧ counted c = true).
Proof.
  intros Hind Hfmt. rewrite (format_indented _ _ _ _ Hind) in Hfmt.
  destruct (translate_offset pString offset 0 0) as [p|] eqn:Htr; [|done].
  simpl in Hfmt. unfold slice_to, slice_from in Hfmt.
  destruct ((0 <=? p) && (p <=? len pString)) eqn:Hrange; [|done].
  simpl in Hfmt. injection Hfmt as <-.
  exists (take_bytes (Z.to_nat p) pString), (drop_bytes (Z.to_nat p) pString).
  split_and!; [done|apply take_drop_bytes| |];
    apply translate_offset_stop in Htr
      as [[Hle ->]|[Hlt (pre & c & suf & -> & Hc & -> & Hvis)]].
  - simpl. change (len "") with 0. lia.
  - replace (Z.to_nat (len pre + 1)) with (String.length (pre +:+ String c ""))
      by (rewrite length_append; unfold len; simpl; lia).
    rewrite <- (append_str_cons pre suf c). unfold str. rewrite take_bytes_append.
    rewrite visible_append, len_append. simpl. rewrite Hc.
    change (len (String c "")) with 1. lia.
  - by left.
  - right. exists pre, c. split; [|done].
    replace (Z.to_nat (len pre + 1)) with (String.length (pre +:+ String c ""))
      by (rewrite length_append; unfold len; simpl; lia).
    rewrite <- (append_str_cons pre suf c). unfold str. by rewrite take_bytes_append.
Qed.
(** For a failure that carries a byte offset, whenever
    [resolveUnmarshalErr] returns, its output is the message of the
    error, the text [ at offset N (indicated by <==)], a line feed and a
    space, and then a document with the marker spliced in.  When
    [json.Indent] accepts the document, that is the indented document,
    split after its shortest prefix that holds [N] bytes other than
    spaces and line feeds; otherwise it is the raw document, split after
    [N] bytes. *)
Theorem diagnostic_format_when_returned (data : string) (err : error)
    (Offset : Z) (out : string) :
  error_offset err = Some Offset →
  resolveUnmarshalErr data err = Done out →
  ∃ pre suf,
    out = Error err +:+ " at offset " +:+ fmt_d Offset
          +:+ " (indicated by <==)" +:+ String LF " "
          +:+ pre +:+ " <== " +:+ suf
    ∧ match json_Indent data "" "    " with
      | inl pString =>
          pre +:+ suf = pString
          ∧ len (visible pre) = Z.max 0 Offset
          ∧ (pre = EmptyString
             ∨ ∃ pre' c, pre = pre' +:+ String c EmptyString ∧ counted c = true)
      | inr _ => pre +:+ suf = data ∧ len pre = Offset
      end.
Proof.
  intros Hoff Hres.
  assert (formatUnmarshallErrorString data (Error err) Offset = Done out) as Hfmt.
  { destruct err; try done; simpl in Hoff; injection Hoff as ->; exact Hres. }
  clear Hres Hoff.
  assert (∀ pre suf, header (Error err) Offset +:+ pre +:+ " <== " +:+ suf
          = Error err +:+ " at offset " +:+ fmt_d Offset
            +:+ " (indicated by <==)" +:+ String LF " "
            +:+ pre +:+ " <== " +:+ suf) as Hflat.
  { intros pre suf. unfold header. by rewrite !append_assoc. }
  destruct (json_Indent data "" "    ") as [pString|e] eqn:Hind.
  - rewrite (format_indented _ _ _ _ Hind) in Hfmt.
    destruct (translate_offset pString Offset 0 0) as [p|] eqn:Htr; [|done].
    simpl in Hfmt. unfold slice_to, slice_from in Hfmt.
    destruct ((0 <=? p) && (p <=? len pString)) eqn:Hrange; [|done].
    simpl in Hfmt. injection Hfmt as <-.
    exists (take_bytes (Z.to_nat p) pString), (drop_bytes (Z.to_nat p) pString).
    split_and!; [apply Hflat|apply take_drop_bytes| |];
      apply translate_offset_stop in Htr
        as [[Hle ->]|[Hlt (pre & c & suf & -> & Hc & -> & Hvis)]].
    + simpl. change (len "") with 0. lia.
    + replace (Z.to_nat (len pre + 1)) with (String.length (pre +:+ String c ""))
        by (rewrite length_append; unfold len; simpl; lia).
      rewrite <- (append_str_cons pre suf c). unfold str. rewrite take_bytes_append.
      rewrite visible_append, len_append. simpl. rewrite Hc.
      change (len (String c "")) with 1. lia.
    + by left.
    + right. exists pre, c. split; [|done].
      replace (Z.to_nat (len pre + 1)) with (String.length (pre +:+ String c ""))
        by (rewrite length_append; unfold len; simpl; lia).
      rewrite <- (append_str_cons pre suf c). unfold str. by rewrite take_bytes_append.
  - rewrite (format_fallback _ _ _ _ Hind) in Hfmt.
    destruct ((0 <=? Offset) && (Offset <=? len data)) eqn:Hrange; [|done].
    injection Hfmt as <-.
    exists (take_bytes (Z.to_nat Offset) data), (drop_bytes (Z.to_nat Offset) data).
    split_and!; [apply Hflat|apply take_drop_bytes|].
    rewrite len_take_bytes by lia. lia.
Qed.
End marker.

(** ** The reference scanner and [json.Indent] *)

Section scanner_more.
Import scanner scanner_facts.

(** [json.Indent] writes the bytes of the document it keeps and, of its
    own, only spaces and line feeds. *)
Lemma indent_loop_counted (src : string) :
  ∀ (scan : scanner.t) (needIndent : bool) (depth : Z) (dst : string),
    len (visible (json.indent_loop src scan needIndent depth dst "" "    ").2)
    ≤ len (visible dst) + len (visible src).
Proof.
  induction src as [|c src IH]; intros scan needIndent depth dst.
  { simpl. change (len "") with 0. lia. }
  simpl. destruct (step_fn (incr_bytes scan) c) as [scan' v].
  pose proof (len_nonneg (visible src)) as Hsrc.
  assert (len (visible src) ≤ len (if counted c then String c (visible src)
                                   else visible src)) as Hmono
    by (destruct (counted c); rewrite ?len_cons; lia).
  assert (len (visible (dst +:+ str c)) + len (visible src)
          = len (visible dst) + len (if counted c then String c (visible src)
                                     else visible src)) as Hpush.
  { rewrite visible_append, len_append. simpl.
    destruct (counted c); rewrite ?len_cons; change (len "") with 0; lia. }
  assert (∀ ni d dst',
    len (visible dst') = len (visible (dst +:+ str c)) →
    len (visible (json.indent_loop src scan' ni d dst' "" "    ").2)
    ≤ len (visible dst) + len (if counted c then String c (visible src)
                               else visible src)) as Hnext.
  { intros ni d dst' Hvis. rewrite <- Hpush, <- Hvis. apply IH. }
  destruct (opcode_eqb v scanSkipSpace); [etrans; [apply IH|lia]|].
  destruct (opcode_eqb v scanError); [simpl; lia|].
  repeat case_match; simplify_eq; apply Hnext;
    rewrite ?visible_append, ?visible_appendNewline, ?visible_append,
            ?visible_appendNewline; simpl; rewrite ?append_nil_r; done.
Qed.

Lemma Indent_counted (data pString : string) :
  json.Indent data "" "    " = inl pString →
  len (visible pString) ≤ len (visible data).
Proof.
  unfold json.Indent.
  pose proof (indent_loop_counted data reset false 0 EmptyString) as Hle.
  destruct (json.indent_loop data reset false 0 "" "" "    ") as [scan dst].
  simpl in Hle. change (len "") with 0 in Hle.
  destruct (eof scan) as [scan' op].
  destruct (opcode_eqb op scanError); [by case_match|].
  intros [= <-]. lia.
Qed.

(** The errors of the scanner are syntax errors whose offset is at most
    the number of bytes read. *)
Lemma step_fn_err (s : scanner.t) (c : ascii) (lo : Z) :
  (∀ e, err s = Some e → ∃ msg off, e = SyntaxError msg off ∧ lo ≤ off ≤ bytes s) →
  lo ≤ bytes s →
  bytes (step_fn s c).1 = bytes s
  ∧ ∀ e, err (step_fn s c).1 = Some e →
         ∃ msg off, e = SyntaxError msg off ∧ lo ≤ off ≤ bytes s.
Proof.
  unfold_states. destruct s as [st et ps e b]; simpl. intros Herr Hlo.
  destruct st; simpl in *; repeat (case_match; simpl in *; try done);
    (split; [done|]); try done;
    intros e' [= <-]; eexists _, _; (split; [done|lia]).
Qed.

Lemma eof_err (s : scanner.t) (lo : Z) :
  (∀ e, err s = Some e → ∃ msg off, e = SyntaxError msg off ∧ lo ≤ off ≤ bytes s) →
  lo ≤ bytes s →
  ∀ e, err (eof s).1 = Some e →
       ∃ msg off, e = SyntaxError msg off ∧ lo ≤ off ≤ bytes s.
Proof.
  intros Herr Hlo e. unfold eof.
  destruct (err s) as [e0|] eqn:He0; [simpl; rewrite He0; by intros [= <-]; apply Herr|].
  destruct (endTop s); [simpl; by rewrite He0|].
  destruct (step_fn_err s " " lo) as [Hb Hs]; [by rewrite He0|done|].
  destruct (endTop (step_fn s " ").1); [simpl; apply Hs|].
  destruct (err (step_fn s " ").1) as [e1|] eqn:He1; simpl.
  - rewrite He1. intros [= <-]. by apply Hs.
  - intros [= <-]. eexists _, _. split; [done|]. rewrite Hb. lia.
Qed.

Lemma checkValid_loop_err (data : string) :
  ∀ (scan : scanner.t) (lo : Z),
    (∀ e, err scan = Some e →
          ∃ msg off, e = SyntaxError msg off ∧ lo ≤ off ≤ bytes scan) →
    lo ≤ bytes scan →
    ∀ e, checkValid_loop data scan = Some e →
         ∃ msg off, e = SyntaxError msg off ∧ lo ≤ off ≤ bytes scan + len data.
Proof.
  induction data as [|c data IH]; intros scan lo Herr Hlo e; simpl.
  - pose proof (eof_err scan lo Herr Hlo) as Heof.
    destruct (eof scan) as [scan' op]. simpl in Heof.
    destruct (opcode_eqb op scanError); [|done].
    intros He. change (len "") with 0. rewrite Z.add_0_r. by apply Heof.
  - destruct (step_fn_err (incr_bytes scan) c lo) as [Hb Hs].
    { destruct scan as [st et ps e0 b]; simpl in *. intros e1 He1.
      destruct (Herr e1 He1) as (msg & off & -> & ?). eexists _, _. split; [done|lia]. }
    { destruct scan; simpl in *; lia. }
    assert (bytes (incr_bytes scan) = bytes scan + 1) as Hincr by by destruct scan.
    rewrite Hincr in Hb, Hs.
    destruct (step_fn (incr_bytes scan) c) as [scan' op]. simpl in Hb, Hs.
    rewrite len_cons. pose proof (len_nonneg data).
    destruct (opcode_eqb op scanError).
    + intros He. destruct (Hs e He) as (msg & off & -> & ?).
      eexists _, _. split; [done|lia].
    + intros He. destruct (IH scan' lo) with (e := e) as (msg & off & -> & ?);
        [by rewrite Hb|lia|done|].
      eexists _, _. split; [done|lia].
Qed.

(** [json.Indent] runs the scanner of [checkValid] over the same bytes:
    it fails on the documents that [checkValid] rejects, with the same
    error. *)
Lemma indent_loop_checkValid (src : string) :
  ∀ (scan : scanner.t) (needIndent : bool) (depth : Z) (dst prefix indent : string),
    inv scan →
    (let '(scan', op) :=
       eof (json.indent_loop src scan needIndent depth dst prefix indent).1 in
     if opcode_eqb op scanError then err scan' else None)
    = checkValid_loop src scan.
Proof.
  induction src as [|c src IH]; intros scan needIndent depth dst prefix indent Hinv;
    [done|].
  simpl.
  destruct (step_fn_inv (incr_bytes scan) c (inv_incr_bytes _ Hinv))
    as (Hinv' & Herr & _).
  destruct (step_fn (incr_bytes scan) c) as [scan' v]. simpl in *.
  destruct (opcode_eqb v scanSkipSpace) eqn:E1.
  { destruct v; try done. simpl. by apply IH. }
  destruct (opcode_eqb v scanError) eqn:E2.
  { destruct v; try done. simpl. destruct (Herr eq_refl) as [e He].
    unfold eof. by rewrite He. }
  match goal with
  | |- context [eof (?b).1] =>
      assert (∃ ni d dst', b = json.indent_loop src scan' ni d dst' prefix indent)
        as (ni & d & dst' & ->)
        by (repeat case_match; simplify_eq; eauto)
  end.
  by apply IH.
Qed.

Lemma Indent_invalid (data prefix indent : string) (e : error) :
  checkValid data = Some e → json.Indent data prefix indent = inr e.
Proof.
  unfold checkValid, json.Indent. intros Hcheck.
  pose proof (indent_loop_checkValid data reset false 0 EmptyString prefix indent
                inv_reset) as Heq.
  destruct (json.indent_loop data reset false 0 "" prefix indent) as [scan dst].
  simpl in Heq. destruct (eof scan) as [scan' op].
  rewrite Hcheck in Heq. destruct (opcode_eqb op scanError); [|done].
  by rewrite Heq.
Qed.
End scanner_more.

(** With the reference [json.Indent], the formatter panics on every
    offset that exceeds the number of bytes of the document other than
    spaces and line feeds. *)
Theorem formatter_panics_past_counted_bytes (data errmsg pString : string)
    (offset : Z) :
  json.Indent data "" "    " = inl pString →
  len (visible data) < offset →
  formatUnmarshallErrorString (GoLib0 := goref) data errmsg offset = Panic.
Proof.
  intros Hind Hlt.
  apply (format_indented_Panic (GoLib0 := goref) data errmsg pString offset Hind).
  pose proof (Indent_counted data pString Hind). lia.
Qed.

(** With the reference library, on a document that is not valid JSON:
    decode fails with a syntax error and leaves the Meta alone, the
    offset of the error is within the document, and
    [resolveUnmarshalErr] returns, with the marker in the raw document
    after [Offset] bytes. *)
Theorem syntax_error_resolved (ρ : order) (m : Meta) (data : string) :
  json.Valid data = false →
  ∃ msg Offset,
    UnmarshalJSON (GoLib0 := goref) ρ m data
    = Done (m, Some (SyntaxError msg Offset))
    ∧ 0 ≤ Offset ≤ len data
    ∧ resolveUnmarshalErr (GoLib0 := goref) data (SyntaxError msg Offset)
      = Done (msg +:+ " at offset " +:+ fmt_d Offset +:+ " (indicated by <==)"
              +:+ String LF " " +:+ take_bytes (Z.to_nat Offset) data
              +:+ " <== " +:+ drop_bytes (Z.to_nat Offset) data).
Proof.
  unfold json.Valid. intros Hvalid.
  destruct (scanner.checkValid data) as [e|] eqn:Hcheck; [clear Hvalid|done].
  destruct (checkValid_loop_err data scanner.reset 0) with (e := e)
    as (msg & Offset & -> & Hoff); [done|done|done|].
  simpl in Hoff. exists msg, Offset. split_and!; [|lia|lia|].
  - apply (UnmarshalJSON_parse_error (GoLib0 := goref)) with (blobMap := Some ∅).
    simpl. unfold decode.Unmarshal. by rewrite Hcheck.
  - unfold resolveUnmarshalErr. simpl.
    rewrite (format_fallback (GoLib0 := goref) data _ Offset (SyntaxError msg Offset))
      by by apply Indent_invalid.
    replace ((0 <=? Offset) && (Offset <=? len data)) with true
      by (symmetry; apply andb_true_iff; split; lia).
    unfold header. by rewrite !append_assoc.
Qed.

(** ** The formatter on valid documents *)

Section indent_more.
Import scanner scanner_facts.

Lemma space_not_counted (c : ascii) :
  isSpace c = true → is_byte c "009" = false → is_byte c "013" = false →
  counted c = false.
Proof.
  unfold isSpace, counted, is_byte, LF, SP. intros Hsp Htab Hcr.
  rewrite Htab, Hcr in Hsp.
  destruct (Ascii.eqb c " "), (Ascii.eqb c "010"); simpl in *; done.
Qed.

Lemma visible_cons (c : ascii) (s : string) :
  visible (String c s) = visible (str c) +:+ visible s.
Proof. simpl. by destruct (counted c). Qed.

(** On a source without tabs and carriage returns, the bytes that the
    loop drops and the bytes it adds are spaces and line feeds. *)
Lemma indent_loop_visible_gen (src : string) :
  ∀ (scan : scanner.t) (needIndent : bool) (depth : Z) (dst : string),
    inv scan → no_tab_cr src = true →
    (is_Some (err scan)
     → is_Some (err (json.indent_loop src scan needIndent depth dst "" "    ").1))
    ∧ (err (json.indent_loop src scan needIndent depth dst "" "    ").1 = None
       → visible (json.indent_loop src scan needIndent depth dst "" "    ").2
         = visible dst +:+ visible src).
Proof.
  induction src as [|c src IH]; intros scan needIndent depth dst Hinv Hsp.
  { simpl. split; [done|]. intros _. by rewrite append_nil_r. }
  simpl in Hsp. apply andb_true_iff in Hsp as [Hc Hsp].
  apply andb_true_iff in Hc as [Htab%negb_true_iff Hcr%negb_true_iff].
  pose proof (step_fn_skip_space (incr_bytes scan) c) as Hskip.
  destruct (step_fn_inv (incr_bytes scan) c (inv_incr_bytes _ Hinv))
    as (Hinv' & Herr & Hkeep).
  rewrite visible_cons.
  cbn [json.indent_loop]. destruct (step_fn (incr_bytes scan) c) as [scan' v] eqn:Hstep.
  simpl in Hskip, Hinv', Herr, Hkeep.
  assert (is_Some (err scan) → is_Some (err scan')) as Hkeep'
    by (intros ?; apply Hkeep; by destruct scan).
  destruct (opcode_eqb v scanSkipSpace) eqn:E1.
  { destruct v; try done.
    assert (visible (str c) = "") as ->.
    { simpl. by rewrite (space_not_counted c (Hskip eq_refl) Htab Hcr). }
    rewrite append_nil_l. destruct (IH scan' needIndent depth dst Hinv' Hsp) as [H1 H2].
    split; [auto|done]. }
  destruct (opcode_eqb v scanError) eqn:E2.
  { destruct v; try done. simpl. split; [auto|].
    intros Hnone. destruct (Herr eq_refl) as [e He]. congruence. }
  assert (∀ ni d dst',
    visible dst' = visible dst +:+ visible (str c) →
    (is_Some (err scan)
     → is_Some (err (json.indent_loop src scan' ni d dst' "" "    ").1))
    ∧ (err (json.indent_loop src scan' ni d dst' "" "    ").1 = None
       → visible (json.indent_loop src scan' ni d dst' "" "    ").2
         = visible dst +:+ visible (str c) +:+ visible src)) as Hnext.
  { intros ni d dst' Hvis. destruct (IH scan' ni d dst' Hinv' Hsp) as [H1 H2].
    split; [auto|]. intros Hnone. by rewrite (H2 Hnone), Hvis, append_assoc. }
  repeat case_match; simplify_eq; apply Hnext;
    rewrite ?visible_append, ?visible_appendNewline, ?visible_append,
            ?visible_appendNewline; simpl; rewrite ?append_nil_r; done.
Qed.

Lemma Indent_visible_gen (data pString : string) :
  no_tab_cr data = true →
  json.Indent data "" "    " = inl pString →
  visible pString = visible data.
Proof.
  unfold json.Indent. intros Hsp.
  destruct (indent_loop_visible_gen data reset false 0 EmptyString inv_reset Hsp)
    as [_ Hvis].
  destruct (json.indent_loop data reset false 0 "" "" "    ") as [scan dst].
  simpl in Hvis. unfold eof.
  destruct (err scan) as [e|] eqn:Herr; simpl; [by rewrite Herr|].
  intros Hind. specialize (Hvis eq_refl). rewrite append_nil_l in Hvis.
  repeat case_match; simplify_eq; done.
Qed.

Lemma eof_error (s : scanner.t) :
  opcode_eqb (eof s).2 scanError = true → is_Some (err (eof s).1).
Proof.
  unfold eof. repeat case_match; simpl; try done; by eauto.
Qed.

Lemma Indent_valid (data prefix indent : string) :
  json.Valid data = true → ∃ pString, json.Indent data prefix indent = inl pString.
Proof.
  unfold json.Valid, checkValid, json.Indent.
  pose proof (indent_loop_checkValid data reset false 0 EmptyString prefix indent
                inv_reset) as Heq.
  destruct (json.indent_loop data reset false 0 "" prefix indent) as [scan dst].
  simpl in Heq. pose proof (eof_error scan) as Hset.
  destruct (eof scan) as [scan' op]. rewrite <- Heq. simpl in Hset.
  destruct (opcode_eqb op scanError) eqn:Hop; [|by eexists].
  by destruct (Hset eq_refl) as [e ->].
Qed.
End indent_more.

(** With the reference library, on a valid document whose white space
    is spaces and line feeds: the indented document has the bytes of the
    document other than spaces and line feeds, in the same order.  So the
    formatter returns exactly for the offsets up to their number, and the
    text before the marker then holds the first [offset] of them. *)
Theorem formatter_on_valid_document (data errmsg : string) (offset : Z) :
  json.Valid data = true → no_tab_cr data = true →
  ∃ pString,
    json.Indent data "" "    " = inl pString
    ∧ visible pString = visible data
    ∧ if decide (offset ≤ len (visible data)) then
        ∃ pOffset : nat,
          formatUnmarshallErrorString (GoLib0 := goref) data errmsg offset
          = Done (header errmsg offset +:+ take_bytes pOffset pString
                  +:+ " <== " +:+ drop_bytes pOffset pString)
          ∧ visible (take_bytes pOffset pString)
            = take_bytes (Z.to_nat offset) (visible data)
      else
        formatUnmarshallErrorString (GoLib0 := goref) data errmsg offset = Panic.
Proof.
  intros Hvalid Hws. destruct (Indent_valid data "" "    " Hvalid) as [pString Hind].
  pose proof (Indent_visible_gen _ _ Hws Hind) as Hvis.
  exists pString. split_and!; [done|done|]. case_decide as Hoff.
  - destruct (translate_offset_Done pString offset) as (n & Htr & Hn & Hpre).
    { by rewrite Hvis. }
    exists n. rewrite Hvis in Hpre. split; [|done].
    rewrite (format_indented (GoLib0 := goref) data errmsg pString offset Hind), Htr.
    simpl. unfold slice_to, slice_from.
    replace ((0 <=? Z.of_nat n) && (Z.of_nat n <=? len pString)) with true
      by (symmetry; apply andb_true_iff; split; lia).
    simpl. by rewrite Nat2Z.id.
  - apply (format_indented_Panic (GoLib0 := goref) data errmsg pString offset Hind).
    rewrite Hvis. lia.
Qed.

(** ** More concrete documents *)

Lemma decode_succeeds_iff_witness :
  fair in_order
  ∧ ∃ blobMap buf,
      json_Unmarshal (GoLib := goref) (lit "{'Schema':'olm.bundle','x':[1]}") (Some ∅)
      = (blobMap, None)
      ∧ json_Encode (GoLib := goref) false blobMap = inl buf.
Proof.
  split; [apply fair_in_order|].
  destruct (proj1 (decode_succeeds_iff (GoLib0 := goref) in_order zero_Meta
                     (lit "{'Schema':'olm.bundle','x':[1]}") fair_in_order))
    as (blobMap & buf & Hparse & _ & _ & Henc).
  - exists (mkMeta "olm.bundle" "" "" (lit "{'Schema':'olm.bundle','x':[1]}\n")).
    by vm_compute.
  - by exists blobMap, buf.
Defined.

Lemma decode_idempotent_on_receiver_witness :
  fair in_order ∧ fair in_reverse
  ∧ UnmarshalJSON (GoLib0 := goref) in_reverse
      (mkMeta "olm.bundle" "" "" (lit "{'Schema':'olm.bundle','x':[1]}\n"))
      (lit "{'Schema':'olm.bundle','x':[1]}")
    = Done (mkMeta "olm.bundle" "" "" (lit "{'Schema':'olm.bundle','x':[1]}\n"), None).
Proof.
  split; [apply fair_in_order|]. split; [apply fair_in_reverse|].
  apply (decode_idempotent_on_receiver (GoLib0 := goref) in_order in_reverse
           zero_Meta _ _ fair_in_order fair_in_reverse).
  by vm_compute.
Defined.

Lemma duplicate_errors_order_witness :
  fair in_order ∧ fair in_reverse
  ∧ UnmarshalJSON (GoLib0 := goref) in_order zero_Meta (lit "{'a':1,'A':2,'b':3,'B':4}")
    = Done (zero_Meta,
            Some (Aggregate [ErrorString (lit "duplicate keys for key 'a': [A a]");
                             ErrorString (lit "duplicate keys for key 'b': [B b]")]))
  ∧ ∃ m2' errs2,
      UnmarshalJSON (GoLib0 := goref) in_reverse zero_Meta
        (lit "{'a':1,'A':2,'b':3,'B':4}")
      = Done (m2', Some (Aggregate errs2))
      ∧ [ErrorString (lit "duplicate keys for key 'a': [A a]");
         ErrorString (lit "duplicate keys for key 'b': [B b]")] ≡ₚ errs2.
Proof.
  split; [apply fair_in_order|]. split; [apply fair_in_reverse|].
  split; [by vm_compute|].
  apply (duplicate_errors_order (GoLib0 := goref) in_order in_reverse
           zero_Meta zero_Meta zero_Meta (lit "{'a':1,'A':2,'b':3,'B':4}") _
           fair_in_order fair_in_reverse).
  by vm_compute.
Defined.

Lemma single_duplicate_message_witness :
  fair in_order
  ∧ ∃ err keys,
      UnmarshalJSON (GoLib0 := goref) in_order zero_Meta
        (lit "{'schema':'olm.package','Schema':'dup'}")
      = Done (zero_Meta, Some err)
      ∧ Error err = "duplicate keys for key " +:+ strconv.Quote "schema" +:+ ": ["
                    +:+ join " " keys +:+ "]".
Proof.
  split; [apply fair_in_order|].
  destruct (single_duplicate_message (GoLib0 := goref) in_order zero_Meta
              (lit "{'schema':'olm.package','Schema':'dup'}")
              (Some (<["Schema" := VString "dup"]>
                       (<["schema" := VString "olm.package"]> ∅)))
              "schema" fair_in_order)
    as (err & keys & Hdec & Hmsg & _).
  - by vm_compute.
  - intros fk. unfold entries. cbn [from_option id]. rewrite !dom_insert_L, dom_empty_L. split.
    + intros (key1 & key2 & _ & H1 & <- & _).
      apply elem_of_union in H1 as [->%elem_of_singleton|H1]; [reflexivity|].
      apply elem_of_union in H1 as [->%elem_of_singleton|H1]; [reflexivity|].
      by apply elem_of_empty in H1.
    + intros ->. exists "schema", "Schema".
      split_and!.
      * discriminate.
      * apply elem_of_union_r, elem_of_union_l, elem_of_singleton; reflexivity.
      * vm_compute; reflexivity.
      * apply elem_of_union_l, elem_of_singleton; reflexivity.
      * vm_compute; reflexivity.
  - exists err, keys. split; [exact Hdec|exact Hmsg].
Defined.

Lemma keySets_partition_witness :
  fair in_order
  ∧ ∃ keys,
      make_keySets (GoLib0 := goref) in_order
        (Some (<["Schema" := VString "dup"]>
                 (<["schema" := VString "olm.package"]> ∅))) !! "schema"
      = Some keys
      ∧ keys ≠ ∅.
Proof.
  split; [apply fair_in_order|].
  destruct (make_keySets (GoLib0 := goref) in_order
              (Some (<["Schema" := VString "dup"]>
                       (<["schema" := VString "olm.package"]> ∅))) !! "schema")
    as [keys|] eqn:Hkeys; [|by vm_compute in Hkeys].
  exists keys. split; [done|].
  exact (proj1 (proj1 (keySets_partition (GoLib0 := goref) in_order _ "schema" keys
                         fair_in_order) Hkeys)).
Defined.

Lemma key_check_errors_resolved_verbatim_witness :
  fair in_order
  ∧ extractUniqueMetaKeys (GoLib0 := goref) in_order
      (Some (<["Name" := VFloat 5]> ∅)) zero_Meta
    = Done (zero_Meta,
            Some (ErrorString
                    (lit "expected value for key 'Name' to be a string, got %!t(float64=5): 5")))
  ∧ resolveUnmarshalErr (GoLib0 := goref) (lit "{'Name':5}")
      (ErrorString
         (lit "expected value for key 'Name' to be a string, got %!t(float64=5): 5"))
    = Done (Error (ErrorString
         (lit "expected value for key 'Name' to be a string, got %!t(float64=5): 5"))).
Proof.
  split; [apply fair_in_order|]. split; [by vm_compute|].
  apply (key_check_errors_resolved_verbatim (GoLib0 := goref) in_order
           (Some (<["Name" := VFloat 5]> ∅)) zero_Meta zero_Meta _ _ fair_in_order).
  by vm_compute.
Defined.

Lemma marker_after_counted_byte_witness :
  json_Indent (GoLib := goref) (lit "{'a b': 1}\n") "" "    "
  = inl (lit "{\n    'a b': 1\n}\n")
  ∧ formatUnmarshallErrorString (GoLib0 := goref) (lit "{'a b': 1}\n") "boom" 7
    = Done (lit "boom at offset 7 (indicated by <==)\n {\n    'a b': 1 <== \n}\n")
  ∧ ∃ pre suf,
      lit "boom at offset 7 (indicated by <==)\n {\n    'a b': 1 <== \n}\n"
      = header "boom" 7 +:+ pre +:+ " <== " +:+ suf
      ∧ len (visible pre) = Z.max 0 7.
Proof.
  split; [by vm_compute|]. split; [by vm_compute|].
  destruct (marker_after_counted_byte (GoLib0 := goref) (lit "{'a b': 1}\n") "boom"
              (lit "{\n    'a b': 1\n}\n") 7
              (lit "boom at offset 7 (indicated by <==)\n {\n    'a b': 1 <== \n}\n"))
    as (pre & suf & Hout & _ & Hlen & _); [by vm_compute|by vm_compute|].
  exists pre, suf. split; [exact Hout|exact Hlen].
Defined.

Lemma formatter_panics_past_counted_bytes_witness :
  json.Indent (lit "{'a b': 1}\n") "" "    " = inl (lit "{\n    'a b': 1\n}\n")
  ∧ len (visible (lit "{'a b': 1}\n")) < 11
  ∧ formatUnmarshallErrorString (GoLib0 := goref) (lit "{'a b': 1}\n") "boom" 11
    = Panic.
Proof.
  split; [by vm_compute|]. split; [by vm_compute|].
  apply (formatter_panics_past_counted_bytes (lit "{'a b': 1}\n") "boom"
           (lit "{\n    'a b': 1\n}\n") 11); by vm_compute.
Defined.

Lemma syntax_error_resolved_witness :
  json.Valid (lit "{'a':}") = false
  ∧ ∃ msg Offset,
      UnmarshalJSON (GoLib0 := goref) in_order zero_Meta (lit "{'a':}")
      = Done (zero_Meta, Some (SyntaxError msg Offset))
      ∧ 0 ≤ Offset ≤ len (lit "{'a':}").
Proof.
  split; [by vm_compute|].
  destruct (syntax_error_resolved in_order zero_Meta (lit "{'a':}"))
    as (msg & Offset & Hdec & Hoff & _); [by vm_compute|].
  exists msg, Offset. split; [exact Hdec|exact Hoff].
Defined.

Lemma formatter_on_valid_document_witness :
  json.Valid (lit "{'a b': 1}\n") = true
  ∧ no_tab_cr (lit "{'a b': 1}\n") = true
  ∧ ∃ pString,
      json.Indent (lit "{'a b': 1}\n") "" "    " = inl pString
      ∧ visible pString = visible (lit "{'a b': 1}\n").
Proof.
  split; [by vm_compute|]. split; [by vm_compute|].
  destruct (formatter_on_valid_document (lit "{'a b': 1}\n") "boom" 7)
    as (pString & Hind & Hvis & _); [by vm_compute|by vm_compute|].
  exists pString. split; [exact Hind|exact Hvis].
Defined.

Lemma raw_document_returns_or_panics_witness :
  json_Indent (GoLib := goref) (lit "{'a':}") "" "    "
  = inr (SyntaxError "invalid character '}' looking for beginning of value" 6)
  ∧ formatUnmarshallErrorString (GoLib0 := goref) (lit "{'a':}") "boom" 7 = Panic.
Proof.
  split; [by vm_compute|].
  rewrite (raw_document_returns_or_panics (GoLib0 := goref) (lit "{'a':}") "boom" 7
             (SyntaxError "invalid character '}' looking for beginning of value" 6));
    by vm_compute.
Defined.

Lemma diagnostic_format_when_returned_witness :
  error_offset (SyntaxError "invalid character '}' looking for beginning of value" 31)
  = Some 31
  ∧ resolveUnmarshalErr (GoLib0 := goref) (lit "{'schema':'olm.bundle','name':}")
      (SyntaxError "invalid character '}' looking for beginning of value" 31)
    = Done (lit "invalid character \'}\' looking for beginning of value at offset 31 (indicated by <==)\n {'schema':'olm.bundle','name':} <== ")
  ∧ ∃ pre suf,
      lit "invalid character \'}\' looking for beginning of value at offset 31 (indicated by <==)\n {'schema':'olm.bundle','name':} <== "
      = "invalid character '}' looking for beginning of value"
        +:+ " at offset " +:+ fmt_d 31 +:+ " (indicated by <==)" +:+ String LF " "
        +:+ pre +:+ " <== " +:+ suf.
Proof.
  split; [done|]. split; [by vm_compute|].
  destruct (diagnostic_format_when_returned (GoLib0 := goref)
              (lit "{'schema':'olm.bundle','name':}")
              (SyntaxError "invalid character '}' looking for beginning of value" 31)
              31
              (lit "invalid character \'}\' looking for beginning of value at offset 31 (indicated by <==)\n {'schema':'olm.bundle','name':} <== "))
    as (pre & suf & Hout & _); [done|by vm_compute|].
  exists pre, suf. exact Hout.
Defined.

(** ** Bytes and UTF-8 *)

Lemma byte_val_range (c : ascii) : 0 ≤ byte_val c < 256.
Proof.
  unfold byte_val. pose proof (N_ascii_bounded c). lia.
Qed.

Lemma byte_val_byte_of (z : Z) : 0 ≤ z < 256 → byte_val (byte_of z) = z.
Proof.
  intros Hz. unfold byte_val, byte_of. rewrite Z.mod_small by done.
  rewrite N_ascii_embedding; lia.
Qed.

Lemma byte_of_byte_val (c : ascii) : byte_of (byte_val c) = c.
Proof.
  unfold byte_val, byte_of. pose proof (N_ascii_bounded c).
  rewrite Z.mod_small by lia. rewrite N2Z.id. apply ascii_N_embedding.
Qed.

Lemma byte_val_inj (c d : ascii) : byte_val c = byte_val d → c = d.
Proof. intros H. by rewrite <- (byte_of_byte_val c), H, byte_of_byte_val. Qed.

Lemma is_byte_val (c d : ascii) : is_byte c d = (byte_val c =? byte_val d).
Proof.
  unfold is_byte. destruct (Ascii.eqb_spec c d) as [->|Hne].
  - by rewrite Z.eqb_refl.
  - symmetry. apply Z.eqb_neq. intros H. by apply Hne, byte_val_inj.
Qed.

Ltac norm_bytes :=
  unfold utf8.cont, DQ, BS, LF, SP in *; unfold in_range in *; rewrite ?is_byte_val in *;
  repeat match goal with
  | |- context [byte_val (Ascii ?a ?b ?c ?d ?e ?f ?g ?h)] =>
      let v := eval vm_compute in (byte_val (Ascii a b c d e f g h)) in
      change (byte_val (Ascii a b c d e f g h)) with v
  | H : context [byte_val (Ascii ?a ?b ?c ?d ?e ?f ?g ?h)] |- _ =>
      let v := eval vm_compute in (byte_val (Ascii a b c d e f g h)) in
      change (byte_val (Ascii a b c d e f g h)) with v in H
  end.

Ltac zlia := Z.div_mod_to_equations; lia.

(** Decide the comparisons of the goal by arithmetic. *)
Ltac zb :=
  repeat match goal with
  | |- context [?a <=? ?b] =>
      first [rewrite (proj2 (Z.leb_le a b)) by zlia
            |rewrite (proj2 (Z.leb_gt a b)) by zlia]
  | |- context [?a <? ?b] =>
      first [rewrite (proj2 (Z.ltb_lt a b)) by zlia
            |rewrite (proj2 (Z.ltb_ge a b)) by zlia]
  | |- context [?a =? ?b] =>
      first [rewrite (proj2 (Z.eqb_eq a b)) by zlia
            |rewrite (proj2 (Z.eqb_neq a b)) by zlia]
  end.

Lemma EncodeRune_ascii (r : Z) :
  0 ≤ r < 128 → utf8.EncodeRune r = str (byte_of r).
Proof. intros Hr. unfold utf8.EncodeRune. by zb. Qed.

(** Decoding the encoding of a scalar value gives it back, with its
    width. *)
Lemma DecodeRune_EncodeRune (r : Z) (s : string) :
  valid_rune r →
  utf8.DecodeRune (utf8.EncodeRune r +:+ s) = (r, len (utf8.EncodeRune r)).
Proof.
  intros [Hr Hsur]. unfold utf8.EncodeRune.
  assert (r < 128 ∨ 128 ≤ r < 2048 ∨ 2048 ≤ r < 55296 ∨ 57343 < r < 65536
          ∨ 65536 ≤ r) as Hcase by lia.
  destruct Hcase as [H|[H|[H|[H|H]]]]; zb; cbn [andb orb negb];
    unfold str; rewrite !append_cons, ?append_nil_l; unfold utf8.DecodeRune;
    norm_bytes; rewrite !byte_val_byte_of by zlia; zb; cbn [andb orb negb].
  - done.
  - f_equal. zlia.
  - destruct (Z.eqb_spec (224 + r / 4096) 224), (Z.eqb_spec (224 + r / 4096) 237);
      zb; cbn [andb]; f_equal; zlia.
  - destruct (Z.eqb_spec (224 + r / 4096) 224), (Z.eqb_spec (224 + r / 4096) 237);
      zb; cbn [andb]; f_equal; zlia.
  - destruct (Z.eqb_spec (240 + r / 262144) 240), (Z.eqb_spec (240 + r / 262144) 244);
      zb; cbn [andb]; f_equal; zlia.
Qed.

Ltac bool_hyps :=
  repeat match goal with
  | H : _ && _ = true |- _ => apply andb_true_iff in H as [? ?]
  | H : (_ <=? _) = true |- _ => apply Z.leb_le in H
  | H : (_ <=? _) = false |- _ => apply Z.leb_gt in H
  | H : (_ <? _) = true |- _ => apply Z.ltb_lt in H
  | H : (_ <? _) = false |- _ => apply Z.ltb_ge in H
  | H : (_ =? _) = true |- _ => apply Z.eqb_eq in H
  | H : (_ =? _) = false |- _ => apply Z.eqb_neq in H
  end.

(** A decoded rune is the replacement character for one byte that does
    not start an encoding, or a scalar value whose encoding the string
    starts with. *)
Lemma DecodeRune_cases (p0 : ascii) (p : string) (rr size : Z) :
  128 ≤ byte_val p0 →
  utf8.DecodeRune (String p0 p) = (rr, size) →
  (rr = utf8.RuneError ∧ size = 1)
  ∨ (valid_rune rr ∧ 128 ≤ rr
     ∧ ∃ rest, String p0 p = utf8.EncodeRune rr +:+ rest
               ∧ size = len (utf8.EncodeRune rr)).
Proof.
  intros Hhigh. unfold utf8.DecodeRune. norm_bytes.
  pose proof (byte_val_range p0) as Hp0.
  destruct (byte_val p0 <? 128) eqn:E0; [apply Z.ltb_lt in E0; lia|].
  repeat case_match; intros [= <- <-]; try (by left); right; bool_hyps; subst;
    repeat match goal with c : ascii |- _ =>
      lazymatch goal with
      | H : 0 ≤ byte_val c < 256 |- _ => fail
      | _ => pose proof (byte_val_range c)
      end end.
  all: try (exfalso; zlia).
  all: unfold valid_rune, utf8.EncodeRune; split; [zlia|]; split; [zlia|];
    eexists;
    try match goal with
        | |- context [55296 <=? ?x] =>
            destruct (Z.leb_spec 55296 x); try (exfalso; zlia)
        end;
    zb; cbn [andb orb negb]; unfold str; rewrite !append_cons, append_nil_l;
    (split; [|reflexivity]).
  all: repeat (f_equal; try (apply byte_val_inj; rewrite byte_val_byte_of by zlia; zlia)).
Qed.

(** ** Runs of the scanner *)

Section scan_run_facts.
Import scanner scanner_facts.

Lemma scan_run_app (a b : string) (σ : scanner.t) :
  scan_run (a +:+ b) σ = scan_run a σ ≫= scan_run b.
Proof.
  revert σ. induction a as [|c a IH]; intros σ; [done|].
  rewrite append_cons. simpl.
  destruct (step_fn (incr_bytes σ) c) as [σ' op].
  by destruct (opcode_eqb op scanError).
Qed.

Lemma scan_run_app_Some (a b : string) (σ σe : scanner.t) :
  scan_run (a +:+ b) σ = Some σe →
  ∃ σ1, scan_run a σ = Some σ1 ∧ scan_run b σ1 = Some σe.
Proof.
  rewrite scan_run_app. destruct (scan_run a σ) as [σ1|]; [|done].
  intros ?. by exists σ1.
Qed.

Lemma scanning_incr (σ : scanner.t) st ps :
  scanning σ st ps → scanning (incr_bytes σ) st ps.
Proof. by destruct σ. Qed.

(** One step from a known state. *)
Lemma scan_run_cons (c : ascii) (s : string) (σ σ' : scanner.t) (op : opcode) :
  step_fn (incr_bytes σ) c = (σ', op) → op ≠ scanError →
  scan_run (String c s) σ = scan_run s σ'.
Proof. simpl. intros -> Hop. by destruct op. Qed.

Lemma scan_run_cons_error (c : ascii) (s : string) (σ σ' : scanner.t) :
  step_fn (incr_bytes σ) c = (σ', scanError) →
  scan_run (String c s) σ = None.
Proof. simpl. by intros ->. Qed.

(** Inside a string, a byte that is no quote, no backslash and no control
    character leaves the scanner where it is. *)
Lemma step_in_string (σ : scanner.t) (ps : list parse_state) (c : ascii) :
  scanning σ StateInString ps →
  is_byte c DQ = false → is_byte c BS = false → 32 ≤ byte_val c →
  ∃ σ', step_fn (incr_bytes σ) c = (σ', scanContinue)
        ∧ scanning σ' StateInString ps.
Proof.
  destruct σ as [st et ps' e b]. intros (Hst & Hps & He & Het) HDQ HBS Hc.
  simpl in *. subst. unfold step_fn, stateInString. simpl.
  rewrite HDQ, HBS. rewrite (proj2 (Z.ltb_ge _ _)) by done.
  eexists. split; [done|]. done.
Qed.

Lemma high_not_special (c : ascii) :
  128 ≤ byte_val c → is_byte c DQ = false ∧ is_byte c BS = false ∧ 32 ≤ byte_val c.
Proof.
  intros Hc. rewrite !is_byte_val. norm_bytes.
  split_and!; [apply Z.eqb_neq; lia|apply Z.eqb_neq; lia|lia].
Qed.

Lemma scan_run_high (c : ascii) (s : string) (σ : scanner.t) ps :
  scanning σ StateInString ps → 128 ≤ byte_val c →
  ∃ σ', scan_run (String c s) σ = scan_run s σ' ∧ scanning σ' StateInString ps.
Proof.
  intros Hσ (HDQ & HBS & Hc)%high_not_special.
  destruct (step_in_string σ ps c Hσ HDQ HBS Hc) as (σ' & Hstep & Hσ').
  exists σ'. split; [|done]. by apply (scan_run_cons _ _ _ _ _ Hstep).
Qed.
End scan_run_facts.

(** ** The encoding of strings *)

Section string_codec.
Import scanner scanner_facts.

Lemma safeSet_spec (b : ascii) :
  encode.safeSet b = true →
  is_byte b DQ = false ∧ is_byte b BS = false ∧ 32 ≤ byte_val b.
Proof.
  unfold encode.safeSet. intros H.
  apply andb_true_iff in H as [H HBS]. apply andb_true_iff in H as [H HDQ].
  apply negb_true_iff in HBS, HDQ. apply Z.leb_le in H. done.
Qed.

Lemma htmlSafeSet_safeSet (b : ascii) :
  encode.htmlSafeSet b || (negb false && encode.safeSet b) = encode.safeSet b.
Proof.
  unfold encode.htmlSafeSet. destruct (encode.safeSet b); simpl; [|done].
  apply orb_true_r.
Qed.

(** The encoding of a scalar value from 0x80 on: two bytes or more, all
    from 0x80 on. *)
Lemma EncodeRune_high (r : Z) :
  valid_rune r → 128 ≤ r →
  ∃ c t, utf8.EncodeRune r = String c t ∧ 128 ≤ byte_val c
         ∧ 2 ≤ len (utf8.EncodeRune r)
         ∧ ∀ (X : string) (σ : scanner.t) ps,
             scanning σ StateInString ps →
             ∃ σ', scan_run (utf8.EncodeRune r +:+ X) σ = scan_run X σ'
                   ∧ scanning σ' StateInString ps.
Proof.
  intros [Hr Hsur] Hhigh. unfold utf8.EncodeRune.
  assert (128 ≤ r < 2048 ∨ 2048 ≤ r < 55296 ∨ 57343 < r < 65536
          ∨ 65536 ≤ r) as Hcase by lia.
  destruct Hcase as [H|[H|[H|H]]]; zb; cbn [andb orb negb]; unfold str;
    eexists _, _; (split; [reflexivity|]);
    (split; [rewrite byte_val_byte_of by zlia; zlia|]);
    (split; [done|]); intros X σ ps Hσ; rewrite !append_cons, append_nil_l.
  - destruct (scan_run_high (byte_of (192 + r / 64))
                (String (byte_of (128 + r mod 64)) X) σ ps Hσ)
      as (σ1 & -> & Hσ1); [rewrite byte_val_byte_of by zlia; zlia|].
    apply scan_run_high; [done|]. rewrite byte_val_byte_of by zlia; zlia.
  - destruct (scan_run_high (byte_of (224 + r / 4096))
                (String (byte_of (128 + (r / 64) mod 64))
                   (String (byte_of (128 + r mod 64)) X)) σ ps Hσ)
      as (σ1 & -> & Hσ1); [rewrite byte_val_byte_of by zlia; zlia|].
    destruct (scan_run_high (byte_of (128 + (r / 64) mod 64))
                (String (byte_of (128 + r mod 64)) X) σ1 ps Hσ1)
      as (σ2 & -> & Hσ2); [rewrite byte_val_byte_of by zlia; zlia|].
    apply scan_run_high; [done|]. rewrite byte_val_byte_of by zlia; zlia.
  - destruct (scan_run_high (byte_of (224 + r / 4096))
                (String (byte_of (128 + (r / 64) mod 64))
                   (String (byte_of (128 + r mod 64)) X)) σ ps Hσ)
      as (σ1 & -> & Hσ1); [rewrite byte_val_byte_of by zlia; zlia|].
    destruct (scan_run_high (byte_of (128 + (r / 64) mod 64))
                (String (byte_of (128 + r mod 64)) X) σ1 ps Hσ1)
      as (σ2 & -> & Hσ2); [rewrite byte_val_byte_of by zlia; zlia|].
    apply scan_run_high; [done|]. rewrite byte_val_byte_of by zlia; zlia.
  - destruct (scan_run_high (byte_of (240 + r / 262144))
                (String (byte_of (128 + (r / 4096) mod 64))
                   (String (byte_of (128 + (r / 64) mod 64))
                      (String (byte_of (128 + r mod 64)) X))) σ ps Hσ)
      as (σ1 & -> & Hσ1); [rewrite byte_val_byte_of by zlia; zlia|].
    destruct (scan_run_high (byte_of (128 + (r / 4096) mod 64))
                (String (byte_of (128 + (r / 64) mod 64))
                   (String (byte_of (128 + r mod 64)) X)) σ1 ps Hσ1)
      as (σ2 & -> & Hσ2); [rewrite byte_val_byte_of by zlia; zlia|].
    destruct (scan_run_high (byte_of (128 + (r / 64) mod 64))
                (String (byte_of (128 + r mod 64)) X) σ2 ps Hσ2)
      as (σ3 & -> & Hσ3); [rewrite byte_val_byte_of by zlia; zlia|].
    apply scan_run_high; [done|]. rewrite byte_val_byte_of by zlia; zlia.
Qed.
End string_codec.

Section string_codec2.
Import scanner scanner_facts.

Lemma esc_byte_scan (b : ascii) (X : string) (σ : scanner.t) ps :
  byte_val b < 128 → scanning σ StateInString ps →
  ∃ σ', scan_run (esc_byte b +:+ X) σ = scan_run X σ'
        ∧ scanning σ' StateInString ps.
Proof.
  intros Hb Hσ. unfold esc_byte. destruct (encode.safeSet b) eqn:Hsafe.
  { apply safeSet_spec in Hsafe as (HDQ & HBS & Hc).
    destruct (step_in_string σ ps b Hσ HDQ HBS Hc) as (σ' & Hstep & Hσ').
    exists σ'. split; [|done]. unfold str. rewrite append_cons, append_nil_l.
    by apply (scan_run_cons _ _ _ _ _ Hstep). }
  destruct σ as [st et ps' e n]. destruct Hσ as (Hst & Hps & He & Het).
  simpl in *. subst.
  destruct b as [[] [] [] [] [] [] [] []]; vm_compute in Hsafe; try discriminate;
    cbn; (eexists; split; [reflexivity|done]).
Qed.

Lemma esc_byte_unquote (b : ascii) (X : string) (fuel : nat) :
  byte_val b < 128 →
  decode.unquote (S fuel) (esc_byte b +:+ X)
  = decode.cons_bytes (str b) (decode.unquote fuel X).
Proof.
  intros Hb. unfold esc_byte. destruct (encode.safeSet b) eqn:Hsafe.
  { apply safeSet_spec in Hsafe as (HDQ & HBS & Hc).
    unfold str. rewrite append_cons, append_nil_l. cbn [decode.unquote].
    rewrite HDQ, HBS. rewrite (proj2 (Z.ltb_ge _ _)) by done.
    by rewrite (proj2 (Z.ltb_lt _ _)) by done. }
  destruct b as [[] [] [] [] [] [] [] []]; vm_compute in Hsafe; try discriminate;
    reflexivity.
Qed.
End string_codec2.

Section string_codec3.
Import scanner scanner_facts.

Lemma esc_rune_scan (r : Z) (X : string) (σ : scanner.t) ps :
  valid_rune r → scanning σ StateInString ps →
  ∃ σ', scan_run (esc_rune r +:+ X) σ = scan_run X σ'
        ∧ scanning σ' StateInString ps.
Proof.
  intros Hr Hσ. unfold esc_rune.
  destruct (Z.ltb_spec r 128) as [Hlt|Hge].
  { apply esc_byte_scan; [|done]. destruct Hr as [Hr _].
    rewrite byte_val_byte_of; lia. }
  destruct (Z.eqb_spec r 8232) as [->|H1]; [|destruct (Z.eqb_spec r 8233) as [->|H2]].
  - destruct σ as [st et ps' e n]. destruct Hσ as (Hst & Hps & He & Het).
    simpl in *. subst. cbn. eexists. split; [reflexivity|done].
  - destruct σ as [st et ps' e n]. destruct Hσ as (Hst & Hps & He & Het).
    simpl in *. subst. cbn. eexists. split; [reflexivity|done].
  - simpl. destruct (EncodeRune_high r Hr Hge) as (c & t & _ & _ & _ & Hrun).
    by apply Hrun.
Qed.

Lemma esc_rune_unquote (r : Z) (X : string) (fuel : nat) :
  valid_rune r →
  decode.unquote (S fuel) (esc_rune r +:+ X)
  = decode.cons_bytes (utf8.EncodeRune r) (decode.unquote fuel X).
Proof.
  intros Hr. unfold esc_rune.
  destruct (Z.ltb_spec r 128) as [Hlt|Hge].
  { destruct Hr as [Hr _]. rewrite esc_byte_unquote by (rewrite byte_val_byte_of; lia).
    by rewrite EncodeRune_ascii by lia. }
  destruct (Z.eqb_spec r 8232) as [->|H1]; [|destruct (Z.eqb_spec r 8233) as [->|H2]];
    [reflexivity|reflexivity|].
  simpl. destruct (EncodeRune_high r Hr Hge) as (c & t & Heq & Hc & Hlen & _).
  pose proof (DecodeRune_EncodeRune r X Hr) as Hdec.
  rewrite Heq in Hdec |- *. rewrite append_cons in Hdec |- *.
  destruct (high_not_special c Hc) as (HDQ & HBS & H32).
  cbn [decode.unquote]. rewrite HDQ, HBS.
  rewrite (proj2 (Z.ltb_ge _ _)) by done.
  rewrite (proj2 (Z.ltb_ge (byte_val c) 128)) by done.
  rewrite Hdec. rewrite <- append_cons, <- Heq.
  replace (Z.to_nat (len (utf8.EncodeRune r)))
    with (String.length (utf8.EncodeRune r)) by (unfold len; lia).
  by rewrite drop_bytes_append.
Qed.

(** [appendString] writes a valid string rune by rune. *)
Lemma appendString_loop_rune (r : Z) (s : string) (fuel : nat) :
  valid_rune r →
  encode.appendString_loop (S fuel) (utf8.EncodeRune r +:+ s) false
  = esc_rune r +:+ encode.appendString_loop fuel s false.
Proof.
  intros Hr. unfold esc_rune.
  destruct (Z.ltb_spec r 128) as [Hlt|Hge].
  { destruct Hr as [Hr _]. rewrite EncodeRune_ascii by lia.
    unfold str. rewrite append_cons, append_nil_l. cbn [encode.appendString_loop].
    rewrite byte_val_byte_of by lia. rewrite (proj2 (Z.ltb_lt _ _)) by done.
    unfold esc_byte. rewrite htmlSafeSet_safeSet.
    rewrite byte_val_byte_of by lia. done. }
  destruct (EncodeRune_high r Hr Hge) as (c & t & Heq & Hc & Hlen & _).
  pose proof (DecodeRune_EncodeRune r s Hr) as Hdec.
  rewrite Heq in Hdec |- *. rewrite append_cons in Hdec |- *.
  cbn [encode.appendString_loop].
  rewrite (proj2 (Z.ltb_ge (byte_val c) 128)) by done.
  rewrite Hdec. rewrite <- !append_cons, <- !Heq.
  replace (Z.to_nat (len (utf8.EncodeRune r)))
    with (String.length (utf8.EncodeRune r)) by (unfold len; lia).
  rewrite drop_bytes_append, take_bytes_append.
  rewrite (proj2 (Z.eqb_neq (len (utf8.EncodeRune r)) 1)) by lia.
  rewrite andb_false_r.
  by destruct (Z.eqb_spec r 8232), (Z.eqb_spec r 8233).
Qed.

Lemma length_esc_rune_pos (r : Z) :
  valid_rune r → (1 ≤ String.length (esc_rune r))%nat.
Proof.
  intros Hr. unfold esc_rune, esc_byte.
  destruct (Z.ltb_spec r 128) as [Hlt|Hge].
  - repeat case_match; simpl; lia.
  - destruct (EncodeRune_high r Hr Hge) as (c & t & Heq & _).
    repeat case_match; rewrite ?Heq; simpl; lia.
Qed.
End string_codec3.

Section string_codec4.
Import scanner scanner_facts.

Lemma length_EncodeRune_pos (r : Z) : (1 ≤ String.length (utf8.EncodeRune r))%nat.
Proof. unfold utf8.EncodeRune. repeat case_match; simpl; lia. Qed.

(** What [appendString] writes for a valid string is read by the scanner
    as the inside of a string, and [unquote] gives the string back. *)
Lemma appendString_loop_valid (t : string) :
  utf8_valid t →
  ∀ fuel : nat, (String.length t ≤ fuel)%nat →
    (∀ (X : string) (σ : scanner.t) ps,
       scanning σ StateInString ps →
       ∃ σ', scan_run (encode.appendString_loop fuel t false +:+ X) σ
             = scan_run X σ'
             ∧ scanning σ' StateInString ps)
    ∧ (∀ (fuel' : nat) (X : string),
         (String.length (encode.appendString_loop fuel t false) < fuel')%nat →
         decode.unquote fuel' (encode.appendString_loop fuel t false +:+ String DQ X)
         = Some (t, X)).
Proof.
  induction 1 as [|r s Hr Hs IH]; intros fuel Hfuel.
  { assert (encode.appendString_loop fuel "" false = "") as -> by by destruct fuel.
    split.
    - intros X σ ps Hσ. by exists σ.
    - intros [|fuel'] X Hlen; [simpl in Hlen; lia|]. done. }
  rewrite length_append in Hfuel. pose proof (length_EncodeRune_pos r).
  destruct fuel as [|fuel]; [lia|]. rewrite (appendString_loop_rune r s fuel Hr).
  destruct (IH fuel) as [IHscan IHunq]; [lia|]. split.
  - intros X σ ps Hσ. rewrite append_assoc.
    destruct (esc_rune_scan r (encode.appendString_loop fuel s false +:+ X) σ ps Hr Hσ)
      as (σ1 & -> & Hσ1).
    by apply IHscan.
  - intros fuel' X Hlen. rewrite length_append in Hlen.
    pose proof (length_esc_rune_pos r Hr).
    destruct fuel' as [|fuel']; [lia|].
    rewrite append_assoc, (esc_rune_unquote r _ fuel' Hr), IHunq by lia. done.
Qed.

Lemma appendString_scan (t X : string) (σ : scanner.t) ps :
  utf8_valid t → scanning σ StateInString ps →
  ∃ σ', scan_run (encode.appendString_loop (String.length t) t false
                  +:+ String DQ X) σ
        = scan_run X σ'
        ∧ scanning σ' StateEndValue ps.
Proof.
  intros Ht Hσ.
  destruct (appendString_loop_valid t Ht (String.length t)) as [Hscan _]; [done|].
  destruct (Hscan (String DQ X) σ ps Hσ) as (σ1 & -> & Hσ1).
  destruct σ1 as [st et ps' e n]. destruct Hσ1 as (Hst & Hps & He & Het).
  simpl in *. subst. cbn. eexists. split; [reflexivity|done].
Qed.

Lemma appendString_unquote (t X : string) (fuel : nat) :
  utf8_valid t →
  (String.length (encode.appendString_loop (String.length t) t false) < fuel)%nat →
  decode.unquote fuel (encode.appendString_loop (String.length t) t false
                       +:+ String DQ X)
  = Some (t, X).
Proof.
  intros Ht Hlen.
  destruct (appendString_loop_valid t Ht (String.length t)) as [_ Hunq]; [done|].
  by apply Hunq.
Qed.
End string_codec4.

(** ** The encoding of numbers *)

Section number_codec.
Import scanner scanner_facts.

Lemma pretty_N_go_app (x : N) (s : string) :
  pretty_N_go x s = pretty_N_go x "" +:+ s.
Proof.
  revert s. induction (N.lt_wf_0 x) as [x _ IH]; intros s.
  destruct (decide (x = 0)%N) as [->|Hx]; [by rewrite !pretty_N_go_0|].
  assert (x `div` 10 < x)%N as Hlt by (apply N.div_lt; lia).
  rewrite !(pretty_N_go_step x) by lia.
  rewrite (IH _ Hlt (String _ s)), (IH _ Hlt (String _ "")).
  by rewrite append_assoc.
Qed.

Lemma pretty_N_go_snoc (x : N) :
  (0 < x)%N →
  pretty_N_go x "" = pretty_N_go (x `div` 10) "" +:+ str (pretty_N_char (x `mod` 10)).
Proof. intros Hx. by rewrite pretty_N_go_step, pretty_N_go_app. Qed.

Lemma pretty_N_char_digit (d : N) :
  (d < 10)%N →
  isDigit (pretty_N_char d) = true ∧ byte_val (pretty_N_char d) - 48 = Z.of_N d
  ∧ (is_byte (pretty_N_char d) "0" = true ↔ d = 0%N).
Proof.
  intros Hd.
  assert (d = 0 ∨ d = 1 ∨ d = 2 ∨ d = 3 ∨ d = 4 ∨ d = 5 ∨ d = 6 ∨ d = 7
          ∨ d = 8 ∨ d = 9)%N as Hcases by lia.
  repeat destruct Hcases as [->|Hcases]; try subst d; by vm_compute.
Qed.

Lemma digits_val_snoc (a : string) (d : ascii) (acc : Z) :
  decode.digits_val acc (a +:+ str d)
  = v ← decode.digits_val acc a;
    if isDigit d then Some (v * 10 + (byte_val d - 48)) else None.
Proof.
  revert acc. induction a as [|c a IH]; intros acc.
  - rewrite append_nil_l. simpl. by destruct (isDigit d).
  - rewrite append_cons. simpl. destruct (isDigit c); [apply IH|done].
Qed.

Lemma digits_val_pretty_N_go (x : N) :
  decode.digits_val 0 (pretty_N_go x "") = Some (Z.of_N x).
Proof.
  induction (N.lt_wf_0 x) as [x _ IH].
  destruct (decide (x = 0)%N) as [->|Hx]; [done|].
  rewrite pretty_N_go_snoc, digits_val_snoc by lia.
  rewrite IH by (apply N.div_lt; lia). simpl.
  destruct (pretty_N_char_digit (x `mod` 10)) as (-> & -> & _);
    [apply N.mod_lt; lia|].
  f_equal. rewrite (N.div_mod x 10) at 3 by lia. lia.
Qed.

(** The digits of a positive number start with a digit other than 0. *)
Lemma pretty_N_go_head (x : N) :
  (0 < x)%N →
  ∃ c t, pretty_N_go x "" = String c t ∧ in_range "1" "9" c = true.
Proof.
  induction (N.lt_wf_0 x) as [x _ IH]. intros Hx.
  rewrite pretty_N_go_snoc by done.
  destruct (decide (x `div` 10 = 0)%N) as [Hz|Hnz].
  - rewrite Hz, pretty_N_go_0, append_nil_l. eexists _, _. split; [done|].
    pose proof (N.div_mod x 10 ltac:(lia)) as Hdm.
    pose proof (N.mod_lt x 10 ltac:(lia)) as Hm.
    assert (x `mod` 10 = x)%N as -> by lia.
    assert (x = 1 ∨ x = 2 ∨ x = 3 ∨ x = 4 ∨ x = 5 ∨ x = 6 ∨ x = 7
            ∨ x = 8 ∨ x = 9)%N as Hcases by lia.
    clear -Hcases.
    repeat destruct Hcases as [->|Hcases]; try subst x; by vm_compute.
  - destruct (IH (x `div` 10)%N) as (c & t & -> & Hc);
      [apply N.div_lt; lia|by apply N.neq_0_lt_0|].
    rewrite append_cons. by eexists _, _.
Qed.
End number_codec.

Section number_codec2.
Import scanner scanner_facts.

Lemma scan_digits (x : N) :
  (0 < x)%N →
  ∀ (X : string) (σ : scanner.t) ps,
    scanning σ StateBeginValue ps ∨ scanning σ StateNeg ps →
    ∃ σ', scan_run (pretty_N_go x "" +:+ X) σ = scan_run X σ'
          ∧ scanning σ' State1 ps.
Proof.
  induction (N.lt_wf_0 x) as [x _ IH]. intros Hx X σ ps Hσ.
  rewrite pretty_N_go_snoc by done.
  pose proof (N.div_mod x 10 ltac:(lia)) as Hdm.
  pose proof (N.mod_lt x 10 ltac:(lia)) as Hm.
  destruct (decide (x `div` 10 = 0)%N) as [Hz|Hnz].
  - rewrite Hz, pretty_N_go_0, append_nil_l.
    assert (x `mod` 10 = x)%N as -> by lia.
    assert (x = 1 ∨ x = 2 ∨ x = 3 ∨ x = 4 ∨ x = 5 ∨ x = 6 ∨ x = 7
            ∨ x = 8 ∨ x = 9)%N as Hcases by lia.
    clear -Hcases Hσ.
    destruct σ as [st et ps' e n].
    destruct Hσ as [(Hst & Hps & He & Het)|(Hst & Hps & He & Het)];
      simpl in *; subst;
      repeat destruct Hcases as [->|Hcases]; try subst x;
      cbn; (eexists; split; [reflexivity|done]).
  - rewrite append_assoc.
    destruct (IH (x `div` 10)%N) with (X := str (pretty_N_char (x `mod` 10)) +:+ X)
                                     (σ := σ) (ps := ps)
      as (σ1 & -> & Hσ1); [apply N.div_lt; lia|by apply N.neq_0_lt_0|done|].
    generalize dependent (x `mod` 10)%N. intros d _ Hd.
    assert (d = 0 ∨ d = 1 ∨ d = 2 ∨ d = 3 ∨ d = 4 ∨ d = 5 ∨ d = 6 ∨ d = 7
            ∨ d = 8 ∨ d = 9)%N as Hcases by lia.
    clear -Hcases Hσ1.
    destruct σ1 as [st et ps' e n]. destruct Hσ1 as (Hst & Hps & He & Het).
    simpl in *. subst.
    repeat destruct Hcases as [->|Hcases]; try subst d;
      cbn; (eexists; split; [reflexivity|done]).
Qed.

Lemma number_extent_delimited (rest : string) :
  delimited rest → decode.number_extent rest = (EmptyString, rest).
Proof. intros (c & rest' & -> & [-> | [-> | ->]]); done. Qed.

Lemma number_extent_digits (a rest : string) (acc v : Z) :
  decode.digits_val acc a = Some v → delimited rest →
  decode.number_extent (a +:+ rest) = (a, rest).
Proof.
  intros Hd Hrest. revert acc Hd. induction a as [|c a IH]; intros acc Hd.
  - rewrite append_nil_l. by apply number_extent_delimited.
  - rewrite append_cons. simpl in *. destruct (isDigit c); [|done].
    simpl. by rewrite (IH _ Hd).
Qed.

Lemma number_start (c : ascii) :
  isDigit c = true ∨ c = "-"%char →
  isSpace c = false ∧ is_byte c "{" = false ∧ is_byte c "[" = false
  ∧ is_byte c DQ = false ∧ is_byte c "n" = false ∧ is_byte c "t" = false
  ∧ is_byte c "f" = false.
Proof.
  intros [Hc| ->]; [|by vm_compute].
  unfold isDigit, isSpace in *. norm_bytes.
  apply andb_true_iff in Hc as [H1 H2]. apply Z.leb_le in H1, H2.
  split_and!; rewrite ?orb_false_iff; repeat split; apply Z.eqb_neq; lia.
Qed.

Lemma digit_1_9 (c : ascii) :
  in_range "1" "9" c = true → isDigit c = true ∧ is_byte c "-" = false.
Proof.
  unfold isDigit. norm_bytes. intros H.
  apply andb_true_iff in H as [H1 H2]. apply Z.leb_le in H1, H2.
  split; [apply andb_true_iff; split; apply Z.leb_le; lia|apply Z.eqb_neq; lia].
Qed.

Lemma pretty_Zpos (p : positive) :
  pretty (Z.pos p) = pretty_N_go (N.pos p) "".
Proof. done. Qed.

Lemma pretty_Zneg (p : positive) :
  pretty (Z.neg p) = String "-" (pretty_N_go (N.pos p) "").
Proof. done. Qed.

(** The decimal digits of an integer, as the scanner and the decoder
    read them. *)
Lemma accepted_number (ps : list parse_state) (z : Z) : accepted ps (VFloat z).
Proof.
  intros X σ Hσ. cbn [encode.encode_value]. unfold strconv.Itoa.
  destruct z as [|p|p].
  - destruct σ as [st et ps' e n]. destruct Hσ as (Hst & Hps & He & Het).
    simpl in *. subst. cbn. eexists. split; [reflexivity|].
    split_and!; try done. by right; left.
  - rewrite pretty_Zpos.
    destruct (scan_digits (N.pos p) ltac:(lia) X σ ps) as (σ' & -> & Hσ');
      [by left|].
    exists σ'. split; [done|]. destruct Hσ' as (? & ? & ? & ?).
    split_and!; try done. by right; right.
  - rewrite pretty_Zneg, append_cons.
    assert (∃ σ1, scan_run (String "-" (pretty_N_go (N.pos p) "" +:+ X)) σ
                  = scan_run (pretty_N_go (N.pos p) "" +:+ X) σ1
                  ∧ scanning σ1 StateNeg ps) as (σ1 & -> & Hσ1).
    { destruct σ as [st et ps' e n]. destruct Hσ as (Hst & Hps & He & Het).
      simpl in *. subst. cbn. eexists. split; [reflexivity|done]. }
    destruct (scan_digits (N.pos p) ltac:(lia) X σ1 ps) as (σ' & -> & Hσ');
      [by right|].
    exists σ'. split; [done|]. destruct Hσ' as (? & ? & ? & ?).
    split_and!; try done. by right; right.
Qed.

Lemma parses_number (z : Z) :
  - 9007199254740992 ≤ z ≤ 9007199254740992 → parses (VFloat z).
Proof.
  intros Hz fuel rest Hfuel Hrest. cbn [encode.encode_value] in *.
  unfold strconv.Itoa in *.
  destruct z as [|p|p].
  - destruct fuel as [|fuel]; [simpl in Hfuel; lia|].
    destruct Hrest as (c & rest' & -> & [-> | [-> | ->]]); reflexivity.
  - rewrite pretty_Zpos in *.
    destruct (pretty_N_go_head (N.pos p) ltac:(lia)) as (c & t & Heq & Hc).
    pose proof (digits_val_pretty_N_go (N.pos p)) as Hval.
    pose proof (number_extent_digits _ rest _ _ Hval Hrest) as Hext.
    rewrite Heq in Hfuel, Hval, Hext |- *. rewrite append_cons in Hext |- *.
    destruct (digit_1_9 c Hc) as [Hdig Hminus].
    destruct (number_start c (or_introl Hdig)) as (H1 & H2 & H3 & H4 & H5 & H6 & H7).
    destruct fuel as [|fuel]; [simpl in Hfuel; lia|].
    cbn [decode.valueInterface decode.skip_space]. rewrite H1, H2, H3, H4, H5, H6, H7.
    rewrite Hext. unfold decode.convertNumber. rewrite Hminus, Hval.
    cbn [andb]. rewrite (proj2 (Z.ltb_ge _ _)) by lia. done.
  - rewrite pretty_Zneg in *.
    pose proof (digits_val_pretty_N_go (N.pos p)) as Hval.
    pose proof (number_extent_digits _ rest _ _ Hval Hrest) as Hext.
    rewrite append_cons.
    destruct (number_start "-" (or_intror eq_refl)) as (H1 & H2 & H3 & H4 & H5 & H6 & H7).
    destruct fuel as [|fuel]; [simpl in Hfuel; lia|].
    cbn [decode.valueInterface decode.skip_space]. rewrite H1, H2, H3, H4, H5, H6, H7.
    cbn [decode.number_extent].
    change (isDigit "-" || is_byte "-" "-" || is_byte "-" "+" || is_byte "-" "."
            || is_byte "-" "e" || is_byte "-" "E") with true. cbv iota.
    rewrite Hext. unfold decode.convertNumber.
    change (is_byte "-" "-") with true. cbv iota.
    rewrite Hval. cbn [andb].
    rewrite (proj2 (Z.eqb_neq _ _)) by lia.
    rewrite (proj2 (Z.ltb_ge _ _)) by lia. cbn [orb]. done.
Qed.
End number_codec2.

(** ** Values the scanner accepts and the decoder reads back *)

Section good_values.
Import scanner scanner_facts.

Lemma substring_app (w rest : string) :
  substring 0 (String.length w) (w +:+ rest) = w.
Proof.
  induction w as [|c w IH]; [by destruct rest|].
  rewrite append_cons. simpl. by rewrite IH.
Qed.

Lemma expect_app (w rest : string) : decode.expect w (w +:+ rest) = Some rest.
Proof.
  unfold decode.expect.
  rewrite (proj2 (prefix_correct w (w +:+ rest)) (substring_app w rest)).
  by rewrite drop_bytes_append.
Qed.

Lemma good_nil (ps : list parse_state) : good ps VNil.
Proof.
  split.
  - intros X σ Hσ. destruct σ as [st et ps' e n].
    destruct Hσ as (Hst & Hps & He & Het). simpl in *. subst. cbn.
    eexists. split; [reflexivity|]. split_and!; try done. by left.
  - intros [|fuel] rest Hfuel Hrest; [simpl in Hfuel; lia|].
    cbn [encode.encode_value]. rewrite append_cons. cbn.
    by rewrite (expect_app "ull" rest).
Qed.

Lemma good_bool (ps : list parse_state) (b : bool) : good ps (VBool b).
Proof.
  split.
  - intros X σ Hσ. destruct σ as [st et ps' e n].
    destruct Hσ as (Hst & Hps & He & Het). simpl in *. subst.
    destruct b; cbn; (eexists; split; [reflexivity|]); split_and!; try done;
      by left.
  - intros [|fuel] rest Hfuel Hrest; [destruct b; simpl in Hfuel; lia|].
    destruct b; cbn [encode.encode_value]; rewrite append_cons; cbn.
    + by rewrite (expect_app "rue" rest).
    + by rewrite (expect_app "alse" rest).
Qed.

Lemma good_number (ps : list parse_state) (z : Z) :
  - 9007199254740992 ≤ z ≤ 9007199254740992 → good ps (VFloat z).
Proof. intros Hz. split; [apply accepted_number|by apply parses_number]. Qed.

Lemma good_string (ps : list parse_state) (t : string) :
  utf8_valid t → good ps (VString t).
Proof.
  intros Ht. split.
  - intros X σ Hσ. cbn [encode.encode_value]. unfold encode.appendString, str.
    rewrite !append_assoc, append_cons, append_nil_l.
    assert (∃ σ1, scan_run (String DQ
                    (encode.appendString_loop (String.length t) t false
                     +:+ String DQ "" +:+ X)) σ
                  = scan_run (encode.appendString_loop (String.length t) t false
                              +:+ String DQ "" +:+ X) σ1
                  ∧ scanning σ1 StateInString ps) as (σ1 & -> & Hσ1).
    { destruct σ as [st et ps' e n]. destruct Hσ as (Hst & Hps & He & Het).
      simpl in *. subst. cbn. eexists. split; [reflexivity|done]. }
    rewrite append_cons, append_nil_l.
    destruct (appendString_scan t X σ1 ps Ht Hσ1) as (σ2 & -> & Hσ2).
    exists σ2. split; [done|]. destruct Hσ2 as (? & ? & ? & ?).
    split_and!; try done. by left.
  - intros fuel rest Hfuel Hrest. cbn [encode.encode_value] in *.
    unfold encode.appendString, str in *.
    rewrite !append_assoc, append_cons, append_nil_l.
    rewrite append_cons, append_nil_l.
    rewrite append_cons, append_nil_l in Hfuel.
    cbn [String.length] in Hfuel. rewrite length_append in Hfuel.
    destruct fuel as [|fuel]; [lia|].
    cbn [decode.valueInterface decode.skip_space].
    change (isSpace DQ) with false. cbv iota.
    change (is_byte DQ "{") with false. change (is_byte DQ "[") with false.
    change (is_byte DQ DQ) with true. cbv iota.
    rewrite appendString_unquote; [done|done|].
    rewrite length_append. simpl. lia.
Qed.

(** An encoding starts with a byte that is no white space and closes
    nothing. *)
Lemma encode_value_head (v : value Z) :
  ∃ c t, encode.encode_value false v = String c t
         ∧ isSpace c = false ∧ is_byte c "]" = false ∧ is_byte c "}" = false.
Proof.
  destruct v as [|b|z|t|l|m]; cbn [encode.encode_value].
  - by eexists _, _.
  - destruct b; by eexists _, _.
  - unfold strconv.Itoa. destruct z as [|p|p].
    + by eexists _, _.
    + rewrite pretty_Zpos.
      destruct (pretty_N_go_head (N.pos p) ltac:(lia)) as (c & t & -> & Hc).
      exists c, t. split; [done|]. destruct (digit_1_9 c Hc) as [Hd _].
      destruct (number_start c (or_introl Hd)) as (-> & _).
      unfold isDigit in Hd. norm_bytes.
      apply andb_true_iff in Hd as [H1 H2]. apply Z.leb_le in H1, H2.
      split_and!; [done|apply Z.eqb_neq; lia|apply Z.eqb_neq; lia].
    + rewrite pretty_Zneg. by eexists _, _.
  - unfold encode.appendString, str. rewrite append_cons. by eexists _, _.
  - rewrite append_cons. by eexists _, _.
  - rewrite append_cons. by eexists _, _.
Qed.
End good_values.

(** ** Arrays and objects *)

Ltac known_state σ H :=
  let st := fresh "st" in let et := fresh "et" in let ps := fresh "ps" in
  let e := fresh "e" in let n := fresh "n" in
  destruct σ as [st et ps e n];
  let Hst := fresh "Hst" in let Hps := fresh "Hps" in
  let He := fresh "He" in let Het := fresh "Het" in
  destruct H as (Hst & Hps & He & Het); simpl in Hst, Hps, He, Het; subst.

Ltac known_ended σ H :=
  let st := fresh "st" in let et := fresh "et" in let ps := fresh "ps" in
  let e := fresh "e" in let n := fresh "n" in
  destruct σ as [st et ps e n];
  let Hst := fresh "Hst" in let Hps := fresh "Hps" in
  let He := fresh "He" in let Het := fresh "Het" in
  destruct H as (Hps & He & Het & [Hst|[Hst|Hst]]);
  simpl in Hst, Hps, He, Het; subst.

Section containers.
Import scanner scanner_facts.

Lemma step_comma_array (σ : scanner.t) ps (X : string) :
  value_ended σ (parseArrayValue :: ps) →
  ∃ σ', scan_run (String "," X) σ = scan_run X σ'
        ∧ scanning σ' StateBeginValue (parseArrayValue :: ps).
Proof.
  intros H. known_ended σ H; cbn; (eexists; split; [reflexivity|done]).
Qed.

Lemma step_close_array (σ : scanner.t) ps (X : string) :
  value_ended σ (parseArrayValue :: ps) → ps ≠ [] →
  ∃ σ', scan_run (String "]" X) σ = scan_run X σ'
        ∧ scanning σ' StateEndValue ps.
Proof.
  intros H Hne. known_ended σ H; destruct ps as [|p ps]; try done;
    cbn; (eexists; split; [reflexivity|done]).
Qed.

Lemma step_comma_object (σ : scanner.t) ps (X : string) :
  value_ended σ (parseObjectValue :: ps) →
  ∃ σ', scan_run (String "," X) σ = scan_run X σ'
        ∧ scanning σ' StateBeginString (parseObjectKey :: ps).
Proof.
  intros H. known_ended σ H; cbn; (eexists; split; [reflexivity|done]).
Qed.

Lemma step_close_object (σ : scanner.t) ps (X : string) :
  value_ended σ (parseObjectValue :: ps) → ps ≠ [] →
  ∃ σ', scan_run (String "}" X) σ = scan_run X σ'
        ∧ scanning σ' StateEndValue ps.
Proof.
  intros H Hne. known_ended σ H; destruct ps as [|p ps]; try done;
    cbn; (eexists; split; [reflexivity|done]).
Qed.

Lemma step_colon (σ : scanner.t) ps (X : string) :
  scanning σ StateEndValue (parseObjectKey :: ps) →
  ∃ σ', scan_run (String ":" X) σ = scan_run X σ'
        ∧ scanning σ' StateBeginValue (parseObjectValue :: ps).
Proof.
  intros H. known_state σ H. cbn. eexists. split; [reflexivity|done].
Qed.

Lemma step_open (σ : scanner.t) ps (X : string) :
  scanning σ StateBeginValue ps → push_ok_prop ps →
  (∃ σ', scan_run (String "[" X) σ = scan_run X σ'
         ∧ scanning σ' StateBeginValueOrEmpty (parseArrayValue :: ps))
  ∧ (∃ σ', scan_run (String "{" X) σ = scan_run X σ'
           ∧ scanning σ' StateBeginStringOrEmpty (parseObjectKey :: ps)).
Proof.
  intros H Hpush. known_state σ H. unfold push_ok_prop in Hpush.
  split; cbn [scan_run step_fn incr_bytes step]; unfold stateBeginValue;
    cbn [isSpace is_byte Ascii.eqb Bool.eqb orb]; cbv iota;
    unfold pushParseState, set_parseState, set_step;
    cbn [parseState step endTop err bytes];
    rewrite (proj2 (Z.leb_le _ _)) by exact Hpush;
    cbn [opcode_eqb]; (eexists; split; [reflexivity|done]).
Qed.

Lemma step_key (σ : scanner.t) ps (X : string) :
  scanning σ StateBeginString ps ∨ scanning σ StateBeginStringOrEmpty ps →
  ∃ σ', scan_run (String DQ X) σ = scan_run X σ'
        ∧ scanning σ' StateInString ps.
Proof.
  intros [H|H]; known_state σ H; cbn; (eexists; split; [reflexivity|done]).
Qed.

Lemma step_empty_array (σ : scanner.t) ps (X : string) :
  scanning σ StateBeginValueOrEmpty (parseArrayValue :: ps) → ps ≠ [] →
  ∃ σ', scan_run (String "]" X) σ = scan_run X σ'
        ∧ scanning σ' StateEndValue ps.
Proof.
  intros H Hne. known_state σ H. destruct ps as [|p ps]; [done|].
  cbn. eexists. split; [reflexivity|done].
Qed.

Lemma step_empty_object (σ : scanner.t) ps (X : string) :
  scanning σ StateBeginStringOrEmpty (parseObjectKey :: ps) → ps ≠ [] →
  ∃ σ', scan_run (String "}" X) σ = scan_run X σ'
        ∧ scanning σ' StateEndValue ps.
Proof.
  intros H Hne. known_state σ H. destruct ps as [|p ps]; [done|].
  cbn. eexists. split; [reflexivity|done].
Qed.

(** The first element of an array is read as any other value. *)
Lemma step_first_element (σ : scanner.t) ps (c : ascii) (X : string) :
  scanning σ StateBeginValueOrEmpty ps →
  isSpace c = false → is_byte c "]" = false →
  ∃ σ0, scanning σ0 StateBeginValue ps
        ∧ scan_run (String c X) σ = scan_run (String c X) σ0.
Proof.
  intros H Hsp Hc. known_state σ H.
  exists (mk StateBeginValue false ps None n). split; [done|].
  cbn [scan_run step_fn incr_bytes step endTop parseState err bytes].
  unfold stateBeginValueOrEmpty. rewrite Hsp, Hc.
  match goal with
  | |- (let '(_, _) := ?a in _) = (let '(_, _) := ?b in _) =>
      assert (a = b) as ->; [|done]
  end.
  unfold stateBeginValue, pushParseState, error_, set_step, set_parseState,
    incr_bytes.
  cbn [step endTop parseState err bytes]. rewrite Hsp.
  repeat case_match; done.
Qed.
End containers.

Section arrays.
Import scanner scanner_facts.

Lemma foldl_join_app (sep a b : string) (l : list string) :
  foldl (λ acc t, acc +:+ sep +:+ t) (a +:+ b) l
  = a +:+ foldl (λ acc t, acc +:+ sep +:+ t) b l.
Proof.
  revert b. induction l as [|x l IH]; intros b; [done|].
  simpl. by rewrite append_assoc, IH.
Qed.

Lemma join_cons (sep x y : string) (l : list string) :
  join sep (x :: y :: l) = x +:+ sep +:+ join sep (y :: l).
Proof. simpl. by rewrite !foldl_join_app. Qed.

Lemma join_singleton (sep x : string) : join sep [x] = x.
Proof. done. Qed.

Lemma skip_space_head (c : ascii) (s : string) :
  isSpace c = false → decode.skip_space (String c s) = String c s.
Proof. intros H. simpl. by rewrite H. Qed.

Lemma elements_scan ps (l : list (value Z)) :
  l ≠ [] → Forall (accepted (parseArrayValue :: ps)) l →
  ∀ (X : string) (σ : scanner.t),
    scanning σ StateBeginValue (parseArrayValue :: ps) →
    ∃ σ', scan_run (join "," (map (encode.encode_value false) l) +:+ X) σ
          = scan_run X σ'
          ∧ value_ended σ' (parseArrayValue :: ps).
Proof.
  intros Hne Hall. induction Hall as [|v l Hv Hl IH]; [done|].
  intros X σ Hσ. destruct l as [|w l].
  - simpl map. rewrite join_singleton. by apply Hv.
  - change (map (encode.encode_value false) (v :: w :: l))
      with (encode.encode_value false v :: map (encode.encode_value false) (w :: l)).
    set (L := map (encode.encode_value false) (w :: l)) in *.
    assert (HL : ∃ y L', L = y :: L') by (by eexists _, _).
    destruct HL as (y & L' & HL). rewrite HL, join_cons, <- HL, !append_assoc.
    destruct (Hv ("," +:+ join "," L +:+ X) σ Hσ) as (σ1 & Hrun & Hσ1).
    rewrite Hrun.
    change ("," +:+ ?s) with (String "," s).
    destruct (step_comma_array σ1 ps (join "," L +:+ X) Hσ1)
      as (σ2 & -> & Hσ2).
    by apply IH.
Qed.

Lemma array_rest_enc (l : list (value Z)) :
  l ≠ [] → Forall parses l →
  ∀ (acc : list (value Z)) (fuel : nat) (rest : string),
    (String.length (join "," (map (encode.encode_value false) l)) < fuel)%nat →
    decode.array_rest fuel acc
      (join "," (map (encode.encode_value false) l) +:+ String "]" rest)
    = inr ((acc ++ l)%list, rest).
Proof.
  intros Hne Hall. induction Hall as [|v l Hv Hl IH]; [done|].
  intros acc fuel rest Hfuel. destruct fuel as [|fuel]; [lia|].
  destruct l as [|w l].
  - simpl map in *. rewrite join_singleton in *.
    cbn [decode.array_rest].
    rewrite (Hv fuel (String "]" rest)); [|lia|by eexists _, _; eauto].
    cbn. done.
  - change (map (encode.encode_value false) (v :: w :: l))
      with (encode.encode_value false v :: map (encode.encode_value false) (w :: l))
      in *.
    set (L := map (encode.encode_value false) (w :: l)) in *.
    assert (HL : ∃ y L', L = y :: L') by (by eexists _, _).
    destruct HL as (y & L' & HL). rewrite HL, join_cons, <- HL in Hfuel |- *.
    rewrite !length_append in Hfuel.
    rewrite !append_assoc. cbn [decode.array_rest].
    change ("," +:+ ?s) with (String "," s).
    rewrite (Hv fuel (String "," _)); [|lia|by eexists _, _; eauto].
    cbn [decode.skip_space isSpace is_byte Ascii.eqb Bool.eqb orb]. cbv iota.
    change (is_byte "," ",") with true. cbv iota.
    rewrite IH; [|done|change (String.length ",") with 1%nat in Hfuel; lia].
    by rewrite <- app_assoc.
Qed.

Lemma good_slice ps (l : list (value Z)) :
  ps ≠ [] → push_ok_prop ps →
  Forall (good (parseArrayValue :: ps)) l → good ps (VSlice l).
Proof.
  intros Hne Hpush Hall. split.
  - intros X σ Hσ. cbn [encode.encode_value].
    rewrite !append_assoc. change ("[" +:+ ?s) with (String "[" s).
    destruct (proj1 (step_open σ ps
                (join "," (map (encode.encode_value false) l) +:+ "]" +:+ X)
                Hσ Hpush)) as (σ1 & -> & Hσ1).
    change ("]" +:+ X) with (String "]" X).
    destruct l as [|v l].
    + change (join "," (map (encode.encode_value false) []) +:+ String "]" X)
        with (String "]" X).
      destruct (step_empty_array σ1 ps X Hσ1 Hne) as (σ2 & -> & Hσ2).
      exists σ2. split; [done|]. destruct Hσ2 as (? & ? & ? & ?).
      split_and!; try done. by left.
    + assert (∃ c t, join "," (map (encode.encode_value false) (v :: l))
                     +:+ String "]" X = String c t
                     ∧ isSpace c = false ∧ is_byte c "]" = false)
        as (c & t & Heq & Hsp & Hc).
      { destruct (encode_value_head v) as (c & t & Hv & Hsp & Hc & _).
        exists c. destruct l as [|w l]; simpl map.
        - rewrite join_singleton, Hv, append_cons. by eexists.
        - rewrite join_cons, Hv, !append_cons. by eexists. }
      destruct (step_first_element σ1 _ c t Hσ1 Hsp Hc) as (σ0 & Hσ0 & Hrun).
      rewrite Heq, Hrun, <- Heq.
      destruct (elements_scan ps (v :: l)) with (X := String "]" X) (σ := σ0)
        as (σ2 & -> & Hσ2); [done| |done|].
      { eapply Forall_impl; [exact Hall|]. by intros ? [? _]. }
      destruct (step_close_array σ2 ps X Hσ2 Hne) as (σ3 & -> & Hσ3).
      exists σ3. split; [done|]. destruct Hσ3 as (? & ? & ? & ?).
      split_and!; try done. by left.
  - intros fuel rest Hfuel Hrest. cbn [encode.encode_value] in *.
    rewrite !length_append in Hfuel.
    change (String.length "[") with 1%nat in Hfuel.
    change (String.length "]") with 1%nat in Hfuel.
    rewrite !append_assoc. change ("[" +:+ ?s) with (String "[" s).
    change ("]" +:+ rest) with (String "]" rest).
    destruct fuel as [|fuel]; [lia|].
    cbn [decode.valueInterface decode.skip_space isSpace is_byte Ascii.eqb
         Bool.eqb orb]. cbv iota.
    destruct l as [|v l].
    + change (join "," (map (encode.encode_value false) []) +:+ String "]" rest)
        with (String "]" rest).
      done.
    + assert (∃ c t, join "," (map (encode.encode_value false) (v :: l))
                     +:+ String "]" rest = String c t
                     ∧ isSpace c = false ∧ is_byte c "]" = false)
        as (c & t & Heq & Hsp & Hc).
      { destruct (encode_value_head v) as (c & t & Hv & Hsp & Hc & _).
        exists c. destruct l as [|w l]; simpl map.
        - rewrite join_singleton, Hv, append_cons. by eexists.
        - rewrite join_cons, Hv, !append_cons. by eexists. }
      rewrite Heq, (skip_space_head c t Hsp), Hc, <- Heq.
      rewrite array_rest_enc; [done|done| |lia].
      eapply Forall_impl; [exact Hall|]. by intros ? [_ ?].
Qed.
End arrays.

Section objects.
Import scanner scanner_facts.

Lemma str_app (c : ascii) (s : string) : String c "" +:+ s = String c s.
Proof. done. Qed.

(** The encoding of a member: the key, a colon and the value. *)
Lemma member_scan ps (k : string) (v : value Z) (X : string) (σ : scanner.t) :
  utf8_valid k → accepted (parseObjectValue :: ps) v →
  scanning σ StateBeginString (parseObjectKey :: ps)
  ∨ scanning σ StateBeginStringOrEmpty (parseObjectKey :: ps) →
  ∃ σ', scan_run ((encode.appendString k false +:+ ":"
                   +:+ encode.encode_value false v) +:+ X) σ
        = scan_run X σ'
        ∧ value_ended σ' (parseObjectValue :: ps).
Proof.
  intros Hk Hv Hσ. unfold encode.appendString, str.
  rewrite !append_assoc, !str_app.
  destruct (step_key σ _ (encode.appendString_loop (String.length k) k false
              +:+ String DQ (String ":" (encode.encode_value false v +:+ X))) Hσ)
    as (σ1 & -> & Hσ1).
  destruct (appendString_scan k (String ":" (encode.encode_value false v +:+ X))
              σ1 _ Hk Hσ1) as (σ2 & -> & Hσ2).
  destruct (step_colon σ2 ps (encode.encode_value false v +:+ X) Hσ2)
    as (σ3 & -> & Hσ3).
  by apply Hv.
Qed.

Lemma member_parse (k : string) (v : value Z) (fuel : nat)
    (acc : gmap string (value Z)) (d : ascii) (rest : string) :
  utf8_valid k → parses v →
  (String.length (encode.encode_value false v) ≤ fuel)%nat →
  d = ","%char ∨ d = "}"%char →
  decode.object_rest (S fuel) acc
    ((encode.appendString k false +:+ ":" +:+ encode.encode_value false v)
     +:+ String d rest)
  = if is_byte d "," then decode.object_rest fuel (<[k := v]> acc) rest
    else inr (<[k := v]> acc, rest).
Proof.
  intros Hk Hv Hfuel Hd. unfold encode.appendString, str.
  rewrite !append_assoc, !str_app.
  cbn [decode.object_rest decode.skip_space].
  change (isSpace DQ) with false. cbv iota.
  change (is_byte DQ DQ) with true. cbv iota.
  rewrite appendString_unquote; [|done|rewrite length_append; simpl; lia].
  cbn [decode.skip_space]. change (isSpace ":") with false. cbv iota.
  change (is_byte ":" ":") with true. cbv iota.
  rewrite (Hv fuel (String d rest) Hfuel);
    [|exists d, rest; split; [done|]; destruct Hd; auto].
  destruct Hd as [-> | ->]; cbn [decode.skip_space].
  - change (isSpace ",") with false. cbv iota. done.
  - change (isSpace "}") with false. cbv iota. done.
Qed.

Lemma length_member (kv : string * string) :
  (String.length kv.2 + 3 ≤ String.length (member kv))%nat.
Proof.
  unfold member, encode.appendString, str. rewrite !length_append. simpl. lia.
Qed.

Lemma members_scan ps (L : list (string * string)) :
  L ≠ [] →
  Forall (λ kv, ∃ v, kv.2 = encode.encode_value false v ∧ utf8_valid kv.1
                     ∧ accepted (parseObjectValue :: ps) v) L →
  ∀ (X : string) (σ : scanner.t),
    scanning σ StateBeginString (parseObjectKey :: ps)
    ∨ scanning σ StateBeginStringOrEmpty (parseObjectKey :: ps) →
    ∃ σ', scan_run (join "," (map member L) +:+ X) σ = scan_run X σ'
          ∧ value_ended σ' (parseObjectValue :: ps).
Proof.
  intros Hne Hall. induction Hall as [|[k e] L (v & He & Hk & Hv) HL IH]; [done|].
  simpl in He, Hk. subst e. intros X σ Hσ. destruct L as [|kv L].
  - change (map member [(k, encode.encode_value false v)])
      with [member (k, encode.encode_value false v)].
    rewrite join_singleton. by apply member_scan.
  - change (map member ((k, encode.encode_value false v) :: kv :: L))
      with (member (k, encode.encode_value false v) :: map member (kv :: L)).
    set (M := map member (kv :: L)) in *.
    assert (HM : ∃ y M', M = y :: M') by (by eexists _, _).
    destruct HM as (y & M' & HM). rewrite HM, join_cons, <- HM, append_assoc.
    unfold member at 1. cbn [fst snd].
    destruct (member_scan ps k v (("," +:+ join "," M) +:+ X) σ Hk Hv Hσ)
      as (σ1 & -> & Hσ1).
    rewrite append_assoc. change ("," +:+ ?s) with (String "," s).
    destruct (step_comma_object σ1 ps (join "," M +:+ X) Hσ1) as (σ2 & -> & Hσ2).
    apply IH; [done|by left].
Qed.

Lemma members_parse (m : gmap string (value Z)) (L : list (string * string)) :
  L ≠ [] →
  Forall (λ kv, ∃ v, m !! kv.1 = Some v ∧ kv.2 = encode.encode_value false v
                     ∧ utf8_valid kv.1 ∧ parses v) L →
  ∀ (acc : gmap string (value Z)) (fuel : nat) (rest : string),
    (String.length (join "," (map member L)) < fuel)%nat →
    ∃ acc', decode.object_rest fuel acc
              (join "," (map member L) +:+ String "}" rest)
            = inr (acc', rest)
            ∧ ∀ j, acc' !! j = if decide (j ∈ L.*1) then m !! j else acc !! j.
Proof.
  intros Hne Hall.
  induction Hall as [|[k e] L (v & Hm & He & Hk & Hv) HL IH]; [done|].
  simpl in Hm, He, Hk. subst e. intros acc fuel rest Hfuel.
  destruct fuel as [|fuel]; [lia|]. destruct L as [|kv L].
  - change (map member [(k, encode.encode_value false v)])
      with [member (k, encode.encode_value false v)] in *.
    rewrite join_singleton in *.
    pose proof (length_member (k, encode.encode_value false v)) as Hlen.
    cbn [snd] in Hlen. unfold member at 1. cbn [fst snd].
    rewrite member_parse; [|done|done|lia|by right].
    change (is_byte "}" ",") with false. cbv iota.
    eexists. split; [done|]. intros j.
    change ([(k, encode.encode_value false v)].*1) with [k].
    destruct (decide (j = k)) as [->|Hj].
    + rewrite lookup_insert_eq.
      rewrite decide_True by apply list_elem_of_singleton, eq_refl. done.
    + rewrite lookup_insert_ne by done.
      rewrite decide_False by (by intros ->%list_elem_of_singleton). done.
  - change (map member ((k, encode.encode_value false v) :: kv :: L))
      with (member (k, encode.encode_value false v) :: map member (kv :: L)) in *.
    set (M := map member (kv :: L)) in *.
    assert (HM : ∃ y M', M = y :: M') by (by eexists _, _).
    destruct HM as (y & M' & HM). rewrite HM, join_cons, <- HM in Hfuel |- *.
    rewrite !length_append in Hfuel.
    change (String.length ",") with 1%nat in Hfuel.
    pose proof (length_member (k, encode.encode_value false v)) as Hlen.
    cbn [snd] in Hlen. rewrite !append_assoc.
    change ("," +:+ ?s) with (String "," s).
    unfold member at 1. cbn [fst snd].
    rewrite member_parse; [|done|done|lia|by left].
    change (is_byte "," ",") with true. cbv iota.
    destruct (IH ltac:(done) (<[k := v]> acc) fuel rest ltac:(lia))
      as (acc' & -> & Hacc').
    exists acc'. split; [done|]. intros j. rewrite Hacc'.
    change (((k, encode.encode_value false v) :: kv :: L).*1)
      with (k :: (kv :: L).*1).
    destruct (decide (j ∈ (kv :: L).*1)) as [Hin|Hin].
    + rewrite decide_True by (by apply list_elem_of_further). done.
    + destruct (decide (j = k)) as [->|Hj].
      * rewrite lookup_insert_eq.
        rewrite decide_True by apply list_elem_of_here. done.
      * rewrite lookup_insert_ne by done.
        rewrite decide_False by (intros [?|?]%elem_of_cons; done). done.
Qed.

(** The members the encoder writes for a map. *)
Lemma elem_of_sorted_entries {A} (m : gmap string A) (k : string) (x : A) :
  (k, x) ∈ sorted_entries m ↔ m !! k = Some x.
Proof.
  unfold sorted_entries. rewrite merge_sort_Permutation.
  apply elem_of_map_to_list.
Qed.

Lemma sorted_entries_nil {A} (m : gmap string A) :
  sorted_entries m = [] → m = ∅.
Proof.
  intros H. apply map_empty. intros k.
  destruct (m !! k) as [x|] eqn:Hk; [|done].
  apply elem_of_sorted_entries in Hk. rewrite H in Hk.
  by apply elem_of_nil in Hk.
Qed.

Lemma members_of_map (P : string → value Z → Prop) (m : gmap string (value Z)) :
  (∀ k v, m !! k = Some v → P k v) →
  Forall (λ kv, ∃ v, m !! kv.1 = Some v ∧ kv.2 = encode.encode_value false v
                     ∧ P kv.1 v)
         (sorted_entries (encode.encode_value false <$> m)).
Proof.
  intros HP. apply Forall_forall. intros [k e] Hin.
  apply elem_of_sorted_entries, lookup_fmap_Some in Hin as (v & <- & Hv).
  exists v. split_and!; [done|done|by apply HP].
Qed.

Lemma members_parse_map (m : gmap string (value Z)) (fuel : nat) (rest : string) :
  (∀ k v, m !! k = Some v → utf8_valid k ∧ parses v) →
  sorted_entries (encode.encode_value false <$> m) ≠ [] →
  (String.length (join "," (map member
      (sorted_entries (encode.encode_value false <$> m)))) < fuel)%nat →
  decode.object_rest fuel ∅
    (join "," (map member (sorted_entries (encode.encode_value false <$> m)))
     +:+ String "}" rest)
  = inr (m, rest).
Proof.
  intros Hm Hne Hfuel.
  destruct (members_parse m (sorted_entries (encode.encode_value false <$> m)))
    with (acc := (∅ : gmap string (value Z))) (fuel := fuel) (rest := rest)
    as (acc' & -> & Hacc'); [done| |done|].
  { eapply Forall_impl; [apply (members_of_map (λ k v, utf8_valid k ∧ parses v)), Hm|].
    intros kv (v & ? & ? & ? & ?). by exists v. }
  do 2 f_equal. apply map_eq. intros j. rewrite Hacc'.
  destruct (decide _) as [Hin|Hin]; [done|].
  rewrite lookup_empty. destruct (m !! j) as [v|] eqn:Hj; [|done].
  exfalso. apply Hin. apply list_elem_of_fmap.
  exists (j, encode.encode_value false v). split; [done|].
  apply elem_of_sorted_entries, lookup_fmap_Some. by exists v.
Qed.

Lemma member_head (kv : string * string) : ∃ t, member kv = String DQ t.
Proof. unfold member, encode.appendString, str. rewrite !append_assoc, str_app. by eexists. Qed.

Lemma members_head (L : list (string * string)) (X : string) :
  L ≠ [] → ∃ t, join "," (map member L) +:+ X = String DQ t.
Proof.
  destruct L as [|kv [|kv' L]]; [done| |]; intros _.
  - change (map member [kv]) with [member kv]. rewrite join_singleton.
    destruct (member_head kv) as (t & ->). by eexists.
  - change (map member (kv :: kv' :: L)) with (member kv :: map member (kv' :: L)).
    set (M := map member (kv' :: L)).
    assert (HM : ∃ y M', M = y :: M') by (by eexists _, _).
    destruct HM as (y & M' & HM). rewrite HM, join_cons.
    destruct (member_head kv) as (t & ->). by eexists.
Qed.

Lemma encode_map_eq (m : gmap string (value Z)) :
  encode.encode_value false (VMap m)
  = String "{" (join "," (map member
                  (sorted_entries (encode.encode_value false <$> m)))
                +:+ "}").
Proof. done. Qed.

Lemma good_map ps (m : gmap string (value Z)) :
  ps ≠ [] → push_ok_prop ps →
  (∀ k v, m !! k = Some v → utf8_valid k ∧ good (parseObjectValue :: ps) v) →
  good ps (VMap m).
Proof.
  intros Hne Hpush Hm.
  set (L := sorted_entries (encode.encode_value false <$> m)).
  split.
  - intros X σ Hσ. rewrite encode_map_eq. fold L.
    rewrite append_cons, append_assoc.
    change ("}" +:+ X) with (String "}" X).
    destruct (proj2 (step_open σ ps (join "," (map member L) +:+ String "}" X)
                Hσ Hpush)) as (σ1 & -> & Hσ1).
    destruct (decide (L = [])) as [HL|HL].
    + rewrite HL. change (join "," (map member []) +:+ String "}" X)
        with (String "}" X).
      destruct (step_empty_object σ1 ps X Hσ1 Hne) as (σ2 & -> & Hσ2).
      exists σ2. split; [done|]. destruct Hσ2 as (? & ? & ? & ?).
      split_and!; try done. by left.
    + destruct (members_scan ps L HL) with (X := String "}" X) (σ := σ1)
        as (σ2 & -> & Hσ2); [|by right|].
      { eapply Forall_impl;
          [apply (members_of_map (λ k v, utf8_valid k
                    ∧ good (parseObjectValue :: ps) v)), Hm|].
        intros kv (v & ? & ? & ? & [? ?]). by exists v. }
      destruct (step_close_object σ2 ps X Hσ2 Hne) as (σ3 & -> & Hσ3).
      exists σ3. split; [done|]. destruct Hσ3 as (? & ? & ? & ?).
      split_and!; try done. by left.
  - intros fuel rest Hfuel Hrest. rewrite encode_map_eq in Hfuel |- *.
    fold L in Hfuel |- *. rewrite append_cons, append_assoc.
    change ("}" +:+ rest) with (String "}" rest).
    cbn [String.length] in Hfuel. rewrite length_append in Hfuel.
    change (String.length "}") with 1%nat in Hfuel.
    destruct fuel as [|fuel]; [lia|].
    cbn [decode.valueInterface decode.skip_space].
    change (isSpace "{") with false. cbv iota.
    change (is_byte "{" "{") with true. cbv iota.
    destruct (decide (L = [])) as [HL|HL].
    + rewrite HL. change (join "," (map member []) +:+ String "}" rest)
        with (String "}" rest).
      apply sorted_entries_nil, fmap_empty_inv in HL. subst m. done.
    + destruct (members_head L (String "}" rest) HL) as (t & Heq).
      rewrite Heq. cbn [decode.skip_space]. change (isSpace DQ) with false.
      cbv iota. change (is_byte DQ "}") with false. cbv iota. rewrite <- Heq.
      unfold L in *. rewrite members_parse_map; [done| |done|lia].
      intros k v Hk. destruct (Hm k v Hk) as [? [_ ?]]. done.
Qed.
End objects.

(** ** Reading a document: strings *)

Section read_string.
Import scanner scanner_facts.

Lemma utf8_valid_ascii (c : ascii) (t : string) :
  byte_val c < 128 → utf8_valid t → utf8_valid (String c t).
Proof.
  intros Hc Ht. pose proof (byte_val_range c) as Hr.
  change (String c t) with (str c +:+ t).
  rewrite <- (byte_of_byte_val c), <- EncodeRune_ascii by lia.
  apply utf8_valid_rune; [|done]. unfold valid_rune. lia.
Qed.

Lemma cons_bytes_Some (p : string) (r : option (string * string))
    (t rest : string) :
  decode.cons_bytes p r = Some (t, rest) →
  ∃ t', r = Some (t', rest) ∧ t = p +:+ t'.
Proof.
  destruct r as [[t' rest']|]; simpl; [|done]. intros [= <- <-]. by eexists.
Qed.

Lemma hex_val_range (c : ascii) :
  isHex c = true → 0 ≤ decode.hex_val c ≤ 15.
Proof.
  unfold isHex, decode.hex_val. pose proof (byte_val_range c) as Hr.
  norm_bytes. intros H.
  destruct (48 <=? byte_val c) eqn:H1, (byte_val c <=? 57) eqn:H2,
    (97 <=? byte_val c) eqn:H3, (byte_val c <=? 102) eqn:H4,
    (65 <=? byte_val c) eqn:H5, (byte_val c <=? 70) eqn:H6;
    simpl in *; try done; bool_hyps; lia.
Qed.

Lemma getu4_spec (s : string) :
  0 ≤ decode.getu4 s →
  ∃ h1 h2 h3 h4 rest,
    s = String BS (String "u" (String h1 (String h2 (String h3 (String h4 rest)))))
    ∧ isHex h1 = true ∧ isHex h2 = true ∧ isHex h3 = true ∧ isHex h4 = true
    ∧ decode.getu4 s ≤ 65535.
Proof.
  destruct s as [|b [|u [|h1 [|h2 [|h3 [|h4 rest]]]]]]; simpl; try lia.
  destruct (is_byte b BS) eqn:Hb; simpl; [|lia].
  destruct (is_byte u "u") eqn:Hu; simpl; [|lia].
  destruct (isHex h1) eqn:E1; simpl; [|lia].
  destruct (isHex h2) eqn:E2; simpl; [|lia].
  destruct (isHex h3) eqn:E3; simpl; [|lia].
  destruct (isHex h4) eqn:E4; simpl; [|lia].
  apply Ascii.eqb_eq in Hb, Hu. subst. intros _.
  pose proof (hex_val_range h1 E1). pose proof (hex_val_range h2 E2).
  pose proof (hex_val_range h3 E3). pose proof (hex_val_range h4 E4).
  eexists _, _, _, _, _. split_and!; try done. lia.
Qed.

Lemma in_string_quote (σ : scanner.t) ps (X : string) :
  scanning σ StateInString ps →
  ∃ σ', scan_run (String DQ X) σ = scan_run X σ' ∧ scanning σ' StateEndValue ps.
Proof. intros H. known_state σ H. cbn. eexists. split; [reflexivity|done]. Qed.

Lemma in_string_escape (σ : scanner.t) ps (e : ascii) (X : string) :
  scanning σ StateInString ps →
  is_byte e "b" || is_byte e "f" || is_byte e "n" || is_byte e "r"
  || is_byte e "t" || is_byte e BS || is_byte e "/" || is_byte e DQ = true →
  ∃ σ', scan_run (String BS (String e X)) σ = scan_run X σ'
        ∧ scanning σ' StateInString ps.
Proof.
  intros H He. known_state σ H.
  cbn [scan_run step_fn incr_bytes step]. unfold stateInString.
  change (is_byte BS DQ) with false. change (is_byte BS BS) with true.
  cbv iota. cbn [set_step opcode_eqb scan_run step_fn incr_bytes step fst snd].
  unfold stateInStringEsc. cbn [step]. rewrite He.
  cbn. eexists. split; [reflexivity|done].
Qed.

Lemma in_string_escape_bad (σ : scanner.t) ps (e : ascii) (X : string) :
  scanning σ StateInString ps →
  is_byte e "b" || is_byte e "f" || is_byte e "n" || is_byte e "r"
  || is_byte e "t" || is_byte e BS || is_byte e "/" || is_byte e DQ = false →
  is_byte e "u" = false →
  scan_run (String BS (String e X)) σ = None.
Proof.
  intros H He Hu. known_state σ H.
  cbn [scan_run step_fn incr_bytes step]. unfold stateInString.
  change (is_byte BS DQ) with false. change (is_byte BS BS) with true.
  cbv iota. cbn [set_step opcode_eqb scan_run step_fn incr_bytes step fst snd].
  unfold stateInStringEsc. cbn [step]. rewrite He, Hu. done.
Qed.

Lemma in_string_low (σ : scanner.t) ps (c : ascii) (X : string) :
  scanning σ StateInString ps →
  is_byte c DQ = false → is_byte c BS = false → byte_val c < 32 →
  scan_run (String c X) σ = None.
Proof.
  intros H H1 H2 H3. known_state σ H.
  cbn [scan_run step_fn incr_bytes step]. unfold stateInString.
  rewrite H1, H2. apply Z.ltb_lt in H3. rewrite H3. done.
Qed.

Lemma in_string_u (σ : scanner.t) ps (h1 h2 h3 h4 : ascii) (X : string) :
  scanning σ StateInString ps →
  isHex h1 = true → isHex h2 = true → isHex h3 = true → isHex h4 = true →
  ∃ σ', scan_run (String BS (String "u" (String h1 (String h2 (String h3
                    (String h4 X)))))) σ
        = scan_run X σ'
        ∧ scanning σ' StateInString ps.
Proof.
  intros H E1 E2 E3 E4. known_state σ H.
  cbn [scan_run step_fn incr_bytes step]. unfold stateInString.
  change (is_byte BS DQ) with false. change (is_byte BS BS) with true.
  cbv iota. cbn [set_step opcode_eqb scan_run step_fn incr_bytes step fst snd].
  unfold stateInStringEsc. cbn [step].
  change (is_byte "u" "b" || is_byte "u" "f" || is_byte "u" "n"
          || is_byte "u" "r" || is_byte "u" "t" || is_byte "u" BS
          || is_byte "u" "/" || is_byte "u" DQ) with false.
  change (is_byte "u" "u") with true. cbv iota.
  cbn [set_step opcode_eqb scan_run step_fn incr_bytes step fst snd].
  unfold stateInStringEscHex. rewrite E1.
  cbn [set_step opcode_eqb scan_run step_fn incr_bytes step fst snd].
  unfold stateInStringEscHex. rewrite E2.
  cbn [set_step opcode_eqb scan_run step_fn incr_bytes step fst snd].
  unfold stateInStringEscHex. rewrite E3.
  cbn [set_step opcode_eqb scan_run step_fn incr_bytes step fst snd].
  unfold stateInStringEscHex. rewrite E4.
  cbn. eexists. split; [reflexivity|done].
Qed.

Lemma drop_bytes_app_length (a b : string) :
  drop_bytes (String.length a) (a +:+ b) = b.
Proof. induction a as [|c a IH]; [by destruct b|]. simpl. apply IH. Qed.

Lemma surrogate_pair_valid (r1 r2 : Z) :
  (utf16.DecodeRune r1 r2 =? utf8.RuneError) = false →
  valid_rune (utf16.DecodeRune r1 r2) ∧ 0 ≤ r2.
Proof.
  unfold utf16.DecodeRune, valid_rune.
  destruct ((55296 <=? r1) && (r1 <? 56320) && (56320 <=? r2) && (r2 <? 57344))
    eqn:H; [|by rewrite Z.eqb_refl].
  intros _. bool_hyps. lia.
Qed.

(** The decoder reads a string literal that the scanner accepts as a
    sequence of scalar values, and both stop after the closing quote. *)
Lemma unquote_scan (fuel : nat) :
  ∀ (s : string) (σ σe : scanner.t) ps (t rest : string),
    scanning σ StateInString ps →
    scan_run s σ = Some σe →
    decode.unquote fuel s = Some (t, rest) →
    utf8_valid t
    ∧ ∃ σ', scanning σ' StateEndValue ps ∧ scan_run rest σ' = Some σe.
Proof.
  induction fuel as [|fuel IH]; intros s σ σe ps t rest Hσ Hscan Hunq; [done|].
  destruct s as [|c s']; [done|]. cbn [decode.unquote] in Hunq.
  assert (Hcons : ∀ (p X : string) (σ1 : scanner.t) (r : Z),
             p = utf8.EncodeRune r → valid_rune r →
             scanning σ1 StateInString ps → scan_run X σ1 = Some σe →
             decode.cons_bytes p (decode.unquote fuel X) = Some (t, rest) →
             utf8_valid t
             ∧ ∃ σ', scanning σ' StateEndValue ps ∧ scan_run rest σ' = Some σe).
  { intros p X σ1 r -> Hr Hσ1 Hrun (t' & Ht' & ->)%cons_bytes_Some.
    destruct (IH X σ1 σe ps t' rest Hσ1 Hrun Ht') as [Hvalid Hrest].
    split; [by apply utf8_valid_rune|done]. }
  assert (Hascii1 : ∀ (b : ascii) (X : string) (σ1 : scanner.t),
             byte_val b < 128 →
             scanning σ1 StateInString ps → scan_run X σ1 = Some σe →
             decode.cons_bytes (str b) (decode.unquote fuel X) = Some (t, rest) →
             utf8_valid t
             ∧ ∃ σ', scanning σ' StateEndValue ps ∧ scan_run rest σ' = Some σe).
  { intros b X σ1 Hb. pose proof (byte_val_range b).
    apply (Hcons (str b) X σ1 (byte_val b)).
    - by rewrite EncodeRune_ascii, byte_of_byte_val by lia.
    - unfold valid_rune. lia. }
  destruct (is_byte c DQ) eqn:HDQ.
  { apply Ascii.eqb_eq in HDQ. subst c. injection Hunq as <- <-.
    split; [constructor|].
    destruct (in_string_quote σ ps s' Hσ) as (σ1 & Hrun & Hσ1).
    exists σ1. split; [done|]. by rewrite <- Hrun. }
  destruct (is_byte c BS) eqn:HBS.
  { apply Ascii.eqb_eq in HBS. subst c. destruct s' as [|e s'']; [done|].
    destruct (is_byte e "u") eqn:Hu.
    - apply Ascii.eqb_eq in Hu. subst e.
      change (is_byte "u" DQ || is_byte "u" BS || is_byte "u" "/"
              || is_byte "u" "'") with false in Hunq.
      change (is_byte "u" "b") with false in Hunq.
      change (is_byte "u" "f") with false in Hunq.
      change (is_byte "u" "n") with false in Hunq.
      change (is_byte "u" "r") with false in Hunq.
      change (is_byte "u" "t") with false in Hunq.
      change (is_byte "u" "u") with true in Hunq. cbv iota zeta in Hunq.
      destruct (decode.getu4 (String BS (String "u" s'')) <? 0) eqn:Hneg; [done|].
      apply Z.ltb_ge in Hneg.
      destruct (getu4_spec _ Hneg)
        as (h1 & h2 & h3 & h4 & s6 & Heq & E1 & E2 & E3 & E4 & Hmax).
      injection Heq as ->.
      set (rr := decode.getu4 _) in *.
      change (drop_bytes 6 (String BS (String "u" (String h1 (String h2
                (String h3 (String h4 s6))))))) with s6 in Hunq.
      destruct (in_string_u σ ps h1 h2 h3 h4 s6 Hσ E1 E2 E3 E4)
        as (σ1 & Hrun & Hσ1).
      rewrite Hrun in Hscan.
      destruct (utf16.IsSurrogate rr) eqn:Hsur.
      + destruct (utf16.DecodeRune rr (decode.getu4 s6) =? utf8.RuneError)
          eqn:Hdec; cbn [negb] in Hunq; cbv iota in Hunq.
        * eapply (Hcons _ s6 σ1 utf8.RuneError); try done.
          unfold valid_rune, utf8.RuneError. lia.
        * destruct (surrogate_pair_valid _ _ Hdec) as [Hvalid Hpos].
          destruct (getu4_spec _ Hpos)
            as (k1 & k2 & k3 & k4 & s12 & -> & F1 & F2 & F3 & F4 & _).
          change (drop_bytes 6 (String BS (String "u" (String k1 (String k2
                    (String k3 (String k4 s12))))))) with s12 in Hunq.
          destruct (in_string_u σ1 ps k1 k2 k3 k4 s12 Hσ1 F1 F2 F3 F4)
            as (σ2 & Hrun2 & Hσ2).
          rewrite Hrun2 in Hscan.
          by eapply (Hcons _ s12 σ2 _ eq_refl).
      + eapply (Hcons _ s6 σ1 rr); try done.
        unfold utf16.IsSurrogate in Hsur. unfold valid_rune.
        destruct (55296 <=? rr) eqn:Ha, (rr <? 57344) eqn:Hb;
          try done; bool_hyps; lia.
    - destruct (is_byte e "b" || is_byte e "f" || is_byte e "n" || is_byte e "r"
                || is_byte e "t" || is_byte e BS || is_byte e "/" || is_byte e DQ)
        eqn:Hesc.
      + destruct (in_string_escape σ ps e s'' Hσ Hesc) as (σ1 & Hrun & Hσ1).
        rewrite Hrun in Hscan.
        repeat (apply orb_true_iff in Hesc as [Hesc|Hesc]);
          apply Ascii.eqb_eq in Hesc; subst e;
          cbn [is_byte Ascii.eqb Bool.eqb orb andb DQ BS] in Hunq;
          cbv iota in Hunq;
          (eapply (Hascii1 _ s'' σ1); [|done|done|exact Hunq]);
          by vm_compute.
      + by rewrite (in_string_escape_bad σ ps e s'' Hσ Hesc Hu) in Hscan. }
  destruct (byte_val c <? 32) eqn:Hlow; [done|]. apply Z.ltb_ge in Hlow.
  destruct (step_in_string σ ps c Hσ HDQ HBS Hlow) as (σ1 & Hstep & Hσ1).
  rewrite (scan_run_cons c s' σ σ1 _ Hstep ltac:(done)) in Hscan.
  destruct (byte_val c <? 128) eqn:Hascii.
  { apply Z.ltb_lt in Hascii. by apply (Hascii1 c s' σ1). }
  apply Z.ltb_ge in Hascii.
  destruct (utf8.DecodeRune (String c s')) as [rr size] eqn:Hdec.
  destruct (DecodeRune_cases c s' rr size Hascii Hdec)
    as [[-> ->]|(Hvalid & Hhigh & rest0 & Heq & ->)].
  - change (drop_bytes (Z.to_nat 1) (String c s')) with s' in Hunq.
    eapply (Hcons _ s' σ1 utf8.RuneError); try done.
    unfold valid_rune, utf8.RuneError. lia.
  - destruct (EncodeRune_high rr Hvalid Hhigh) as (c0 & t0 & Henc & _ & _ & Hrun).
    destruct (Hrun rest0 σ ps Hσ) as (σ2 & Hrun2 & Hσ2).
    rewrite Heq in Hunq. unfold len in Hunq. rewrite Nat2Z.id in Hunq.
    rewrite drop_bytes_app_length in Hunq.
    assert (scan_run rest0 σ2 = Some σe) as Hscan2.
    { rewrite <- Hrun2, <- Heq.
      by rewrite (scan_run_cons c s' σ σ1 _ Hstep ltac:(done)). }
    exact (Hcons _ rest0 σ2 rr eq_refl Hvalid Hσ2 Hscan2 Hunq).
Qed.
End read_string.

(** ** Reading a document: white space, literals and numbers *)

Section read_scalars.
Import scanner scanner_facts.

Lemma skip_space_not_space (s : string) (c : ascii) (s' : string) :
  decode.skip_space s = String c s' → isSpace c = false.
Proof.
  induction s as [|d s IH]; [done|]. simpl.
  destruct (isSpace d) eqn:Hd; [done|]. by intros [= <- <-].
Qed.

Lemma skip_space_idemp (s : string) :
  decode.skip_space (decode.skip_space s) = decode.skip_space s.
Proof.
  induction s as [|d s IH]; [done|]. simpl.
  destruct (isSpace d) eqn:Hd; [done|]. simpl. by rewrite Hd.
Qed.

Lemma isSpace_cases (c : ascii) :
  isSpace c = true →
  c = " "%char ∨ c = "009"%char ∨ c = "013"%char ∨ c = "010"%char.
Proof.
  unfold isSpace. intros H.
  repeat (apply orb_true_iff in H as [H|H]); apply Ascii.eqb_eq in H; auto.
Qed.

Lemma scan_space (s : string) :
  ∀ (σ : scanner.t) st ps,
    scanning σ st ps →
    st = StateBeginValue ∨ st = StateBeginValueOrEmpty ∨ st = StateBeginString
    ∨ st = StateBeginStringOrEmpty ∨ (st = StateEndValue ∧ ps ≠ []) →
    ∃ σ', scanning σ' st ps ∧ scan_run s σ = scan_run (decode.skip_space s) σ'.
Proof.
  induction s as [|c s IH]; intros σ st ps Hσ Hst; [by exists σ|].
  cbn [decode.skip_space]. destruct (isSpace c) eqn:Hc; [|by exists σ].
  assert (∃ σ1, scan_run (String c s) σ = scan_run s σ1 ∧ scanning σ1 st ps)
    as (σ1 & -> & Hσ1).
  { known_state σ Hσ.
    destruct Hst as [-> | [-> | [-> | [-> | [-> Hne]]]]];
      try (destruct ps as [|p ps]; [done|]);
      cbn [scan_run step_fn incr_bytes step];
      unfold stateBeginValue, stateBeginValueOrEmpty, stateBeginString,
        stateBeginStringOrEmpty, stateEndValue; cbn [parseState incr_bytes];
      rewrite Hc; cbn; (eexists; split; [reflexivity|done]). }
  by apply IH.
Qed.

Lemma scan_space_ended (s : string) (σ : scanner.t) ps :
  value_ended σ ps → ps ≠ [] →
  ∃ σ', value_ended σ' ps ∧ scan_run s σ = scan_run (decode.skip_space s) σ'.
Proof.
  intros Hσ Hne. destruct s as [|c s]; [by exists σ|].
  cbn [decode.skip_space]. destruct (isSpace c) eqn:Hc; [|by exists σ].
  assert (∃ σ1, scan_run (String c s) σ = scan_run s σ1
                ∧ scanning σ1 StateEndValue ps) as (σ1 & -> & Hσ1).
  { destruct ps as [|p ps]; [done|].
    apply isSpace_cases in Hc.
    known_ended σ Hσ; destruct Hc as [-> | [-> | [-> | ->]]];
      cbn; (eexists; split; [reflexivity|done]). }
  destruct (scan_space s σ1 StateEndValue ps Hσ1) as (σ2 & Hσ2 & ->); [auto 10|].
  exists σ2. split; [|done]. destruct Hσ2 as (? & ? & ? & ?).
  split_and!; try done. by left.
Qed.

Lemma substring_drop (n : nat) (s : string) :
  substring 0 n s +:+ drop_bytes n s = s.
Proof.
  revert s. induction n as [|n IH]; intros [|c s]; try done.
  cbn [substring drop_bytes]. rewrite append_cons. f_equal. apply IH.
Qed.

Lemma expect_inv (w s rest : string) :
  decode.expect w s = Some rest → s = w +:+ rest.
Proof.
  unfold decode.expect. destruct (String.prefix w s) eqn:H; [|done].
  intros [= <-]. apply prefix_correct in H.
  symmetry. etransitivity; [|apply (substring_drop (String.length w) s)].
  by rewrite H.
Qed.

(** Numbers. *)
Lemma in_number_ended (σ : scanner.t) ps : in_number σ ps → value_ended σ ps.
Proof. intros (? & ? & ? & [?|?]); split_and!; auto. Qed.

Lemma digit_cases (d : ascii) :
  isDigit d = true →
  isSpace d = false ∧ is_byte d "{" = false ∧ is_byte d "[" = false
  ∧ is_byte d DQ = false ∧ is_byte d "-" = false ∧ is_byte d "t" = false
  ∧ is_byte d "f" = false ∧ is_byte d "n" = false ∧ is_byte d "." = false
  ∧ is_byte d "e" = false ∧ is_byte d "E" = false ∧ is_byte d ":" = false
  ∧ is_byte d "," = false ∧ is_byte d "}" = false ∧ is_byte d "]" = false
  ∧ (is_byte d "0" = true ∨ is_byte d "0" = false ∧ in_range "1" "9" d = true).
Proof.
  unfold isDigit, isSpace. pose proof (byte_val_range d). norm_bytes.
  intros Hd. bool_hyps.
  assert (is_byte d "0" = true ∨ is_byte d "0" = false ∧ in_range "1" "9" d = true).
  { norm_bytes. destruct (Z.eqb_spec (byte_val d) 48); [by left|right].
    split; [done|]. apply andb_true_iff. split; apply Z.leb_le; lia. }
  norm_bytes. zb. cbn [orb]. split_and!; try done.
  clear H2. destruct (Z.eqb_spec (byte_val d) 48); [by left|right].
  split; [done|]. by zb.
Qed.

Lemma begin_digit (σ : scanner.t) ps (d : ascii) (X : string) :
  scanning σ StateBeginValue ps ∨ scanning σ StateNeg ps →
  isDigit d = true →
  ∃ σ', scan_run (String d X) σ = scan_run X σ' ∧ in_number σ' ps.
Proof.
  intros Hσ Hd.
  destruct (digit_cases d Hd)
    as (H1 & H2 & H3 & H4 & H5 & H6 & H7 & H8 & _ & _ & _ & _ & _ & _ & _ & H0).
  destruct Hσ as [Hσ|Hσ]; known_state σ Hσ;
    cbn [scan_run step_fn incr_bytes step]; unfold stateBeginValue, stateNeg;
    rewrite ?H1, ?H2, ?H3, ?H4, ?H5;
    (destruct H0 as [H0|[H0 H9]];
     [rewrite H0|rewrite H0, ?H6, ?H7, ?H8, H9]);
    cbn; (eexists; split; [reflexivity|]); split_and!; auto.
Qed.

Lemma begin_minus (σ : scanner.t) ps (X : string) :
  scanning σ StateBeginValue ps →
  ∃ σ', scan_run (String "-" X) σ = scan_run X σ' ∧ scanning σ' StateNeg ps.
Proof. intros H. known_state σ H. cbn. eexists. split; [reflexivity|done]. Qed.

Lemma begin_bad (σ : scanner.t) ps (c : ascii) (X : string) :
  scanning σ StateBeginValue ps →
  isSpace c = false → is_byte c "{" = false → is_byte c "[" = false →
  is_byte c DQ = false → is_byte c "-" = false → is_byte c "t" = false →
  is_byte c "f" = false → is_byte c "n" = false → isDigit c = false →
  scan_run (String c X) σ = None.
Proof.
  intros H H1 H2 H3 H4 H5 H6 H7 H8 H9. known_state σ H.
  cbn [scan_run step_fn incr_bytes step]. unfold stateBeginValue.
  rewrite H1, H2, H3, H4, H5, H6, H7, H8.
  assert (is_byte c "0" = false ∧ in_range "1" "9" c = false) as [-> ->].
  { unfold isDigit in H9. pose proof (byte_val_range c). norm_bytes.
    destruct (48 <=? byte_val c) eqn:Ha, (byte_val c <=? 57) eqn:Hb;
      try done; bool_hyps; split; zb; try done;
      destruct (49 <=? byte_val c) eqn:Hc; try done; bool_hyps; lia. }
  done.
Qed.

Lemma in_number_digit (σ : scanner.t) ps (d : ascii) (X : string) :
  in_number σ ps → ps ≠ [] → isDigit d = true →
  match scan_run (String d X) σ with
  | Some σe => ∃ σ', scan_run X σ' = Some σe ∧ in_number σ' ps
  | None => True
  end.
Proof.
  intros (Hps & He & Het & Hst) Hne Hd.
  destruct (digit_cases d Hd)
    as (H1 & _ & _ & _ & _ & _ & _ & _ & H2 & H3 & H4 & H5 & H6 & H7 & H8 & _).
  destruct σ as [st et ps' e n]. simpl in *. subst.
  destruct ps as [|p ps]; [done|].
  destruct Hst as [-> | ->]; cbn [scan_run step_fn incr_bytes step].
  - unfold state0. rewrite H2, H3, H4. cbn [orb]. unfold stateEndValue.
    cbn [parseState]. rewrite H1. destruct p; rewrite ?H5, ?H6, ?H7, ?H8; done.
  - unfold state1. rewrite Hd. cbn [opcode_eqb snd fst set_step].
    destruct (scan_run X _) as [σe|] eqn:Hrun; [|done].
    eexists. split; [exact Hrun|]. split_and!; auto.
Qed.

Lemma digits_scan_in (ds : string) :
  ∀ (acc z : Z) (rest : string) (σ σe : scanner.t) ps,
    ps ≠ [] → decode.digits_val acc ds = Some z → in_number σ ps →
    scan_run (ds +:+ rest) σ = Some σe →
    ∃ σ', scan_run rest σ' = Some σe ∧ in_number σ' ps.
Proof.
  induction ds as [|d ds IH]; intros acc z rest σ σe ps Hne Hval Hσ Hscan.
  - by exists σ.
  - simpl in Hval. destruct (isDigit d) eqn:Hd; [|done].
    rewrite append_cons in Hscan.
    pose proof (in_number_digit σ ps d (ds +:+ rest) Hσ Hne Hd) as Hstep.
    rewrite Hscan in Hstep. destruct Hstep as (σ1 & Hrun & Hσ1).
    by eapply IH.
Qed.

Lemma number_extent_app (s : string) (n rest : string) :
  decode.number_extent s = (n, rest) → s = n +:+ rest.
Proof.
  revert n. induction s as [|c s IH]; intros n; simpl.
  - by intros [= <- <-].
  - destruct (isDigit c || is_byte c "-" || is_byte c "+" || is_byte c "."
              || is_byte c "e" || is_byte c "E").
    + destruct (decode.number_extent s) as [n' rest']. intros [= <- <-].
      by rewrite (IH n' eq_refl).
    + by intros [= <- <-].
Qed.

Lemma digits_val_nonneg (ds : string) :
  ∀ acc z, 0 ≤ acc → decode.digits_val acc ds = Some z → 0 ≤ z.
Proof.
  induction ds as [|d ds IH]; intros acc z Hacc; simpl.
  - intros [= <-]. done.
  - destruct (isDigit d) eqn:Hd; [|done]. apply IH.
    unfold isDigit in Hd. norm_bytes. bool_hyps. lia.
Qed.

(** The decoder reads a number where the scanner has accepted one. *)
Lemma number_scan (σ σe : scanner.t) ps (c : ascii) (s' n rest : string) (z : Z) :
  ps ≠ [] → scanning σ StateBeginValue ps →
  isSpace c = false → is_byte c "{" = false → is_byte c "[" = false →
  is_byte c DQ = false → is_byte c "n" = false → is_byte c "t" = false →
  is_byte c "f" = false →
  scan_run (String c s') σ = Some σe →
  decode.number_extent (String c s') = (n, rest) →
  decode.convertNumber n = inr z →
  - 9007199254740992 ≤ z ≤ 9007199254740992
  ∧ ∃ σ', scan_run rest σ' = Some σe ∧ value_ended σ' ps.
Proof.
  intros Hne Hσ H1 H2 H3 H4 H5 H6 H7 Hscan Hext Hconv.
  pose proof (number_extent_app _ _ _ Hext) as Heq.
  unfold decode.convertNumber in Hconv.
  destruct n as [|c0 n1].
  { exfalso. simpl in Hext.
    destruct (isDigit c) eqn:Hd; cbn [orb] in Hext;
      [by destruct (decode.number_extent s')|].
    destruct (is_byte c "-") eqn:Hm; cbn [orb] in Hext;
      [by destruct (decode.number_extent s')|].
    by rewrite (begin_bad σ ps c s' Hσ) in Hscan. }
  rewrite append_cons in Heq. injection Heq as <- ->.
  destruct (is_byte c "-") eqn:Hm.
  - apply Ascii.eqb_eq in Hm. subst c.
    destruct (decode.digits_val 0 n1) as [v|] eqn:Hval; [|done].
    pose proof (digits_val_nonneg n1 0 v ltac:(lia) Hval) as Hv.
    cbn [andb] in Hconv.
    destruct ((v =? 0) || (9007199254740992 <? v)) eqn:Hrange; [done|].
    apply orb_false_iff in Hrange as [Hz Hmax]. bool_hyps.
    injection Hconv as <-. split; [lia|].
    destruct (begin_minus σ ps (n1 +:+ rest) Hσ) as (σ1 & Hrun & Hσ1).
    rewrite Hrun in Hscan.
    destruct n1 as [|d n2]; [simpl in Hval; injection Hval as <-; done|].
    simpl in Hval. destruct (isDigit d) eqn:Hd; [|done].
    rewrite append_cons in Hscan.
    destruct (begin_digit σ1 ps d (n2 +:+ rest) (or_intror Hσ1) Hd)
      as (σ2 & Hrun2 & Hσ2).
    rewrite Hrun2 in Hscan.
    destruct (digits_scan_in n2 _ v rest σ2 σe ps Hne Hval Hσ2 Hscan)
      as (σ3 & Hrun3 & Hσ3).
    exists σ3. split; [done|by apply in_number_ended].
  - destruct (decode.digits_val 0 (String c n1)) as [v|] eqn:Hval; [|done].
    pose proof (digits_val_nonneg _ 0 v ltac:(lia) Hval) as Hv.
    cbn [andb orb] in Hconv.
    destruct (9007199254740992 <? v) eqn:Hmax; [done|]. bool_hyps.
    injection Hconv as <-. split; [lia|].
    simpl in Hval. destruct (isDigit c) eqn:Hd; [|done].
    destruct (begin_digit σ ps c (n1 +:+ rest) (or_introl Hσ) Hd)
      as (σ2 & Hrun2 & Hσ2).
    rewrite Hrun2 in Hscan.
    destruct (digits_scan_in n1 _ v rest σ2 σe ps Hne Hval Hσ2 Hscan)
      as (σ3 & Hrun3 & Hσ3).
    exists σ3. split; [done|by apply in_number_ended].
Qed.
End read_scalars.

(** ** Reading a document: values *)

Section read_values.
Import scanner scanner_facts.

Lemma open_inv (σ σe : scanner.t) ps (c : ascii) (X : string) :
  scanning σ StateBeginValue ps →
  c = "{"%char ∨ c = "["%char →
  scan_run (String c X) σ = Some σe → push_ok_prop ps.
Proof.
  intros H Hc. known_state σ H. unfold push_ok_prop.
  destruct Hc as [-> | ->]; cbn [scan_run step_fn incr_bytes step];
    unfold stateBeginValue;
    cbn [isSpace is_byte Ascii.eqb Bool.eqb orb]; cbv iota;
    unfold pushParseState, set_parseState, set_step;
    cbn [parseState step endTop err bytes];
    match goal with
    | |- context [?a <=? ?b] =>
        destruct (Z.leb_spec a b) as [Hle|Hle]; [intros _; exact Hle|done]
    end.
Qed.

Lemma begin_quote (σ : scanner.t) ps (X : string) :
  scanning σ StateBeginValue ps →
  ∃ σ', scan_run (String DQ X) σ = scan_run X σ' ∧ scanning σ' StateInString ps.
Proof. intros H. known_state σ H. cbn. eexists. split; [reflexivity|done]. Qed.

Lemma scanning_ended (σ : scanner.t) ps :
  scanning σ StateEndValue ps → value_ended σ ps.
Proof. intros (? & ? & ? & ?). split_and!; auto. Qed.

(** The decoder and the scanner read a valid document alike: where the
    decoder returns a value, the scanner has read the same bytes, and the
    value is one that the encoder writes in a form both read back. *)
Lemma read_values (fuel : nat) :
  (∀ ps (s : string) (σ σe : scanner.t) (v : value Z) (rest : string),
     ps ≠ [] → scanning σ StateBeginValue ps → scan_run s σ = Some σe →
     decode.valueInterface fuel s = inr (v, rest) →
     good ps v ∧ ∃ σ', value_ended σ' ps ∧ scan_run rest σ' = Some σe)
  ∧ (∀ ps (s : string) (σ σe : scanner.t) (acc l : list (value Z))
       (rest : string),
       scanning σ StateBeginValue (parseArrayValue :: ps) →
       scan_run s σ = Some σe →
       decode.array_rest fuel acc s = inr (l, rest) →
       ∃ l' σ', l = (acc ++ l')%list
                ∧ Forall (good (parseArrayValue :: ps)) l'
                ∧ value_ended σ' (parseArrayValue :: ps)
                ∧ scan_run (String "]" rest) σ' = Some σe)
  ∧ (∀ ps (s : string) (σ σe : scanner.t) (m m' : gmap string (value Z))
       (rest : string),
       scanning σ StateBeginString (parseObjectKey :: ps)
       ∨ scanning σ StateBeginStringOrEmpty (parseObjectKey :: ps) →
       scan_run s σ = Some σe →
       decode.object_rest fuel m s = inr (m', rest) →
       (∀ k v, m' !! k = Some v →
               m !! k = Some v
               ∨ (utf8_valid k ∧ good (parseObjectValue :: ps) v))
       ∧ ∃ σ', value_ended σ' (parseObjectValue :: ps)
               ∧ scan_run (String "}" rest) σ' = Some σe).
Proof.
  induction fuel as [|fuel (IHval & IHarr & IHobj)]; [by split_and!|].
  split_and!.
  - (* valueInterface *)
    intros ps s σ σe v rest Hne Hσ Hscan Hval. cbn [decode.valueInterface] in Hval.
    destruct (scan_space s σ StateBeginValue ps Hσ) as (σ0 & Hσ0 & Hrun0); [auto|].
    rewrite Hrun0 in Hscan. clear Hrun0.
    destruct (decode.skip_space s) as [|c s'] eqn:Hs; [done|].
    pose proof (skip_space_not_space s c s' Hs) as Hsp.
    destruct (is_byte c "{") eqn:Hobj.
    { apply Ascii.eqb_eq in Hobj. subst c.
      pose proof (open_inv σ0 σe ps "{" s' Hσ0 ltac:(auto) Hscan) as Hpush.
      destruct (proj2 (step_open σ0 ps s' Hσ0 Hpush)) as (σ1 & Hrun1 & Hσ1).
      rewrite Hrun1 in Hscan.
      destruct (scan_space s' σ1 _ _ Hσ1) as (σ2 & Hσ2 & Hrun2); [auto 10|].
      destruct (decode.skip_space s') as [|c' s''] eqn:Hs'; [done|].
      destruct (is_byte c' "}") eqn:Hclose.
      - apply Ascii.eqb_eq in Hclose. subst c'. injection Hval as <- <-.
        split.
        + apply good_map; [done|done|]. intros k v Hk.
          by rewrite lookup_empty in Hk.
        + rewrite Hrun2 in Hscan.
          destruct (step_empty_object σ2 ps s'' Hσ2 Hne) as (σ3 & Hrun3 & Hσ3).
          rewrite Hrun3 in Hscan. exists σ3. split; [by apply scanning_ended|done].
      - destruct (decode.object_rest fuel ∅ s') as [e|[m rest']] eqn:Hrest;
          [done|].
        injection Hval as <- <-.
        destruct (IHobj ps s' σ1 σe ∅ m rest' (or_intror Hσ1) Hscan Hrest)
          as (Hm & σ3 & Hσ3 & Hrun3).
        split.
        + apply good_map; [done|done|]. intros k v Hk.
          destruct (Hm k v Hk) as [Hk'|Hk']; [by rewrite lookup_empty in Hk'|done].
        + destruct (step_close_object σ3 ps rest' Hσ3 Hne) as (σ4 & Hrun4 & Hσ4).
          rewrite Hrun4 in Hrun3. exists σ4.
          split; [by apply scanning_ended|done]. }
    destruct (is_byte c "[") eqn:Harr.
    { apply Ascii.eqb_eq in Harr. subst c.
      pose proof (open_inv σ0 σe ps "[" s' Hσ0 ltac:(auto) Hscan) as Hpush.
      destruct (proj1 (step_open σ0 ps s' Hσ0 Hpush)) as (σ1 & Hrun1 & Hσ1).
      rewrite Hrun1 in Hscan.
      destruct (scan_space s' σ1 _ _ Hσ1) as (σ2 & Hσ2 & Hrun2); [auto 10|].
      destruct (decode.skip_space s') as [|c' s''] eqn:Hs'; [done|].
      pose proof (skip_space_not_space s' c' s'' Hs') as Hsp'.
      destruct (is_byte c' "]") eqn:Hclose.
      - apply Ascii.eqb_eq in Hclose. subst c'. injection Hval as <- <-.
        split.
        + apply good_slice; [done|done|constructor].
        + rewrite Hrun2 in Hscan.
          destruct (step_empty_array σ2 ps s'' Hσ2 Hne) as (σ3 & Hrun3 & Hσ3).
          rewrite Hrun3 in Hscan. exists σ3. split; [by apply scanning_ended|done].
      - destruct (decode.array_rest fuel [] s') as [e|[l rest']] eqn:Hrest;
          [done|].
        injection Hval as <- <-.
        assert (decode.array_rest fuel [] (String c' s'') = inr (l, rest'))
          as Hrest'.
        { destruct fuel as [|fuel']; [done|].
          cbn [decode.array_rest] in Hrest |- *.
          destruct fuel' as [|fuel'']; [done|].
          cbn [decode.valueInterface] in Hrest |- *.
          by rewrite <- Hs', skip_space_idemp. }
        rewrite Hrun2 in Hscan.
        destruct (step_first_element σ2 _ c' s'' Hσ2 Hsp' Hclose)
          as (σ3 & Hσ3 & Hrun3).
        rewrite Hrun3 in Hscan.
        destruct (IHarr ps _ σ3 σe [] l rest' Hσ3 Hscan Hrest')
          as (l' & σ4 & -> & Hl & Hσ4 & Hrun4).
        split.
        + by apply good_slice.
        + destruct (step_close_array σ4 ps rest' Hσ4 Hne) as (σ5 & Hrun5 & Hσ5).
          rewrite Hrun5 in Hrun4. exists σ5.
          split; [by apply scanning_ended|done]. }
    destruct (is_byte c DQ) eqn:Hq.
    { apply Ascii.eqb_eq in Hq. subst c.
      destruct (begin_quote σ0 ps s' Hσ0) as (σ1 & Hrun1 & Hσ1).
      rewrite Hrun1 in Hscan.
      destruct (decode.unquote (S (String.length s')) s') as [[t rest']|] eqn:Hunq;
        [|done].
      injection Hval as <- <-.
      destruct (unquote_scan _ s' σ1 σe ps t rest' Hσ1 Hscan Hunq)
        as (Ht & σ2 & Hσ2 & Hrun2).
      split; [by apply good_string|].
      exists σ2. split; [by apply scanning_ended|done]. }
    destruct (is_byte c "n") eqn:Hn.
    { apply Ascii.eqb_eq in Hn. subst c.
      destruct (decode.expect "ull" s') as [rest'|] eqn:Hexp; [|done].
      injection Hval as <- <-. apply expect_inv in Hexp. subst s'.
      split; [apply good_nil|].
      destruct (proj1 (good_nil ps) rest' σ0 Hσ0) as (σ1 & Hrun1 & Hσ1).
      exists σ1. split; [done|]. by rewrite <- Hrun1. }
    destruct (is_byte c "t") eqn:Ht.
    { apply Ascii.eqb_eq in Ht. subst c.
      destruct (decode.expect "rue" s') as [rest'|] eqn:Hexp; [|done].
      injection Hval as <- <-. apply expect_inv in Hexp. subst s'.
      split; [apply good_bool|].
      destruct (proj1 (good_bool ps true) rest' σ0 Hσ0) as (σ1 & Hrun1 & Hσ1).
      exists σ1. split; [done|]. by rewrite <- Hrun1. }
    destruct (is_byte c "f") eqn:Hf.
    { apply Ascii.eqb_eq in Hf. subst c.
      destruct (decode.expect "alse" s') as [rest'|] eqn:Hexp; [|done].
      injection Hval as <- <-. apply expect_inv in Hexp. subst s'.
      split; [apply good_bool|].
      destruct (proj1 (good_bool ps false) rest' σ0 Hσ0) as (σ1 & Hrun1 & Hσ1).
      exists σ1. split; [done|]. by rewrite <- Hrun1. }
    destruct (decode.number_extent (String c s')) as [n rest'] eqn:Hext.
    destruct (decode.convertNumber n) as [e|z] eqn:Hconv; [done|].
    injection Hval as <- <-.
    destruct (number_scan σ0 σe ps c s' n rest' z) as (Hz & σ1 & Hrun1 & Hσ1);
      try done.
    split; [by apply good_number|]. by exists σ1.
  - (* array_rest *)
    intros ps s σ σe acc l rest Hσ Hscan Harr. cbn [decode.array_rest] in Harr.
    destruct (decode.valueInterface fuel s) as [e|[v rest1]] eqn:Hv; [done|].
    destruct (IHval (parseArrayValue :: ps) s σ σe v rest1 ltac:(done) Hσ Hscan Hv)
      as (Hgood & σ1 & Hσ1 & Hrun1).
    destruct (scan_space_ended rest1 σ1 _ Hσ1 ltac:(done)) as (σ2 & Hσ2 & Hrun2).
    rewrite Hrun2 in Hrun1.
    destruct (decode.skip_space rest1) as [|c rest2]; [done|].
    destruct (is_byte c ",") eqn:Hcomma.
    { apply Ascii.eqb_eq in Hcomma. subst c.
      destruct (step_comma_array σ2 ps rest2 Hσ2) as (σ3 & Hrun3 & Hσ3).
      rewrite Hrun3 in Hrun1.
      destruct (IHarr ps rest2 σ3 σe _ l rest Hσ3 Hrun1 Harr)
        as (l' & σ4 & -> & Hl & Hσ4 & Hrun4).
      exists (v :: l'), σ4. split_and!; try done.
      - by rewrite <- app_assoc.
      - by constructor. }
    destruct (is_byte c "]") eqn:Hclose; [|done].
    apply Ascii.eqb_eq in Hclose. subst c. injection Harr as <- <-.
    exists [v], σ2. split_and!; try done. by constructor.
  - (* object_rest *)
    intros ps s σ σe m m' rest Hσ Hscan Hobj. cbn [decode.object_rest] in Hobj.
    assert (∃ σ0, (scanning σ0 StateBeginString (parseObjectKey :: ps)
                   ∨ scanning σ0 StateBeginStringOrEmpty (parseObjectKey :: ps))
                  ∧ scan_run s σ = scan_run (decode.skip_space s) σ0)
      as (σ0 & Hσ0 & Hrun0).
    { destruct Hσ as [Hσ|Hσ];
        (destruct (scan_space s σ _ _ Hσ) as (σ0 & Hσ0 & Hrun0); [auto 10|]);
        exists σ0; auto. }
    rewrite Hrun0 in Hscan. clear Hrun0.
    destruct (decode.skip_space s) as [|c s']; [done|].
    destruct (is_byte c DQ) eqn:Hq; [|done].
    apply Ascii.eqb_eq in Hq. subst c.
    destruct (step_key σ0 _ s' Hσ0) as (σ1 & Hrun1 & Hσ1).
    rewrite Hrun1 in Hscan.
    destruct (decode.unquote (S (String.length s')) s') as [[key rest0]|] eqn:Hunq;
      [|done].
    destruct (unquote_scan _ s' σ1 σe _ key rest0 Hσ1 Hscan Hunq)
      as (Hkey & σ2 & Hσ2 & Hrun2).
    destruct (scan_space rest0 σ2 _ _ Hσ2) as (σ3 & Hσ3 & Hrun3); [auto 10|].
    rewrite Hrun3 in Hrun2.
    destruct (decode.skip_space rest0) as [|c' rest1]; [done|].
    destruct (is_byte c' ":") eqn:Hcolon; [|done].
    apply Ascii.eqb_eq in Hcolon. subst c'.
    destruct (step_colon σ3 ps rest1 Hσ3) as (σ4 & Hrun4 & Hσ4).
    rewrite Hrun4 in Hrun2.
    destruct (decode.valueInterface fuel rest1) as [e|[v rest2]] eqn:Hv; [done|].
    destruct (IHval (parseObjectValue :: ps) rest1 σ4 σe v rest2 ltac:(done)
                Hσ4 Hrun2 Hv) as (Hgood & σ5 & Hσ5 & Hrun5).
    destruct (scan_space_ended rest2 σ5 _ Hσ5 ltac:(done)) as (σ6 & Hσ6 & Hrun6).
    rewrite Hrun6 in Hrun5.
    destruct (decode.skip_space rest2) as [|c'' rest3]; [done|].
    destruct (is_byte c'' ",") eqn:Hcomma.
    { apply Ascii.eqb_eq in Hcomma. subst c''.
      destruct (step_comma_object σ6 ps rest3 Hσ6) as (σ7 & Hrun7 & Hσ7).
      rewrite Hrun7 in Hrun5.
      destruct (IHobj ps rest3 σ7 σe _ m' rest (or_introl Hσ7) Hrun5 Hobj)
        as (Hm & σ8 & Hσ8 & Hrun8).
      split; [|by exists σ8].
      intros k w Hk. destruct (Hm k w Hk) as [Hk'|Hk']; [|by right].
      apply lookup_insert_Some in Hk' as [[<- <-]|[_ Hk']]; [by right|by left]. }
    destruct (is_byte c'' "}") eqn:Hclose; [|done].
    apply Ascii.eqb_eq in Hclose. subst c''. injection Hobj as <- <-.
    split; [|by exists σ6].
    intros k w Hk.
    apply lookup_insert_Some in Hk as [[<- <-]|[_ Hk]]; [by right|by left].
Qed.
End read_values.

(** ** Decoding the canonical form *)

Section round_trip.
Import scanner scanner_facts.

Lemma checkValid_scan_run (data : string) :
  ∀ σ, inv σ → scanner.checkValid_loop data σ = None →
       ∃ σe, scan_run data σ = Some σe.
Proof.
  induction data as [|c data IH]; intros σ Hinv Hcheck; [by eexists|].
  cbn [scanner.checkValid_loop scan_run] in *.
  pose proof (step_fn_inv (incr_bytes σ) c (inv_incr_bytes σ Hinv))
    as (Hinv' & Herr & _).
  destruct (step_fn (incr_bytes σ) c) as [σ1 op]. simpl in *.
  destruct (opcode_eqb op scanError) eqn:Hop.
  - destruct op; try done. destruct (Herr eq_refl) as [e He].
    by rewrite He in Hcheck.
  - by apply IH.
Qed.

Lemma scan_run_checkValid (data : string) :
  ∀ σ σ', scan_run data σ = Some σ' →
          scanner.checkValid_loop data σ = scanner.checkValid_loop "" σ'.
Proof.
  induction data as [|c data IH]; intros σ σ' Hrun.
  - by injection Hrun as ->.
  - cbn [scanner.checkValid_loop scan_run] in *.
    destruct (step_fn (incr_bytes σ) c) as [σ1 op].
    destruct (opcode_eqb op scanError); [done|]. by apply IH.
Qed.

Lemma push_ok_top : push_ok_prop [].
Proof. unfold push_ok_prop, maxNestingDepth. simpl. lia. Qed.

Lemma scanning_reset : scanning reset StateBeginValue [].
Proof. done. Qed.

Lemma close_top (σ : scanner.t) :
  value_ended σ [parseObjectValue]
  ∨ scanning σ StateBeginStringOrEmpty [parseObjectKey] →
  ∃ σe, scan_run (String "}" (String LF "")) σ = Some σe
        ∧ scanner.checkValid_loop "" σe = None.
Proof.
  intros [H|H]; [known_ended σ H|known_state σ H];
    cbn; (eexists; split; [reflexivity|done]).
Qed.

(** What the decoder returns for a valid document is a map whose keys
    are sequences of scalar values and whose values the encoder writes in
    a form that is read back. *)
Lemma Unmarshal_reads (data : string) (m : gmap string (value Z)) :
  decode.Unmarshal data (Some ∅) = (Some m, None) →
  ∀ k v, m !! k = Some v → utf8_valid k ∧ good [parseObjectValue] v.
Proof.
  unfold decode.Unmarshal. intros Hdec.
  destruct (scanner.checkValid data) as [e|] eqn:Hcheck; [done|].
  destruct (checkValid_scan_run data reset inv_reset Hcheck) as (σe & Hscan).
  cbv zeta in Hdec. unfold entries in Hdec. cbn [from_option id] in Hdec.
  destruct (scan_space data reset _ _ scanning_reset) as (σ0 & Hσ0 & Hrun0);
    [auto|].
  rewrite Hrun0 in Hscan. clear Hrun0.
  destruct (decode.skip_space data) as [|c s']; [done|].
  destruct (is_byte c "{") eqn:Hobj.
  - apply Ascii.eqb_eq in Hobj. subst c.
    destruct (proj2 (step_open σ0 [] s' Hσ0 push_ok_top)) as (σ1 & Hrun1 & Hσ1).
    rewrite Hrun1 in Hscan.
    destruct (decode.skip_space s') as [|c' s'']; [done|].
    destruct (is_byte c' "}").
    + injection Hdec as <-. intros k v Hk. by rewrite lookup_empty in Hk.
    + destruct (decode.object_rest _ _ s') as [e|[m' rest]] eqn:Hrest; [done|].
      injection Hdec as ->.
      destruct (read_values (S (String.length s'))) as (_ & _ & Hread).
      destruct (Hread [] s' σ1 σe _ m rest (or_intror Hσ1) Hscan Hrest)
        as (Hm & _).
      intros k v Hk. destruct (Hm k v Hk) as [Hk'|Hk']; [|done].
      by rewrite lookup_empty in Hk'.
  - destruct (is_byte c "["); [done|]. destruct (is_byte c "n"); done.
Qed.

Lemma Unmarshal_encoded (m : gmap string (value Z)) :
  (∀ k v, m !! k = Some v → utf8_valid k ∧ good [parseObjectValue] v) →
  decode.Unmarshal (encode.encode_value false (VMap m) +:+ str LF) (Some ∅)
  = (Some m, None).
Proof.
  intros Hm. rewrite encode_map_eq.
  set (L := sorted_entries (encode.encode_value false <$> m)).
  rewrite append_cons, append_assoc.
  change ("}" +:+ str LF) with (String "}" (String LF "")).
  assert (scanner.checkValid (String "{" (join "," (map member L)
                                        +:+ String "}" (String LF ""))) = None)
    as Hcheck.
  { unfold scanner.checkValid.
    destruct (proj2 (step_open reset [] (join "," (map member L)
                       +:+ String "}" (String LF "")) scanning_reset push_ok_top))
      as (σ1 & Hrun1 & Hσ1).
    assert (∃ σe, scan_run (join "," (map member L)
                            +:+ String "}" (String LF "")) σ1 = Some σe
                  ∧ scanner.checkValid_loop "" σe = None) as (σe & Hrun & Heof).
    { destruct (decide (L = [])) as [HL|HL].
      - rewrite HL. apply close_top. by right.
      - destruct (members_scan [] L HL) with (X := String "}" (String LF ""))
          (σ := σ1) as (σ2 & -> & Hσ2); [|by right|].
        + eapply Forall_impl;
            [apply (members_of_map (λ k v, utf8_valid k
                      ∧ good [parseObjectValue] v)), Hm|].
          intros kv (v & ? & ? & ? & [? ?]). by exists v.
        + apply close_top. by left. }
    rewrite Hrun in Hrun1.
    by rewrite (scan_run_checkValid _ _ _ Hrun1). }
  unfold decode.Unmarshal. rewrite Hcheck. cbv zeta.
  cbn [decode.skip_space]. change (isSpace "{") with false. cbv iota.
  change (is_byte "{" "{") with true. cbv iota.
  destruct (decide (L = [])) as [HL|HL].
  - rewrite HL. unfold entries. cbn. apply sorted_entries_nil, fmap_empty_inv in HL. by subst m.
  - destruct (members_head L (String "}" (String LF "")) HL) as (t & Heq).
    rewrite Heq. cbn [decode.skip_space]. change (isSpace DQ) with false.
    cbv iota. change (is_byte DQ "}") with false. cbv iota. rewrite <- Heq.
    unfold entries. cbn [from_option id]. unfold L. rewrite members_parse_map; [done| |done|].
    + intros k v Hk. destruct (Hm k v Hk) as [? [_ ?]]. done.
    + rewrite length_append. lia.
Qed.

(** The encoder's output for a decoded map decodes to that map. *)
Lemma Unmarshal_Encode (blob buf : string) (blobMap : option (gmap string (value Z))) :
  decode.Unmarshal blob (Some ∅) = (blobMap, None) →
  encode.Encode false blobMap = inl buf →
  decode.Unmarshal buf (Some ∅) = (blobMap, None).
Proof.
  intros Hdec [= <-]. destruct blobMap as [m|].
  - apply Unmarshal_encoded. by eapply Unmarshal_reads.
  - by vm_compute.
Qed.
End round_trip.


